(** * libspc: the XPC wire codec of [libspc/serialization.c]

    A shallow embedding of the serializer and deserializer of libspc
    (the XPC re-implementation shipped with the pwn2own2018 exploit chain),
    together with the properties of the codec that its specification
    states.

    Conventions of the embedding.
    - Bytes are [Byte.byte]; fixed-width integers are [Z] with the
      wrap-around written out ([u32], [le_bytes]).  The target is a
      little-endian LP64 machine (macOS on x86_64), so [memcpy] of an
      integer stores its little-endian image.
    - The writer and the reader are explicit states passed through the
      calls; pointers into a buffer are offsets from its start.
    - The decoder can leave a call in four ways ([outcome]): it returns,
      it calls [abort()], it calls [exit()], or it hands NULL to [strdup].
    - The recursion of the decoder follows the bytes of the message, not
      a Rocq term, so it is written with fuel; [spc_deserialize] supplies
      enough of it for every message ([spc_deserialize_value_total]). *)

From Stdlib Require Import ZArith List Lia Bool.
From Stdlib Require Import Strings.Byte.
Import ListNotations.

Local Open Scope Z_scope.

Set Implicit Arguments.
Set Warnings "-register-all".

(* ================================================================== *)
(** * Bytes and little-endian integers *)

Definition byte_of_Z (z : Z) : byte :=
  match Byte.of_N (Z.to_N (z mod 256)) with
  | Some b => b
  | None => x00
  end.

Definition Z_of_byte (b : byte) : Z := Z.of_N (Byte.to_N b).

(** [le_bytes n v]: the [n] bytes that [memcpy(ptr, &v, n)] stores for an
    [n]-byte integer [v]; the value is taken modulo [256^n]. *)
Fixpoint le_bytes (n : nat) (v : Z) : list byte :=
  match n with
  | O => []
  | S n' => byte_of_Z v :: le_bytes n' (v / 256)
  end.

(** [le_value l]: the unsigned integer whose little-endian image is [l]
    (what [*(uintN_t* )p] loads). *)
Fixpoint le_value (l : list byte) : Z :=
  match l with
  | [] => 0
  | b :: l' => Z_of_byte b + 256 * le_value l'
  end.

Definition u32 (z : Z) : Z := z mod 2 ^ 32.

(** Reinterpretation of a 64-bit pattern as [int64_t]. *)
Definition to_int64 (z : Z) : Z :=
  if z <? 2 ^ 63 then z else z - 2 ^ 64.

(** [slice mem off len]: the bytes of [mem] in [off, off + len). *)
Definition slice (mem : list byte) (off len : Z) : list byte :=
  firstn (Z.to_nat len) (skipn (Z.to_nat off) mem).

(** [*(uint32_t* )(mem + off) = val]. *)
Definition store_uint32 (mem : list byte) (off val : Z) : list byte :=
  firstn (Z.to_nat off) mem ++ le_bytes 4 val ++ skipn (Z.to_nat off + 4) mem.

(** [strlen]: the number of bytes before the first NUL.  A C string is
    modelled by a byte list; the string it denotes ends at its first NUL
    byte, or at the end of the list (where the terminator stands). *)
Fixpoint strlen (s : list byte) : Z :=
  match s with
  | [] => 0
  | b :: s' => if Byte.eqb b x00 then 0 else 1 + strlen s'
  end.

(** The characters of the C string [s], terminator excluded
    (what [strdup] copies, what [memcpy(.., s, strlen(s))] reads). *)
Fixpoint cstr (s : list byte) : list byte :=
  match s with
  | [] => []
  | b :: s' => if Byte.eqb b x00 then [] else b :: cstr s'
  end.

(** [memchr(p, 0, n)] over the bytes [l]: the index of the first NUL. *)
Fixpoint memchr0 (l : list byte) : option Z :=
  match l with
  | [] => None
  | b :: l' =>
      if Byte.eqb b x00 then Some 0
      else match memchr0 l' with
           | Some k => Some (1 + k)
           | None => None
           end
  end.

(* ================================================================== *)
(** * The value model ([spc_value_t] and its containers) *)

(** A port: [spc_port_t]. *)
Record spc_port_t := { name : Z; type : Z }.

(** Modelled from the spec: the macro [SPC_NULL_PORT] is declared in a
    header that is not part of the sources at hand; the spec gives the
    null port the name 0 ([MACH_PORT_NULL]). *)
Definition SPC_NULL_PORT : spc_port_t := {| name := 0; type := 0 |}.

(** One node of the linked list of a dictionary. *)
Record spc_dictionary_item (V : Type) := { key : list byte; value : V }.

(** [spc_dictionary_t]: the item count and the linked list of items,
    head first. *)
Record spc_dictionary (V : Type) := {
  num_items : Z;
  items : list (spc_dictionary_item V)
}.

(** [spc_value_t]: a type tag and a union, as a tagged sum.  An array
    is the list of its [length] values; a data blob is the list of its
    [size] bytes; a UUID (16 bytes behind [ptr]) and a double are the
    integers whose little-endian images are their bytes.
    [SPC_UNSUPPORTED t] is a value whose [type] field [t] matches no
    [case] label of the codec. *)
Inductive spc_value_t : Type :=
| SPC_NULL
| SPC_BOOL (u64 : Z)
| SPC_UINT64 (u64 : Z)
| SPC_INT64 (i64 : Z)
| SPC_DOUBLE (dbl : Z)
| SPC_STRING (str : list byte)
| SPC_ARRAY (array : list spc_value_t)
| SPC_DICT (dict : spc_dictionary spc_value_t)
| SPC_FD (port : spc_port_t)
| SPC_SEND_PORT (port : spc_port_t)
| SPC_RECV_PORT (port : spc_port_t)
| SPC_UUID (ptr : Z)
| SPC_DATA (data : list byte)
| SPC_UNSUPPORTED (t : Z).

Definition spc_dictionary_t := spc_dictionary spc_value_t.
Definition spc_dictionary_item_t := spc_dictionary_item spc_value_t.
Definition spc_array_t := list spc_value_t.

(** [spc_message_t]. *)
Record spc_message_t := {
  remote_port : spc_port_t;
  local_port : spc_port_t;
  id : Z;
  content : spc_dictionary_t
}.

(** The type tags.  Their values are declared in libspc's
    [serialization.h], which is not among the sources at hand: the
    development is parametric in them.  A C [switch] does not compile
    with two equal [case] labels, so the tags are pairwise distinct
    ([spc_types_ok]). *)
Class spc_types := {
  SPC_TYPE_NULL : Z;
  SPC_TYPE_BOOL : Z;
  SPC_TYPE_UINT64 : Z;
  SPC_TYPE_INT64 : Z;
  SPC_TYPE_DOUBLE : Z;
  SPC_TYPE_STRING : Z;
  SPC_TYPE_ARRAY : Z;
  SPC_TYPE_DICT : Z;
  SPC_TYPE_FD : Z;
  SPC_TYPE_SEND_PORT : Z;
  SPC_TYPE_RECV_PORT : Z;
  SPC_TYPE_UUID : Z;
  SPC_TYPE_DATA : Z
}.

Definition all_types `{spc_types} : list Z :=
  [ SPC_TYPE_NULL; SPC_TYPE_BOOL; SPC_TYPE_UINT64; SPC_TYPE_INT64;
    SPC_TYPE_DOUBLE; SPC_TYPE_STRING; SPC_TYPE_ARRAY; SPC_TYPE_DICT;
    SPC_TYPE_FD; SPC_TYPE_SEND_PORT; SPC_TYPE_RECV_PORT; SPC_TYPE_UUID;
    SPC_TYPE_DATA ].

Definition spc_types_ok `{spc_types} : Prop :=
  NoDup all_types /\ Forall (fun t => 0 <= t < 2 ^ 32) all_types.

(** The tags of Apple's XPC wire format, for the examples. *)
Definition xpc_types : spc_types := {|
  SPC_TYPE_NULL := 0x1000;
  SPC_TYPE_BOOL := 0x2000;
  SPC_TYPE_INT64 := 0x3000;
  SPC_TYPE_UINT64 := 0x4000;
  SPC_TYPE_DOUBLE := 0x5000;
  SPC_TYPE_DATA := 0x8000;
  SPC_TYPE_STRING := 0x9000;
  SPC_TYPE_UUID := 0xa000;
  SPC_TYPE_FD := 0xb000;
  SPC_TYPE_SEND_PORT := 0xd000;
  SPC_TYPE_ARRAY := 0xe000;
  SPC_TYPE_DICT := 0xf000;
  SPC_TYPE_RECV_PORT := 0x15000
|}.

(** The [type] field of a value. *)
Definition value_type `{spc_types} (v : spc_value_t) : Z :=
  match v with
  | SPC_NULL => SPC_TYPE_NULL
  | SPC_BOOL _ => SPC_TYPE_BOOL
  | SPC_UINT64 _ => SPC_TYPE_UINT64
  | SPC_INT64 _ => SPC_TYPE_INT64
  | SPC_DOUBLE _ => SPC_TYPE_DOUBLE
  | SPC_STRING _ => SPC_TYPE_STRING
  | SPC_ARRAY _ => SPC_TYPE_ARRAY
  | SPC_DICT _ => SPC_TYPE_DICT
  | SPC_FD _ => SPC_TYPE_FD
  | SPC_SEND_PORT _ => SPC_TYPE_SEND_PORT
  | SPC_RECV_PORT _ => SPC_TYPE_RECV_PORT
  | SPC_UUID _ => SPC_TYPE_UUID
  | SPC_DATA _ => SPC_TYPE_DATA
  | SPC_UNSUPPORTED t => t
  end.

(** Modelled from the spec: [spc_array_create] and [spc_array_set_value]
    live in libspc's [array.c], which is not among the sources at hand.
    The spec: "[array_set(a, i, v)] grows the sequence so index [i] is
    valid, filling gaps with NULL, and installs [v]". *)
Definition spc_array_create : spc_array_t := [].

Definition spc_array_set_value (a : spc_array_t) (i : Z) (v : spc_value_t)
  : spc_array_t :=
  let n := Z.to_nat i in
  let grown := a ++ repeat SPC_NULL (S n - length a) in
  firstn n grown ++ v :: skipn (S n) grown.

(** Modelled from the spec: [spc_dictionary_create] lives in libspc's
    [dictionary.c], which is not among the sources at hand; it makes the
    empty dictionary. *)
Definition spc_dictionary_create : spc_dictionary_t :=
  {| num_items := 0; items := [] |}.

(** Modelled from the spec: [spc_dictionary_set_string] lives in
    [dictionary.c] too.  The spec: "[dict_set(d, key, v)] inserts or
    replaces; copies the key"; insertion order is the iteration order. *)
Fixpoint dict_replace (l : list spc_dictionary_item_t) (k : list byte)
  (v : spc_value_t) : option (list spc_dictionary_item_t) :=
  match l with
  | [] => None
  | it :: l' =>
      if list_eq_dec Byte.byte_eq_dec (cstr (key it)) (cstr k)
      then Some ({| key := cstr k; value := v |} :: l')
      else option_map (cons it) (dict_replace l' k v)
  end.

Definition spc_dictionary_set_value (d : spc_dictionary_t) (k : list byte)
  (v : spc_value_t) : spc_dictionary_t :=
  match dict_replace (items d) k v with
  | Some l => {| num_items := num_items d; items := l |}
  | None => {| num_items := num_items d + 1;
               items := items d ++ [{| key := cstr k; value := v |}] |}
  end.

Definition spc_dictionary_set_string (d : spc_dictionary_t)
  (k s : list byte) : spc_dictionary_t :=
  spc_dictionary_set_value d k (SPC_STRING (cstr s)).

(* ================================================================== *)
(** * The Mach message layout ([<mach/message.h>], LP64) *)

Definition sizeof_mach_msg_header_t : Z := 24.
Definition sizeof_mach_msg_body_t : Z := 4.
Definition sizeof_mach_msg_port_descriptor_t : Z := 12.
Definition sizeof_mach_msg_ool_descriptor_t : Z := 16.
Definition sizeof_mach_msg_ool_ports_descriptor_t : Z := 16.

Definition MACH_MSGH_BITS_COMPLEX : Z := 0x80000000.
Definition MACH_MSGH_BITS_REMOTE_MASK : Z := 0x0000001f.
Definition MACH_MSGH_BITS_LOCAL_MASK : Z := 0x00001f00.

Definition MACH_MSGH_BITS (remote local : Z) : Z :=
  Z.lor remote (Z.shiftl local 8).
Definition MACH_MSGH_BITS_REMOTE (bits : Z) : Z :=
  Z.land bits MACH_MSGH_BITS_REMOTE_MASK.
Definition MACH_MSGH_BITS_LOCAL (bits : Z) : Z :=
  Z.shiftr (Z.land bits MACH_MSGH_BITS_LOCAL_MASK) 8.

Definition MACH_MSG_PORT_DESCRIPTOR : Z := 0.
Definition MACH_MSG_OOL_DESCRIPTOR : Z := 1.
Definition MACH_MSG_OOL_PORTS_DESCRIPTOR : Z := 2.

(** The fields of [mach_msg_header_t] that the codec touches. *)
Record mach_msg_header_t := {
  msgh_bits : Z;
  msgh_size : Z;
  msgh_remote_port : Z;
  msgh_local_port : Z;
  msgh_id : Z
}.

(** [spc_mach_message_t]: the header, and the memory that follows it
    ([buf], at offset [sizeof(mach_msg_header_t)]). *)
Record spc_mach_message_t := {
  header : mach_msg_header_t;
  buf : list byte
}.

(* ================================================================== *)
(** * The writer *)

(** [writer_t].  [w_buf] holds the bytes of [start, ptr), so that
    [ptr - start] is its length; [w_end] is [end - start]; [w_ports]
    is the array [ports] of [num_ports] entries. *)
Record writer_t := {
  w_buf : list byte;
  w_end : Z;
  w_ports : list spc_port_t
}.

Definition w_ptr (writer : writer_t) : Z := Z.of_nat (length (w_buf writer)).

Definition spc_ensure_space (writer : writer_t) (num_bytes : Z) : writer_t :=
  if w_ptr writer + num_bytes >? w_end writer then
    let new_size := w_end writer + num_bytes in
    {| w_buf := w_buf writer; w_end := new_size; w_ports := w_ports writer |}
  else writer.

(** [memcpy(writer->ptr, bytes, len); writer->ptr += len]. *)
Definition put (writer : writer_t) (bytes : list byte) : writer_t :=
  {| w_buf := w_buf writer ++ bytes;
     w_end := w_end writer;
     w_ports := w_ports writer |}.

(** In the write primitives the C arguments [(buf, len)] are one byte
    list, [len] being its length. *)
Definition spc_write (writer : writer_t) (bytes : list byte) : Z * writer_t :=
  let len := Z.of_nat (length bytes) in
  let writer := spc_ensure_space writer len in
  (len, put writer bytes).

Definition spc_write_padded (writer : writer_t) (bytes : list byte)
  : Z * writer_t :=
  let len := Z.of_nat (length bytes) in
  let remainder := (4 - (len mod 4)) mod 4 in
  let writer := spc_ensure_space writer (len + remainder) in
  let writer := put writer bytes in
  let writer := put writer (repeat x00 (Z.to_nat remainder)) in
  (len + remainder, writer).

Definition spc_write_str (writer : writer_t) (str : list byte) : Z * writer_t :=
  spc_write_padded writer (cstr str ++ [x00]).

Definition spc_write_uint32 (writer : writer_t) (val : Z) : Z * writer_t :=
  let writer := spc_ensure_space writer 4 in
  (4, put writer (le_bytes 4 val)).

Definition spc_write_uint64 (writer : writer_t) (val : Z) : Z * writer_t :=
  let writer := spc_ensure_space writer 8 in
  (8, put writer (le_bytes 8 val)).

Definition spc_write_int64 (writer : writer_t) (val : Z) : Z * writer_t :=
  let writer := spc_ensure_space writer 8 in
  (8, put writer (le_bytes 8 val)).

Definition spc_write_double (writer : writer_t) (val : Z) : Z * writer_t :=
  let writer := spc_ensure_space writer 8 in
  (8, put writer (le_bytes 8 val)).

Definition spc_write_port (writer : writer_t) (port : spc_port_t) : writer_t :=
  {| w_buf := w_buf writer;
     w_end := w_end writer;
     w_ports := w_ports writer ++ [port] |}.

(** [*(uint32_t* )(writer->start + offset) = val]. *)
Definition patch_uint32 (writer : writer_t) (offset val : Z) : writer_t :=
  {| w_buf := store_uint32 (w_buf writer) offset val;
     w_end := w_end writer;
     w_ports := w_ports writer |}.

(* ================================================================== *)
(** * The serializer *)

(** The two container writers call [spc_serialize_value], which calls
    them: they are written over the value serializer first and tied
    together below. *)
Section ContainerWriters.
Variable serialize_value : writer_t -> spc_value_t -> Z * writer_t.

(** The [for] loop of [spc_write_array]. *)
Fixpoint write_array_values (values : list spc_value_t)
  (bytes_written : Z) (writer : writer_t) : Z * writer_t :=
  match values with
  | [] => (bytes_written, writer)
  | v :: values' =>
      let '(n, writer) := serialize_value writer v in
      write_array_values values' (bytes_written + n) writer
  end.

Definition write_array_with (writer : writer_t) (array : spc_array_t)
  : Z * writer_t :=
  let bytes_written := 0 in
  let bytesize_offset := w_ptr writer in
  let '(_, writer) := spc_write_uint32 writer 0 in
  let '(n, writer) := spc_write_uint32 writer (Z.of_nat (length array)) in
  let bytes_written := bytes_written + n in
  let '(bytes_written, writer) :=
    write_array_values array bytes_written writer in
  let writer := patch_uint32 writer bytesize_offset bytes_written in
  (bytes_written + 4, writer).

(** The [for] loop of [spc_write_dict], along the [next] pointers. *)
Fixpoint write_dict_items (item : list spc_dictionary_item_t)
  (bytes_written : Z) (writer : writer_t) : Z * writer_t :=
  match item with
  | [] => (bytes_written, writer)
  | it :: next =>
      let '(n1, writer) := spc_write_str writer (key it) in
      let '(n2, writer) := serialize_value writer (value it) in
      write_dict_items next (bytes_written + n1 + n2) writer
  end.

Definition write_dict_with (writer : writer_t) (dict : spc_dictionary_t)
  : Z * writer_t :=
  let bytes_written := 0 in
  let bytesize_offset := w_ptr writer in
  let '(_, writer) := spc_write_uint32 writer 0 in
  let '(n, writer) := spc_write_uint32 writer (num_items dict) in
  let bytes_written := bytes_written + n in
  let '(bytes_written, writer) :=
    write_dict_items (items dict) bytes_written writer in
  let writer := patch_uint32 writer bytesize_offset bytes_written in
  (bytes_written + 4, writer).
End ContainerWriters.

Section Serializer.
Context `{spc_types}.

Fixpoint spc_serialize_value (writer : writer_t) (value : spc_value_t)
  {struct value} : Z * writer_t :=
  let bytes_written := 0 in
  let '(n, writer) := spc_write_uint32 writer (value_type value) in
  let bytes_written := bytes_written + n in
  match value with
  | SPC_NULL => (bytes_written, writer)
  | SPC_BOOL u64 =>
      let '(n, writer) := spc_write_uint32 writer u64 in
      (bytes_written + n, writer)
  | SPC_UINT64 u64 =>
      let '(n, writer) := spc_write_uint64 writer u64 in
      (bytes_written + n, writer)
  | SPC_INT64 i64 =>
      let '(n, writer) := spc_write_int64 writer i64 in
      (bytes_written + n, writer)
  | SPC_DOUBLE dbl =>
      let '(n, writer) := spc_write_double writer dbl in
      (bytes_written + n, writer)
  | SPC_STRING str =>
      let '(n1, writer) := spc_write_uint32 writer (strlen str + 1) in
      let '(n2, writer) := spc_write_str writer str in
      (bytes_written + n1 + n2, writer)
  | SPC_ARRAY array =>
      let '(n, writer) := write_array_with spc_serialize_value writer array in
      (bytes_written + n, writer)
  | SPC_DICT dict =>
      let '(n, writer) := write_dict_with spc_serialize_value writer dict in
      (bytes_written + n, writer)
  | SPC_FD port | SPC_SEND_PORT port | SPC_RECV_PORT port =>
      (bytes_written, spc_write_port writer port)
  | SPC_UUID ptr =>
      let '(n, writer) := spc_write writer (le_bytes 16 ptr) in
      (bytes_written + n, writer)
  | SPC_DATA data =>
      let '(n1, writer) := spc_write_uint32 writer (Z.of_nat (length data)) in
      let '(n2, writer) := spc_write_padded writer data in
      (bytes_written + n1 + n2, writer)
  | SPC_UNSUPPORTED _ => (bytes_written, writer)
  end.

Definition spc_write_array : writer_t -> spc_array_t -> Z * writer_t :=
  write_array_with spc_serialize_value.

Definition spc_write_dict : writer_t -> spc_dictionary_t -> Z * writer_t :=
  write_dict_with spc_serialize_value.
End Serializer.

(** The envelope prefix ["CPX@\x05\x00\x00\x00"]. *)
Definition magic : list byte := [x43; x50; x58; x40; x05; x00; x00; x00].

(** [iota off n]: the offsets [off, off + 1, ..., off + n - 1]. *)
Fixpoint iota (off : Z) (n : nat) : list Z :=
  match n with
  | O => []
  | S n' => off :: iota (off + 1) n'
  end.

(** One [mach_msg_port_descriptor_t] as [spc_serialize] fills it, at
    offset [off] of the allocated message:
    [name] (4 bytes), [pad1] (4 bytes) and [pad2] (16 bits) left as
    [malloc] returned them, [disposition] (8 bits), [type] (8 bits).
    [heap] gives the bytes of the fresh block. *)
Definition port_descriptor (heap : Z -> byte) (off : Z) (port : spc_port_t)
  : list byte :=
  le_bytes 4 (name port)
    ++ map heap (iota (off + 4) 6)
    ++ [byte_of_Z (type port); byte_of_Z MACH_MSG_PORT_DESCRIPTOR].

(** The descriptor loop of [spc_serialize]; [off] is [ptr - mach_msg]. *)
Fixpoint write_descriptors (heap : Z -> byte) (off : Z)
  (ports : list spc_port_t) : list byte :=
  match ports with
  | [] => []
  | port :: ports' =>
      port_descriptor heap off port
        ++ write_descriptors heap (off + sizeof_mach_msg_port_descriptor_t)
             ports'
  end.

Section Envelope.
Context `{spc_types}.

(** [spc_serialize].  [heap] is the content of the block that
    [malloc(actual_size)] returns: the serializer leaves the padding
    of the descriptors as it finds it. *)
Definition spc_serialize (heap : Z -> byte) (msg : spc_message_t)
  : spc_mach_message_t :=
  let initial_size := num_items (content msg) * 32 in
  let writer := {| w_buf := []; w_end := initial_size; w_ports := [] |} in
  let '(_, writer) := spc_write writer magic in
  let '(_, writer) := spc_write_uint32 writer SPC_TYPE_DICT in
  let '(_, writer) := spc_write_dict writer (content msg) in
  let content_size := w_ptr writer in
  let num_ports := Z.of_nat (length (w_ports writer)) in
  let '(actual_size, bits, descriptors) :=
    if negb (num_ports =? 0) then
      (sizeof_mach_msg_header_t + sizeof_mach_msg_body_t
         + num_ports * sizeof_mach_msg_port_descriptor_t + content_size,
       MACH_MSGH_BITS_COMPLEX,
       le_bytes 4 num_ports
         ++ write_descriptors heap
              (sizeof_mach_msg_header_t + sizeof_mach_msg_body_t)
              (w_ports writer))
    else
      (sizeof_mach_msg_header_t + content_size, 0, [])
  in
  {| header :=
       {| msgh_bits :=
            u32 (Z.lor bits (MACH_MSGH_BITS (type (remote_port msg))
                                            (type (local_port msg))));
          msgh_size := u32 actual_size;
          msgh_remote_port := u32 (name (remote_port msg));
          msgh_local_port := u32 (name (local_port msg));
          msgh_id := id msg |};
     buf := descriptors ++ w_buf writer |}.
End Envelope.

(* ================================================================== *)
(** * The reader *)

(** How a call of the decoder ends. *)
Inductive outcome (A : Type) : Type :=
| Returned (a : A)      (** the call returns [a] to its caller *)
| Aborted               (** [abort()]: the process is terminated *)
| Exited (status : Z)   (** [exit(status)]: the process is terminated *)
| NullDeref             (** NULL handed to [strdup]: undefined behaviour *)
| OutOfFuel.            (** the model ran out of fuel (never the code) *)

Arguments Aborted {A}.
Arguments Exited {A} status.
Arguments NullDeref {A}.
Arguments OutOfFuel {A}.

Definition bind {A B : Type} (c : outcome A) (k : A -> outcome B)
  : outcome B :=
  match c with
  | Returned a => k a
  | Aborted => Aborted
  | Exited s => Exited s
  | NullDeref => NullDeref
  | OutOfFuel => OutOfFuel
  end.

Notation "x <- c ;; k" := (bind c (fun x => k))
  (at level 61, c at next level, right associativity).
Notation "' p <- c ;; k" := (bind c (fun x => let 'p := x in k))
  (at level 61, p pattern, c at next level, right associativity).

(** [reader_t].  [r_mem] is the memory at [mach_msg->buf]; [r_ptr] and
    [r_end] are [ptr] and [end] as offsets from there; [r_ports] is the
    array [ports] of [num_ports] entries. *)
Record reader_t := {
  r_mem : list byte;
  r_end : Z;
  r_ptr : Z;
  next_port : Z;
  r_ports : list spc_port_t
}.

Definition advance (reader : reader_t) (len : Z) : reader_t :=
  {| r_mem := r_mem reader;
     r_end := r_end reader;
     r_ptr := r_ptr reader + len;
     next_port := next_port reader;
     r_ports := r_ports reader |}.

(** [spc_read]: the result is the [len] bytes behind the returned
    pointer. *)
Definition spc_read (reader : reader_t) (len : Z)
  : outcome (list byte * reader_t) :=
  if r_ptr reader + len >? r_end reader then Aborted
  else
    let res := slice (r_mem reader) (r_ptr reader) len in
    Returned (res, advance reader len).

Definition spc_read_uint64 (reader : reader_t) : outcome (Z * reader_t) :=
  '(res, reader) <- spc_read reader 8 ;;
  Returned (le_value res, reader).

Definition spc_read_int64 (reader : reader_t) : outcome (Z * reader_t) :=
  '(res, reader) <- spc_read reader 8 ;;
  Returned (to_int64 (le_value res), reader).

Definition spc_read_double (reader : reader_t) : outcome (Z * reader_t) :=
  '(res, reader) <- spc_read reader 8 ;;
  Returned (le_value res, reader).

Definition spc_read_uint32 (reader : reader_t) : outcome (Z * reader_t) :=
  '(res, reader) <- spc_read reader 4 ;;
  Returned (le_value res, reader).

Definition spc_read_padded (reader : reader_t) (size : Z)
  : outcome (list byte * reader_t) :=
  let remainder := (4 - (size mod 4)) mod 4 in
  spc_read reader (size + remainder).

(** [spc_read_str]: [None] is the NULL it returns when no NUL byte
    stands before [end].  (The cursor is never behind [end] here: every
    call follows an [spc_read] that returned.) *)
Definition spc_read_str (reader : reader_t)
  : outcome (option (list byte) * reader_t) :=
  match memchr0 (slice (r_mem reader) (r_ptr reader)
                   (r_end reader - r_ptr reader)) with
  | None => Returned (None, reader)
  | Some k =>
      '(res, reader) <- spc_read_padded reader (k + 1) ;;
      Returned (Some res, reader)
  end.

Definition strdup (s : option (list byte)) : outcome (list byte) :=
  match s with
  | None => NullDeref
  | Some bytes => Returned (cstr bytes)
  end.

Definition spc_reader_next_port (reader : reader_t) : spc_port_t * reader_t :=
  if next_port reader >=? Z.of_nat (length (r_ports reader)) then
    (SPC_NULL_PORT, reader)
  else
    let reader :=
      {| r_mem := r_mem reader;
         r_end := r_end reader;
         r_ptr := r_ptr reader;
         next_port := next_port reader + 1;
         r_ports := r_ports reader |} in
    (nth (Z.to_nat (next_port reader - 1)) (r_ports reader) SPC_NULL_PORT,
     reader).

(* ================================================================== *)
(** * The deserializer *)

(** The container readers, over the value deserializer.  The loops run
    as long as [i < length], a count read from the message, so they are
    written with fuel. *)
Section ContainerReaders.
Variable deserialize_value : reader_t -> outcome (spc_value_t * reader_t).

(** The [for] loop of [spc_deserialize_array]. *)
Fixpoint read_array_values (fuel : nat) (i length : Z) (array : spc_array_t)
  (reader : reader_t) : outcome (spc_array_t * reader_t) :=
  match fuel with
  | O => OutOfFuel
  | S fuel' =>
      if i <? length then
        '(value, reader) <- deserialize_value reader ;;
        let array := spc_array_set_value array i value in
        read_array_values fuel' (i + 1) length array reader
      else Returned (array, reader)
  end.

Definition deserialize_array_with (fuel : nat) (reader : reader_t)
  : outcome (spc_array_t * reader_t) :=
  let array := spc_array_create in
  '(_, reader) <- spc_read_uint32 reader ;;
  '(length, reader) <- spc_read_uint32 reader ;;
  read_array_values fuel 0 length array reader.

(** The [for] loop of [spc_deserialize_dict]: every item becomes the
    new head of the list. *)
Fixpoint read_dict_items (fuel : nat) (i : Z) (dict : spc_dictionary_t)
  (reader : reader_t) : outcome (spc_dictionary_t * reader_t) :=
  match fuel with
  | O => OutOfFuel
  | S fuel' =>
      if i <? num_items dict then
        '(str, reader) <- spc_read_str reader ;;
        k <- strdup str ;;
        '(v, reader) <- deserialize_value reader ;;
        let item := {| key := k; value := v |} in
        let dict := {| num_items := num_items dict;
                       items := item :: items dict |} in
        read_dict_items fuel' (i + 1) dict reader
      else Returned (dict, reader)
  end.

Definition deserialize_dict_with (fuel : nat) (reader : reader_t)
  : outcome (spc_dictionary_t * reader_t) :=
  let dict := spc_dictionary_create in
  '(_, reader) <- spc_read_uint32 reader ;;
  '(n, reader) <- spc_read_uint32 reader ;;
  let dict := {| num_items := n; items := items dict |} in
  read_dict_items fuel 0 dict reader.
End ContainerReaders.

Definition MSGID_CONNECTION_INTERRUPTED : Z := 71.

(** The string literals ["error"] and ["Connection interrupted"]. *)
Definition str_error : list byte := [x65; x72; x72; x6f; x72].
Definition str_connection_interrupted : list byte :=
  [x43; x6f; x6e; x6e; x65; x63; x74; x69; x6f; x6e; x20;
   x69; x6e; x74; x65; x72; x72; x75; x70; x74; x65; x64].

Section Deserializer.
Context `{spc_types}.

Fixpoint spc_deserialize_value (fuel : nat) (reader : reader_t)
  : outcome (spc_value_t * reader_t) :=
  match fuel with
  | O => OutOfFuel
  | S fuel' =>
      '(type, reader) <- spc_read_uint32 reader ;;
      if type =? SPC_TYPE_NULL then Returned (SPC_NULL, reader)
      else if type =? SPC_TYPE_BOOL then
        '(u64, reader) <- spc_read_uint32 reader ;;
        Returned (SPC_BOOL u64, reader)
      else if type =? SPC_TYPE_UINT64 then
        '(u64, reader) <- spc_read_uint64 reader ;;
        Returned (SPC_UINT64 u64, reader)
      else if type =? SPC_TYPE_INT64 then
        '(i64, reader) <- spc_read_int64 reader ;;
        Returned (SPC_INT64 i64, reader)
      else if type =? SPC_TYPE_DOUBLE then
        '(dbl, reader) <- spc_read_double reader ;;
        Returned (SPC_DOUBLE dbl, reader)
      else if type =? SPC_TYPE_STRING then
        '(_, reader) <- spc_read_uint32 reader ;;
        '(s, reader) <- spc_read_str reader ;;
        str <- strdup s ;;
        Returned (SPC_STRING str, reader)
      else if type =? SPC_TYPE_ARRAY then
        '(array, reader) <-
          deserialize_array_with (spc_deserialize_value fuel') fuel' reader ;;
        Returned (SPC_ARRAY array, reader)
      else if type =? SPC_TYPE_DICT then
        '(dict, reader) <-
          deserialize_dict_with (spc_deserialize_value fuel') fuel' reader ;;
        Returned (SPC_DICT dict, reader)
      else if type =? SPC_TYPE_SEND_PORT then
        let '(port, reader) := spc_reader_next_port reader in
        Returned (SPC_SEND_PORT port, reader)
      else if type =? SPC_TYPE_RECV_PORT then
        let '(port, reader) := spc_reader_next_port reader in
        Returned (SPC_RECV_PORT port, reader)
      else if type =? SPC_TYPE_UUID then
        '(res, reader) <- spc_read reader 0x10 ;;
        Returned (SPC_UUID (le_value res), reader)
      else if type =? SPC_TYPE_DATA then
        '(size, reader) <- spc_read_uint32 reader ;;
        '(res, reader) <- spc_read_padded reader size ;;
        Returned (SPC_DATA (firstn (Z.to_nat size) res), reader)
      else
        Exited (-1)
  end.

Definition spc_deserialize_array (fuel : nat)
  : reader_t -> outcome (spc_array_t * reader_t) :=
  deserialize_array_with (spc_deserialize_value fuel) fuel.

Definition spc_deserialize_dict (fuel : nat)
  : reader_t -> outcome (spc_dictionary_t * reader_t) :=
  deserialize_dict_with (spc_deserialize_value fuel) fuel.

(** Fuel that suffices for every reader state: a value record takes at
    least four bytes. *)
Definition fuel_for (reader : reader_t) : nat :=
  S (Z.to_nat (r_end reader - r_ptr reader)).

(** The descriptor loop of [spc_deserialize].  The descriptor type is
    read through [reader.ptr] before any bounds check; memory that the
    model does not hold reads as zero. *)
Fixpoint read_descriptors (fuel : nat) (i count : Z) (reader : reader_t)
  : outcome reader_t :=
  match fuel with
  | O => OutOfFuel
  | S fuel' =>
      if i <? count then
        let type :=
          Z_of_byte (nth (Z.to_nat (r_ptr reader + 11)) (r_mem reader) x00) in
        if type =? MACH_MSG_PORT_DESCRIPTOR then
          '(descriptor, reader) <-
            spc_read reader sizeof_mach_msg_port_descriptor_t ;;
          let port :=
            {| name := le_value (firstn 4 descriptor);
               type := Z_of_byte (nth 10 descriptor x00) |} in
          let reader :=
            {| r_mem := r_mem reader;
               r_end := r_end reader;
               r_ptr := r_ptr reader;
               next_port := next_port reader;
               r_ports := r_ports reader ++ [port] |} in
          read_descriptors fuel' (i + 1) count reader
        else if type =? MACH_MSG_OOL_DESCRIPTOR then
          '(_, reader) <- spc_read reader sizeof_mach_msg_ool_descriptor_t ;;
          read_descriptors fuel' (i + 1) count reader
        else if type =? MACH_MSG_OOL_PORTS_DESCRIPTOR then
          '(_, reader) <-
            spc_read reader sizeof_mach_msg_ool_ports_descriptor_t ;;
          read_descriptors fuel' (i + 1) count reader
        else
          Exited (-1)
      else Returned reader
  end.

(** [spc_deserialize]; [Returned None] is the NULL it returns. *)
Definition spc_deserialize (mach_msg : spc_mach_message_t)
  : outcome (option spc_message_t) :=
  let reader :=
    {| r_mem := buf mach_msg;
       r_end := msgh_size (header mach_msg) - sizeof_mach_msg_header_t;
       r_ptr := 0;
       next_port := 0;
       r_ports := [] |} in
  if msgh_id (header mach_msg) =? MSGID_CONNECTION_INTERRUPTED then
    let dict := spc_dictionary_create in
    let dict :=
      spc_dictionary_set_string dict
        str_error str_connection_interrupted in
    Exited (-1)
  else
    reader <-
      (if negb (Z.land (msgh_bits (header mach_msg)) MACH_MSGH_BITS_COMPLEX
                  =? 0)
       then
         '(body, reader) <- spc_read reader sizeof_mach_msg_body_t ;;
         let msgh_descriptor_count := le_value body in
         read_descriptors (fuel_for reader) 0 msgh_descriptor_count reader
       else Returned reader) ;;
    '(prefix, reader) <- spc_read reader 8 ;;
    if negb (if list_eq_dec Byte.byte_eq_dec prefix magic
             then true else false)
    then Returned None
    else
      '(value, reader) <- spc_deserialize_value (fuel_for reader) reader ;;
      match value with
      | SPC_DICT dict =>
          Returned
            (Some
               {| remote_port :=
                    {| name := msgh_remote_port (header mach_msg);
                       type := MACH_MSGH_BITS_REMOTE
                                 (msgh_bits (header mach_msg)) |};
                  local_port :=
                    {| name := msgh_remote_port (header mach_msg);
                       type := MACH_MSGH_BITS_LOCAL
                                 (msgh_bits (header mach_msg)) |};
                  id := msgh_id (header mach_msg);
                  content := dict |})
      | _ => Returned None
      end.
End Deserializer.

(* ================================================================== *)
(** * The vocabulary of the statements

    The wire grammar, the relations between the states of the writer and
    of the reader, the well-formed values and the sample inputs that the
    statements below are written with. *)

(** ** Strings and padding *)

(** A byte list that holds no NUL. *)
Definition nul_free (s : list byte) : bool :=
  forallb (fun b => negb (Byte.eqb b x00)) s.

Definition remainder_of (len : Z) : Z := (4 - (len mod 4)) mod 4.

(** ** The wire format, as the specification writes it

    [wire_value] is the grammar of the specification (section 6):
    a value record is its tag and its payload; a container body is its
    byte size, its count and its elements; padded fields are followed
    by 0 to 3 NUL bytes.  It is compared below with what the writer
    produces. *)

Definition padding (len : Z) : list byte :=
  repeat x00 (Z.to_nat (remainder_of len)).

Definition padded (bytes : list byte) : list byte :=
  bytes ++ padding (Z.of_nat (length bytes)).

Definition padded_cstr (s : list byte) : list byte :=
  padded (cstr s ++ [x00]).

Definition container_body (payload : list byte) : list byte :=
  le_bytes 4 (Z.of_nat (length payload)) ++ payload.

Section Wire.
Context `{spc_types}.

Fixpoint wire_value (v : spc_value_t) : list byte :=
  le_bytes 4 (value_type v) ++
  match v with
  | SPC_NULL => []
  | SPC_BOOL u => le_bytes 4 u
  | SPC_UINT64 u => le_bytes 8 u
  | SPC_INT64 i => le_bytes 8 i
  | SPC_DOUBLE d => le_bytes 8 d
  | SPC_STRING s => le_bytes 4 (strlen s + 1) ++ padded_cstr s
  | SPC_ARRAY a =>
      container_body
        (le_bytes 4 (Z.of_nat (length a)) ++ flat_map wire_value a)
  | SPC_DICT d =>
      container_body
        (le_bytes 4 (num_items d)
           ++ flat_map (fun it => padded_cstr (key it) ++ wire_value (value it))
                (items d))
  | SPC_FD _ | SPC_SEND_PORT _ | SPC_RECV_PORT _ => []
  | SPC_UUID u => le_bytes 16 u
  | SPC_DATA d => le_bytes 4 (Z.of_nat (length d)) ++ padded d
  | SPC_UNSUPPORTED _ => []
  end.

Definition wire_array_payload (a : spc_array_t) : list byte :=
  le_bytes 4 (Z.of_nat (length a)) ++ flat_map wire_value a.

Definition wire_item (it : spc_dictionary_item_t) : list byte :=
  padded_cstr (key it) ++ wire_value (value it).

Definition wire_dict_payload (d : spc_dictionary_t) : list byte :=
  le_bytes 4 (num_items d) ++ flat_map wire_item (items d).
End Wire.

(** The ports of the port-typed values of [v], in a pre-order walk
    (arrays by index, dictionaries along their list). *)
Fixpoint value_ports (v : spc_value_t) : list spc_port_t :=
  match v with
  | SPC_FD p | SPC_SEND_PORT p | SPC_RECV_PORT p => [p]
  | SPC_ARRAY a => flat_map value_ports a
  | SPC_DICT d => flat_map (fun it => value_ports (value it)) (items d)
  | _ => []
  end.

Definition dict_ports (d : spc_dictionary_t) : list spc_port_t :=
  flat_map (fun it => value_ports (value it)) (items d).

(** ** States of the writer *)

(** [appended w bytes ports w']: [w'] is [w] with [bytes] written at the
    cursor and [ports] collected. *)
Definition appended (w : writer_t) (bytes : list byte)
  (ports : list spc_port_t) (w' : writer_t) : Prop :=
  w_buf w' = w_buf w ++ bytes /\ w_ports w' = w_ports w ++ ports.

(** [ser_ok ser wire vports v]: on [v], the serializer [ser] appends
    the bytes [wire v], collects the ports [vports v] and returns the
    count of these bytes. *)
Definition ser_ok (ser : writer_t -> spc_value_t -> Z * writer_t)
  (wire : spc_value_t -> list byte) (vports : spc_value_t -> list spc_port_t)
  (v : spc_value_t) : Prop :=
  forall w,
    fst (ser w v) = Z.of_nat (length (wire v))
    /\ appended w (wire v) (vports v) (snd (ser w v)).

(** A container as its writer takes it: an array or a dictionary. *)
Inductive container : Type :=
| Array (a : spc_array_t)
| Dict (d : spc_dictionary_t).

Definition write_container `{spc_types} (w : writer_t) (c : container)
  : Z * writer_t :=
  match c with
  | Array a => spc_write_array w a
  | Dict d => spc_write_dict w d
  end.

(** The payload of a container: the element count and the encoded
    entries (for a dictionary each with its padded key). *)
Definition container_payload `{spc_types} (c : container) : list byte :=
  match c with
  | Array a => wire_array_payload a
  | Dict d => wire_dict_payload d
  end.

(** ** States of the reader *)

(** The bytes from the cursor on. *)
Definition r_rest (r : reader_t) : list byte :=
  skipn (Z.to_nat (r_ptr r)) (r_mem r).

(** [moved r n k]: [r] after [n] bytes were read and [k] ports pulled. *)
Definition moved (r : reader_t) (n k : Z) : reader_t :=
  {| r_mem := r_mem r;
     r_end := r_end r;
     r_ptr := r_ptr r + n;
     next_port := next_port r + k;
     r_ports := r_ports r |}.

(** [at_bytes r bytes]: [bytes] stand at the cursor of [r], before
    [end]. *)
Definition at_bytes (r : reader_t) (bytes : list byte) : Prop :=
  0 <= r_ptr r
  /\ (exists post, r_rest r = bytes ++ post)
  /\ r_ptr r + Z.of_nat (length bytes) <= r_end r.

(** [at_ports r ports]: [ports] are the next ports that [r] hands out. *)
Definition at_ports (r : reader_t) (ports : list spc_port_t) : Prop :=
  0 <= next_port r
  /\ exists rest, skipn (Z.to_nat (next_port r)) (r_ports r) = ports ++ rest.

Definition holds (r : reader_t) (bytes : list byte)
  (ports : list spc_port_t) : Prop :=
  at_bytes r bytes /\ at_ports r ports.

(** ** Well-formed values and messages *)

Definition in_range (lo x hi : Z) : bool := (lo <=? x) && (x <? hi).

(** A port as a descriptor carries it: a 32-bit name and an 8-bit
    disposition. *)
Definition port_ok (p : spc_port_t) : bool :=
  in_range 0 (name p) (2 ^ 32) && in_range 0 (type p) (2 ^ 8).

(** [well_formed v]: every field of [v] holds a value of its C type
    (a BOOL fits the 32 bits that are written for it), strings hold no
    NUL, counts and sizes fit their 32-bit fields, [num_items] is the
    length of the item list, and every type is a supported one. *)
Fixpoint well_formed (v : spc_value_t) : bool :=
  match v with
  | SPC_NULL => true
  | SPC_BOOL u => in_range 0 u (2 ^ 32)
  | SPC_UINT64 u => in_range 0 u (2 ^ 64)
  | SPC_INT64 i => in_range (- 2 ^ 63) i (2 ^ 63)
  | SPC_DOUBLE d => in_range 0 d (2 ^ 64)
  | SPC_STRING s => nul_free s
  | SPC_ARRAY a =>
      (Z.of_nat (length a) <? 2 ^ 32) && forallb well_formed a
  | SPC_DICT d =>
      (num_items d =? Z.of_nat (length (items d)))
      && (num_items d <? 2 ^ 32)
      && forallb (fun it => nul_free (key it) && well_formed (value it))
           (items d)
  | SPC_FD p | SPC_SEND_PORT p | SPC_RECV_PORT p => port_ok p
  | SPC_UUID u => in_range 0 u (2 ^ 128)
  | SPC_DATA d => Z.of_nat (length d) <? 2 ^ 32
  | SPC_UNSUPPORTED _ => false
  end.

(** [fd_free v]: no value of type FD occurs in [v]. *)
Fixpoint fd_free (v : spc_value_t) : bool :=
  match v with
  | SPC_FD _ => false
  | SPC_ARRAY a => forallb fd_free a
  | SPC_DICT d => forallb (fun it => fd_free (value it)) (items d)
  | _ => true
  end.

(** [reverse_dicts v]: [v] with the item list of every dictionary in it
    reversed. *)
Fixpoint reverse_dicts (v : spc_value_t) : spc_value_t :=
  match v with
  | SPC_ARRAY a => SPC_ARRAY (map reverse_dicts a)
  | SPC_DICT d =>
      SPC_DICT
        {| num_items := num_items d;
           items :=
             rev (map (fun it => {| key := key it;
                                    value := reverse_dicts (value it) |})
                    (items d)) |}
  | _ => v
  end.

Definition reverse_item (it : spc_dictionary_item_t) : spc_dictionary_item_t :=
  {| key := key it; value := reverse_dicts (value it) |}.

Definition reverse_dict (d : spc_dictionary_t) : spc_dictionary_t :=
  {| num_items := num_items d; items := rev (map reverse_item (items d)) |}.

(** Fuel that decodes the record of [v]. *)
Fixpoint cost (v : spc_value_t) : nat :=
  match v with
  | SPC_ARRAY a => 2 + length a + list_sum (map cost a)
  | SPC_DICT d =>
      2 + length (items d) + list_sum (map (fun it => cost (value it)) (items d))
  | _ => 1
  end.

(** [distinct a b] is [a <> b], kept out of the sight of [lia]. *)
Definition distinct (a b : Z) : Prop := a <> b.

(** [dv_ok dv wire v]: at the record [wire v], the value decoder [dv]
    returns [v] with its dictionaries reversed, and has read the record
    and pulled the ports of [v]. *)
Definition dv_ok (dv : reader_t -> outcome (spc_value_t * reader_t))
  (wire : spc_value_t -> list byte) (v : spc_value_t) : Prop :=
  forall r b2 p2,
    holds r (wire v ++ b2) (value_ports v ++ p2) ->
    dv r = Returned (reverse_dicts v,
                     moved r (Z.of_nat (length (wire v)))
                       (Z.of_nat (length (value_ports v)))).

(** [decodes v]: with fuel [cost v], the decoder reads the record of [v]
    and yields [v] with its dictionaries reversed. *)
Definition decodes `{spc_types} (v : spc_value_t) : Prop :=
  well_formed v = true -> fd_free v = true ->
  forall fuel, (cost v <= fuel)%nat ->
    dv_ok (spc_deserialize_value fuel) wire_value v.

(** ** Encoded messages *)

(** The inline bytes of a message: the prefix and the root record. *)
Definition wire_inline `{spc_types} (msg : spc_message_t) : list byte :=
  magic ++ wire_value (SPC_DICT (content msg)).

(** The body and the descriptors of a message, if it has ports. *)
Definition wire_descriptors (heap : Z -> byte) (ports : list spc_port_t)
  : list byte :=
  match ports with
  | [] => []
  | _ :: _ =>
      le_bytes 4 (Z.of_nat (length ports))
        ++ write_descriptors heap
             (sizeof_mach_msg_header_t + sizeof_mach_msg_body_t) ports
  end.

(** The size of the encoded message, header included. *)
Definition wire_size `{spc_types} (msg : spc_message_t) : Z :=
  let ports := dict_ports (content msg) in
  sizeof_mach_msg_header_t
  + match ports with
    | [] => 0
    | _ :: _ =>
        sizeof_mach_msg_body_t
        + Z.of_nat (length ports) * sizeof_mach_msg_port_descriptor_t
    end
  + Z.of_nat (length (wire_inline msg)).

(** The header bits of every pair of dispositions, packed with the
    flag [complex] and unpacked again. *)
Definition header_bits_check (complex : Z) : bool :=
  forallb
    (fun remote =>
       forallb
         (fun local =>
            let bits := u32 (Z.lor complex (MACH_MSGH_BITS remote local)) in
            (Z.land bits MACH_MSGH_BITS_COMPLEX =? complex)
            && (MACH_MSGH_BITS_REMOTE bits =? remote)
            && (MACH_MSGH_BITS_LOCAL bits =? local))
         (iota 0 32))
    (iota 0 32).

(** A port of the message header: a 32-bit name and a disposition that
    fits its five bits of [msgh_bits]. *)
Definition header_port_ok (p : spc_port_t) : bool :=
  in_range 0 (name p) (2 ^ 32) && in_range 0 (type p) 32.

(** [well_formed_message msg]: the ports fit the header, the id is not
    the one that [spc_deserialize] intercepts, the content is
    well-formed, and the encoded message fits the 32 bits of
    [msgh_size]. *)
Definition well_formed_message `{spc_types} (msg : spc_message_t) : bool :=
  header_port_ok (remote_port msg)
  && header_port_ok (local_port msg)
  && negb (id msg =? MSGID_CONNECTION_INTERRUPTED)
  && well_formed (SPC_DICT (content msg))
  && (wire_size msg <? 2 ^ 32).

(** What [spc_deserialize] returns for the message that [spc_serialize]
    makes of [msg]. *)
Definition decoded_message (msg : spc_message_t) : spc_message_t :=
  {| remote_port := remote_port msg;
     local_port := {| name := name (remote_port msg);
                      type := type (local_port msg) |};
     id := id msg;
     content := reverse_dict (content msg) |}.

(** ** Messages that were cut short *)

(** The bytes left between the cursor and [end]. *)
Definition avail (r : reader_t) : Z := r_end r - r_ptr r.

(** [cut_at r w]: the bytes [w] were to stand at the cursor of [r], but
    [end] comes before their end; up to [end], the memory holds the
    bytes of [w]. *)
Definition cut_at (r : reader_t) (w : list byte) : Prop :=
  0 <= r_ptr r
  /\ 0 <= avail r < Z.of_nat (length w)
  /\ firstn (Z.to_nat (avail r)) (r_rest r) = firstn (Z.to_nat (avail r)) w.

(** A call that ends in [abort()] or in the NULL dereference. *)
Definition fails {A : Type} (o : outcome A) : Prop :=
  o = Aborted \/ o = NullDeref.

(** A call that does not return: the process is terminated by
    [abort()] or [exit(-1)], or it dereferences NULL. *)
Definition crashes {A : Type} (o : outcome A) : Prop :=
  o = Aborted \/ o = NullDeref \/ o = Exited (-1).

(** [dv_cut dv wire v]: the value decoder [dv] fails on the record of
    [v] cut short. *)
Definition dv_cut (dv : reader_t -> outcome (spc_value_t * reader_t))
  (wire : spc_value_t -> list byte) (v : spc_value_t) : Prop :=
  forall r p2,
    cut_at r (wire v) -> at_ports r (value_ports v ++ p2) -> fails (dv r).

(** [cut_fails v]: the decoder fails on the record of [v] cut short. *)
Definition cut_fails `{spc_types} (v : spc_value_t) : Prop :=
  well_formed v = true -> fd_free v = true ->
  forall fuel, (cost v <= fuel)%nat ->
    dv_cut (spc_deserialize_value fuel) wire_value v.

(** [truncated k junk m]: the message [m] with its last [k] bytes
    dropped, in a receive buffer that holds [junk] behind it. *)
Definition truncated (k : Z) (junk : list byte) (m : spc_mach_message_t)
  : spc_mach_message_t :=
  {| header :=
       {| msgh_bits := msgh_bits (header m);
          msgh_size := msgh_size (header m) - k;
          msgh_remote_port := msgh_remote_port (header m);
          msgh_local_port := msgh_local_port (header m);
          msgh_id := msgh_id (header m) |};
     buf :=
       firstn (Z.to_nat (msgh_size (header m) - k - sizeof_mach_msg_header_t))
         (buf m)
       ++ junk |}.

(** [after r r' n]: [r'] is [r] with the cursor at least [n] bytes
    further, and not behind [end]. *)
Definition after (r r' : reader_t) (n : Z) : Prop :=
  r_end r' = r_end r /\ r_ptr r + n <= r_ptr r' /\ r_ptr r' <= r_end r'.

(** ** Sample inputs *)

(** A writer with an empty buffer of capacity 32. *)
Definition fresh_writer : writer_t :=
  {| w_buf := []; w_end := 32; w_ports := [] |}.

(** The array [[NULL, "v", DATA 01 02 03 04 05]]. *)
Definition sample_array : spc_array_t :=
  [SPC_NULL; SPC_STRING [x76]; SPC_DATA [x01; x02; x03; x04; x05]].

(** The array that holds two data blobs of 2^31 zero bytes each. *)
Definition huge_array : spc_array_t :=
  [SPC_DATA (repeat x00 (Z.to_nat (2 ^ 31)));
   SPC_DATA (repeat x00 (Z.to_nat (2 ^ 31)))].

(** A fresh allocation that holds zeros. *)
Definition zero_heap : Z -> byte := fun _ => x00.

Definition item (k : list byte) (v : spc_value_t) : spc_dictionary_item_t :=
  {| key := k; value := v |}.

(** The message [{"a": true, "b": false}], no ports. *)
Definition two_items_message : spc_message_t :=
  {| remote_port := {| name := 0x103; type := 19 |};
     local_port := {| name := 0x207; type := 21 |};
     id := 5;
     content :=
       {| num_items := 2;
          items := [item [x61] (SPC_BOOL 1); item [x62] (SPC_BOOL 0)] |} |}.

(** A message with every kind of value but FD, nested containers and
    two ports. *)
Definition sample_message : spc_message_t :=
  {| remote_port := {| name := 0x103; type := 19 |};
     local_port := {| name := 0x207; type := 21 |};
     id := 5;
     content :=
       {| num_items := 3;
          items :=
            [ item [x6b] (SPC_STRING [x76]);
              item [x70] (SPC_SEND_PORT {| name := 0xdeadbeef; type := 17 |});
              item [x61; x72; x72]
                (SPC_ARRAY
                   [ SPC_NULL;
                     SPC_DATA [x01; x02; x03; x04; x05];
                     SPC_INT64 (-2);
                     SPC_UINT64 0x0102030405060708;
                     SPC_DOUBLE 0x3ff8000000000000;
                     SPC_UUID 0x000102030405060708090a0b0c0d0e0f;
                     SPC_RECV_PORT {| name := 7; type := 16 |};
                     SPC_DICT
                       {| num_items := 2;
                          items := [item [x78] SPC_NULL;
                                    item [x79] (SPC_BOOL 1)] |} ]) ] |} |}.

(** The message [{"p": FD port}]. *)
Definition fd_message : spc_message_t :=
  {| remote_port := {| name := 0x103; type := 19 |};
     local_port := {| name := 0x207; type := 21 |};
     id := 5;
     content :=
       {| num_items := 1;
          items := [item [x70] (SPC_FD {| name := 0x1403; type := 17 |})] |} |}.

(** The empty dictionary in its envelope, as the specification shows it
    (with the tag of this table), in a message without descriptors whose
    header names two different ports. *)
Definition empty_dict_wire (msgid : Z) : spc_mach_message_t :=
  {| header := {| msgh_bits := MACH_MSGH_BITS 19 21;
                  msgh_size := 44;
                  msgh_remote_port := 0x103;
                  msgh_local_port := 0x207;
                  msgh_id := msgid |};
     buf := magic ++ [x00; xf0; x00; x00;  x04; x00; x00; x00;
                      x00; x00; x00; x00] |}.

(** A reader at a record that is its type tag alone. *)
Definition tag_reader (tag : Z) (ports : list spc_port_t) : reader_t :=
  {| r_mem := le_bytes 4 tag;
     r_end := 4;
     r_ptr := 0;
     next_port := 0;
     r_ports := ports |}.

(** The message [{"k": "v"}], no ports. *)
Definition kv_message : spc_message_t :=
  {| remote_port := {| name := 0x103; type := 19 |};
     local_port := {| name := 0x207; type := 21 |};
     id := 0;
     content :=
       {| num_items := 1; items := [item [x6b] (SPC_STRING [x76])] |} |}.

(** The message with the empty dictionary, no ports. *)
Definition empty_message : spc_message_t :=
  {| remote_port := {| name := 0x103; type := 19 |};
     local_port := {| name := 0x207; type := 21 |};
     id := 0;
     content := {| num_items := 0; items := [] |} |}.

(** The message [{"p": SEND_PORT port}]. *)
Definition port_message : spc_message_t :=
  {| remote_port := {| name := 0x103; type := 19 |};
     local_port := {| name := 0x207; type := 21 |};
     id := 0;
     content :=
       {| num_items := 1;
          items := [item [x70]
                      (SPC_SEND_PORT {| name := 0xdeadbeef; type := 17 |})] |} |}.

(** A message of 44 bytes whose inline bytes are all zero. *)
Definition zero_wire : spc_mach_message_t :=
  {| header := header (empty_dict_wire 0); buf := repeat x00 20 |}.

(** ** Reading back what the writer wrote *)

(** [read_back w w']: a reader over the buffer and the ports of the
    writer [w'], which stands where the writer [w] stood: the cursor at
    the cursor of [w], the next port the first one that [w] had not
    collected, [end] at the cursor of [w']. *)
Definition read_back (w w' : writer_t) : reader_t :=
  {| r_mem := w_buf w';
     r_end := w_ptr w';
     r_ptr := w_ptr w;
     next_port := Z.of_nat (length (w_ports w));
     r_ports := w_ports w' |}.

(** [in_capacity w]: the cursor of [w] is not behind the end of its
    allocation. *)
Definition in_capacity (w : writer_t) : Prop := w_ptr w <= w_end w.

(** ** Records with a size field of any value *)

(** [wire_value_sized size v]: the record of [v] with [size] in the
    place of the length field of a string or of the byte size of a
    container; the record of [v] itself for every other value. *)
Definition wire_value_sized `{spc_types} (size : Z) (v : spc_value_t)
  : list byte :=
  match v with
  | SPC_STRING s =>
      le_bytes 4 SPC_TYPE_STRING ++ le_bytes 4 size ++ padded_cstr s
  | SPC_ARRAY a =>
      le_bytes 4 SPC_TYPE_ARRAY ++ le_bytes 4 size ++ wire_array_payload a
  | SPC_DICT d =>
      le_bytes 4 SPC_TYPE_DICT ++ le_bytes 4 size ++ wire_dict_payload d
  | _ => wire_value v
  end.

(** ** Messages as they come in *)

(** [wire_message hdr heap ports v junk]: the message with the header
    [hdr] whose payload is the descriptor count and the descriptors of
    [ports], if there are any, the prefix, the record of [v] and the
    bytes [junk]. *)
Definition wire_message `{spc_types} (hdr : mach_msg_header_t)
  (heap : Z -> byte) (ports : list spc_port_t) (v : spc_value_t)
  (junk : list byte) : spc_mach_message_t :=
  {| header := hdr;
     buf := wire_descriptors heap ports ++ magic ++ wire_value v ++ junk |}.

(** [decoded_root hdr v]: what [spc_deserialize] returns for a message
    with the header [hdr] and the root value [v]: the message with the
    content of [v], its dictionaries reversed, if [v] is a dictionary,
    and NULL if it is not. *)
Definition decoded_root (hdr : mach_msg_header_t) (v : spc_value_t)
  : option spc_message_t :=
  match reverse_dicts v with
  | SPC_DICT dict =>
      Some {| remote_port :=
                {| name := msgh_remote_port hdr;
                   type := MACH_MSGH_BITS_REMOTE (msgh_bits hdr) |};
              local_port :=
                {| name := msgh_remote_port hdr;
                   type := MACH_MSGH_BITS_LOCAL (msgh_bits hdr) |};
              id := msgh_id hdr;
              content := dict |}
  | _ => None
  end.

(** A header for a message of [size] bytes with the bits [bits]. *)
Definition sample_header (bits size : Z) : mach_msg_header_t :=
  {| msgh_bits := bits;
     msgh_size := size;
     msgh_remote_port := 0x103;
     msgh_local_port := 0x207;
     msgh_id := 5 |}.

(** ** What a decoder call leaves unchanged *)

(** [same_message r r']: [r'] reads the message that [r] reads: the
    bytes, their end and the collected ports are the same. *)
Definition same_message (r r' : reader_t) : Prop :=
  r_mem r' = r_mem r /\ r_end r' = r_end r /\ r_ports r' = r_ports r.

(** [ports_ok r]: every collected port has a 32-bit name and an 8-bit
    disposition, as a descriptor carries them. *)
Definition ports_ok (r : reader_t) : Prop :=
  Forall (fun p => port_ok p = true) (r_ports r).

(** ** Descriptors as blocks of bytes *)

(** The type of a descriptor: its twelfth byte. *)
Definition descriptor_type (block : list byte) : Z :=
  Z_of_byte (nth 11 block x00).

(** [descriptor_shaped block]: [block] has the type and the size of a
    port descriptor, of an out-of-line descriptor or of an out-of-line
    ports descriptor. *)
Definition descriptor_shaped (block : list byte) : bool :=
  if descriptor_type block =? MACH_MSG_PORT_DESCRIPTOR then
    (length block =? 12)%nat
  else if descriptor_type block =? MACH_MSG_OOL_DESCRIPTOR then
    (length block =? 16)%nat
  else if descriptor_type block =? MACH_MSG_OOL_PORTS_DESCRIPTOR then
    (length block =? 16)%nat
  else false.

(** The port that a port descriptor carries; nothing for the other
    kinds. *)
Definition descriptor_port (block : list byte) : list spc_port_t :=
  if descriptor_type block =? MACH_MSG_PORT_DESCRIPTOR then
    [{| name := le_value (firstn 4 block);
        type := Z_of_byte (nth 10 block x00) |}]
  else [].

(** A port descriptor, an out-of-line descriptor and a second port
    descriptor. *)
Definition sample_descriptors : list (list byte) :=
  [ port_descriptor zero_heap 28 {| name := 0x1403; type := 17 |};
    [x00; x10; x00; x00; x00; x00; x00; x00;
     x00; x01; x00; x01; x40; x00; x00; x00];
    port_descriptor zero_heap 56 {| name := 0x1507; type := 16 |} ].

(** ** The tags that the decoder knows *)

(** The twelve tags with a [case] in [spc_deserialize_value]. *)
Definition decoded_types `{spc_types} : list Z :=
  [ SPC_TYPE_NULL; SPC_TYPE_BOOL; SPC_TYPE_UINT64; SPC_TYPE_INT64;
    SPC_TYPE_DOUBLE; SPC_TYPE_STRING; SPC_TYPE_ARRAY; SPC_TYPE_DICT;
    SPC_TYPE_SEND_PORT; SPC_TYPE_RECV_PORT; SPC_TYPE_UUID; SPC_TYPE_DATA ].

(** ** The size of a value *)

(** [values_in v]: the number of values in [v], itself included. *)
Fixpoint values_in (v : spc_value_t) : nat :=
  match v with
  | SPC_ARRAY a => 1 + list_sum (map values_in a)
  | SPC_DICT d =>
      1 + list_sum (map (fun it => values_in (value it)) (items d))
  | _ => 1
  end.

(** ** The writer on a buffer with an end

    The writer above appends to a list, which cannot overflow.  In
    [Checked] the same functions are written over a [memcpy], a
    [memset] and a store of the byte size that are refused ([None])
    when they touch a byte outside the buffer: behind [end] for the two
    copies, behind the cursor for the store into bytes already written.
    [spc_ensure_space] and [spc_write_port] are those of the writer
    above. *)
Module Checked.

(** [memcpy(writer->ptr, bytes, len); writer->ptr += len], within
    [end]. *)
Definition put (writer : writer_t) (bytes : list byte) : option writer_t :=
  if w_ptr writer + Z.of_nat (length bytes) <=? w_end writer
  then Some (put writer bytes)
  else None.

Definition spc_write (writer : writer_t) (bytes : list byte)
  : option (Z * writer_t) :=
  let len := Z.of_nat (length bytes) in
  let writer := spc_ensure_space writer len in
  match put writer bytes with
  | Some writer => Some (len, writer)
  | None => None
  end.

Definition spc_write_padded (writer : writer_t) (bytes : list byte)
  : option (Z * writer_t) :=
  let len := Z.of_nat (length bytes) in
  let remainder := (4 - (len mod 4)) mod 4 in
  let writer := spc_ensure_space writer (len + remainder) in
  match put writer bytes with
  | Some writer =>
      match put writer (repeat x00 (Z.to_nat remainder)) with
      | Some writer => Some (len + remainder, writer)
      | None => None
      end
  | None => None
  end.

Definition spc_write_str (writer : writer_t) (str : list byte)
  : option (Z * writer_t) :=
  spc_write_padded writer (cstr str ++ [x00]).

Definition spc_write_uint32 (writer : writer_t) (val : Z)
  : option (Z * writer_t) :=
  let writer := spc_ensure_space writer 4 in
  match put writer (le_bytes 4 val) with
  | Some writer => Some (4, writer)
  | None => None
  end.

Definition spc_write_uint64 (writer : writer_t) (val : Z)
  : option (Z * writer_t) :=
  let writer := spc_ensure_space writer 8 in
  match put writer (le_bytes 8 val) with
  | Some writer => Some (8, writer)
  | None => None
  end.

Definition spc_write_int64 (writer : writer_t) (val : Z)
  : option (Z * writer_t) :=
  let writer := spc_ensure_space writer 8 in
  match put writer (le_bytes 8 val) with
  | Some writer => Some (8, writer)
  | None => None
  end.

Definition spc_write_double (writer : writer_t) (val : Z)
  : option (Z * writer_t) :=
  let writer := spc_ensure_space writer 8 in
  match put writer (le_bytes 8 val) with
  | Some writer => Some (8, writer)
  | None => None
  end.

(** [*(uint32_t* )(writer->start + offset) = val], within the bytes
    written so far. *)
Definition patch_uint32 (writer : writer_t) (offset val : Z)
  : option writer_t :=
  if (0 <=? offset) && (offset + 4 <=? w_ptr writer)
  then Some (patch_uint32 writer offset val)
  else None.

Section ContainerWriters.
Variable serialize_value : writer_t -> spc_value_t -> option (Z * writer_t).

Fixpoint write_array_values (values : list spc_value_t)
  (bytes_written : Z) (writer : writer_t) : option (Z * writer_t) :=
  match values with
  | [] => Some (bytes_written, writer)
  | v :: values' =>
      match serialize_value writer v with
      | Some (n, writer) =>
          write_array_values values' (bytes_written + n) writer
      | None => None
      end
  end.

Definition write_array_with (writer : writer_t) (array : spc_array_t)
  : option (Z * writer_t) :=
  let bytes_written := 0 in
  let bytesize_offset := w_ptr writer in
  match spc_write_uint32 writer 0 with
  | None => None
  | Some (_, writer) =>
      match spc_write_uint32 writer (Z.of_nat (length array)) with
      | None => None
      | Some (n, writer) =>
          match write_array_values array (bytes_written + n) writer with
          | None => None
          | Some (bytes_written, writer) =>
              match patch_uint32 writer bytesize_offset bytes_written with
              | None => None
              | Some writer => Some (bytes_written + 4, writer)
              end
          end
      end
  end.

Fixpoint write_dict_items (item : list spc_dictionary_item_t)
  (bytes_written : Z) (writer : writer_t) : option (Z * writer_t) :=
  match item with
  | [] => Some (bytes_written, writer)
  | it :: next =>
      match spc_write_str writer (key it) with
      | None => None
      | Some (n1, writer) =>
          match serialize_value writer (value it) with
          | None => None
          | Some (n2, writer) =>
              write_dict_items next (bytes_written + n1 + n2) writer
          end
      end
  end.

Definition write_dict_with (writer : writer_t) (dict : spc_dictionary_t)
  : option (Z * writer_t) :=
  let bytes_written := 0 in
  let bytesize_offset := w_ptr writer in
  match spc_write_uint32 writer 0 with
  | None => None
  | Some (_, writer) =>
      match spc_write_uint32 writer (num_items dict) with
      | None => None
      | Some (n, writer) =>
          match write_dict_items (items dict) (bytes_written + n) writer with
          | None => None
          | Some (bytes_written, writer) =>
              match patch_uint32 writer bytesize_offset bytes_written with
              | None => None
              | Some writer => Some (bytes_written + 4, writer)
              end
          end
      end
  end.
End ContainerWriters.

Section Serializer.
Context `{spc_types}.

Fixpoint spc_serialize_value (writer : writer_t) (value : spc_value_t)
  {struct value} : option (Z * writer_t) :=
  let bytes_written := 0 in
  match spc_write_uint32 writer (value_type value) with
  | None => None
  | Some (n, writer) =>
      let bytes_written := bytes_written + n in
      match value with
      | SPC_NULL => Some (bytes_written, writer)
      | SPC_BOOL u64 =>
          match spc_write_uint32 writer u64 with
          | None => None
          | Some (n, writer) => Some (bytes_written + n, writer)
          end
      | SPC_UINT64 u64 =>
          match spc_write_uint64 writer u64 with
          | None => None
          | Some (n, writer) => Some (bytes_written + n, writer)
          end
      | SPC_INT64 i64 =>
          match spc_write_int64 writer i64 with
          | None => None
          | Some (n, writer) => Some (bytes_written + n, writer)
          end
      | SPC_DOUBLE dbl =>
          match spc_write_double writer dbl with
          | None => None
          | Some (n, writer) => Some (bytes_written + n, writer)
          end
      | SPC_STRING str =>
          match spc_write_uint32 writer (strlen str + 1) with
          | None => None
          | Some (n1, writer) =>
              match spc_write_str writer str with
              | None => None
              | Some (n2, writer) => Some (bytes_written + n1 + n2, writer)
              end
          end
      | SPC_ARRAY array =>
          match write_array_with spc_serialize_value writer array with
          | None => None
          | Some (n, writer) => Some (bytes_written + n, writer)
          end
      | SPC_DICT dict =>
          match write_dict_with spc_serialize_value writer dict with
          | None => None
          | Some (n, writer) => Some (bytes_written + n, writer)
          end
      | SPC_FD port | SPC_SEND_PORT port | SPC_RECV_PORT port =>
          Some (bytes_written, spc_write_port writer port)
      | SPC_UUID ptr =>
          match spc_write writer (le_bytes 16 ptr) with
          | None => None
          | Some (n, writer) => Some (bytes_written + n, writer)
          end
      | SPC_DATA data =>
          match spc_write_uint32 writer (Z.of_nat (length data)) with
          | None => None
          | Some (n1, writer) =>
              match spc_write_padded writer data with
              | None => None
              | Some (n2, writer) => Some (bytes_written + n1 + n2, writer)
              end
          end
      | SPC_UNSUPPORTED _ => Some (bytes_written, writer)
      end
  end.
End Serializer.

End Checked.


(* ================================================================== *)
(** * Properties of bytes and little-endian integers *)

Lemma Z_of_byte_range (b : byte) : 0 <= Z_of_byte b < 256.
Proof.
  unfold Z_of_byte. pose proof (Byte.to_N_bounded b). lia.
Qed.

Lemma Z_of_byte_of_Z (z : Z) : Z_of_byte (byte_of_Z z) = z mod 256.
Proof.
  unfold Z_of_byte, byte_of_Z.
  assert (Hr : 0 <= z mod 256 < 256) by (apply Z.mod_pos_bound; lia).
  destruct (Byte.of_N (Z.to_N (z mod 256))) as [b|] eqn:E.
  - apply Byte.to_of_N in E. rewrite E. lia.
  - apply Byte.of_N_None_iff in E. lia.
Qed.

Lemma byte_of_Z_of_byte (b : byte) : byte_of_Z (Z_of_byte b) = b.
Proof.
  unfold byte_of_Z, Z_of_byte.
  pose proof (Byte.to_N_bounded b).
  rewrite Z.mod_small by lia.
  rewrite N2Z.id, Byte.of_to_N. reflexivity.
Qed.

Lemma byte_eqb_refl (b : byte) : Byte.eqb b b = true.
Proof. apply Byte.byte_dec_lb. reflexivity. Qed.

Lemma byte_eqb_true (a b : byte) : Byte.eqb a b = true -> a = b.
Proof. apply Byte.byte_dec_bl. Qed.

Lemma u32_small (z : Z) : 0 <= z < 2 ^ 32 -> u32 z = z.
Proof. apply Z.mod_small. Qed.

Lemma le_bytes_length (n : nat) (v : Z) : length (le_bytes n v) = n.
Proof.
  revert v. induction n as [|n IH]; intros v; simpl; [reflexivity|].
  now rewrite IH.
Qed.

Lemma le_value_range (l : list byte) :
  0 <= le_value l < 256 ^ Z.of_nat (length l).
Proof.
  induction l as [|b l IH].
  - simpl. lia.
  - cbn [le_value length]. rewrite Nat2Z.inj_succ, Z.pow_succ_r by lia.
    pose proof (Z_of_byte_range b). lia.
Qed.

Lemma le_value_le_bytes (n : nat) (v : Z) :
  le_value (le_bytes n v) = v mod 256 ^ Z.of_nat n.
Proof.
  revert v. induction n as [|n IH]; intros v.
  - simpl. now rewrite Z.mod_1_r.
  - cbn [le_bytes le_value]. rewrite IH, Z_of_byte_of_Z.
    rewrite Nat2Z.inj_succ, Z.pow_succ_r by lia.
    assert (Hp : 0 < 256 ^ Z.of_nat n) by (apply Z.pow_pos_nonneg; lia).
    rewrite Z.rem_mul_r by lia. reflexivity.
Qed.

Lemma le_value_le_bytes_small (n : nat) (v : Z) :
  0 <= v < 256 ^ Z.of_nat n -> le_value (le_bytes n v) = v.
Proof.
  intros Hv. rewrite le_value_le_bytes. now apply Z.mod_small.
Qed.

Lemma le_bytes_le_value (l : list byte) :
  le_bytes (length l) (le_value l) = l.
Proof.
  induction l as [|b l IH]; [reflexivity|].
  cbn [length le_bytes le_value].
  pose proof (Z_of_byte_range b) as Hb.
  f_equal.
  - assert (E : (Z_of_byte b + 256 * le_value l) mod 256
                 = Z_of_byte b mod 256).
    { rewrite (Z.mul_comm 256). apply Z_mod_plus_full. }
    rewrite <- (byte_of_Z_of_byte b) at 2.
    unfold byte_of_Z. now rewrite E.
  - replace ((Z_of_byte b + 256 * le_value l) / 256) with (le_value l);
      [exact IH|].
    rewrite (Z.mul_comm 256), Z.div_add by lia.
    rewrite Z.div_small by lia. reflexivity.
Qed.

Lemma le_bytes_mod (n : nat) (v : Z) :
  le_bytes n (v mod 256 ^ Z.of_nat n) = le_bytes n v.
Proof.
  rewrite <- le_value_le_bytes.
  rewrite <- (le_bytes_length n v) at 1.
  apply le_bytes_le_value.
Qed.

Lemma to_int64_le_bytes (i : Z) :
  - 2 ^ 63 <= i < 2 ^ 63 -> to_int64 (le_value (le_bytes 8 i)) = i.
Proof.
  intros Hi. rewrite le_value_le_bytes. unfold to_int64.
  change (256 ^ Z.of_nat 8) with (2 ^ 64).
  destruct (Z_lt_dec i 0) as [Hneg|Hpos].
  - replace (i mod 2 ^ 64) with (i + 2 ^ 64).
    + destruct (i + 2 ^ 64 <? 2 ^ 63) eqn:E; [apply Z.ltb_lt in E|]; lia.
    + symmetry. rewrite <- (Z_mod_plus_full i 1 (2 ^ 64)).
      apply Z.mod_small. lia.
  - rewrite Z.mod_small by lia.
    destruct (i <? 2 ^ 63) eqn:E; [reflexivity|apply Z.ltb_ge in E; lia].
Qed.

(** ** C strings *)

Lemma strlen_cstr (s : list byte) : strlen s = Z.of_nat (length (cstr s)).
Proof.
  induction s as [|b s IH]; [reflexivity|].
  cbn [strlen cstr]. destruct (Byte.eqb b x00); [reflexivity|].
  cbn [length]. lia.
Qed.

Lemma cstr_nul_free (s : list byte) : nul_free s = true -> cstr s = s.
Proof.
  induction s as [|b s IH]; [reflexivity|].
  cbn [nul_free forallb cstr]. intros Hs.
  apply andb_true_iff in Hs as [Hb Hs].
  destruct (Byte.eqb b x00); [discriminate|].
  fold (nul_free s) in Hs. now rewrite IH.
Qed.

Lemma nul_free_cstr (s : list byte) : nul_free (cstr s) = true.
Proof.
  induction s as [|b s IH]; [reflexivity|].
  cbn [cstr]. destruct (Byte.eqb b x00) eqn:E; [reflexivity|].
  cbn [nul_free forallb]. rewrite E. exact IH.
Qed.

Lemma cstr_idem (s : list byte) : cstr (cstr s) = cstr s.
Proof. apply cstr_nul_free, nul_free_cstr. Qed.

Lemma memchr0_terminated (s post : list byte) :
  nul_free s = true ->
  memchr0 (s ++ x00 :: post) = Some (Z.of_nat (length s)).
Proof.
  induction s as [|b s IH]; intros Hs.
  - reflexivity.
  - cbn [nul_free forallb] in Hs. apply andb_true_iff in Hs as [Hb Hs].
    cbn [app memchr0 length].
    destruct (Byte.eqb b x00); [discriminate|].
    rewrite (IH Hs). f_equal. lia.
Qed.

Lemma memchr0_nul_free (s : list byte) :
  nul_free s = true -> memchr0 s = None.
Proof.
  induction s as [|b s IH]; intros Hs; [reflexivity|].
  cbn [nul_free forallb] in Hs. apply andb_true_iff in Hs as [Hb Hs].
  cbn [memchr0]. destruct (Byte.eqb b x00); [discriminate|].
  now rewrite (IH Hs).
Qed.

Lemma cstr_terminated (s post : list byte) :
  nul_free s = true -> cstr (s ++ x00 :: post) = s.
Proof.
  induction s as [|b s IH]; intros Hs.
  - reflexivity.
  - cbn [nul_free forallb] in Hs. apply andb_true_iff in Hs as [Hb Hs].
    cbn [app cstr]. destruct (Byte.eqb b x00); [discriminate|].
    now rewrite (IH Hs).
Qed.

(** ** Padding *)

Lemma remainder_of_range (len : Z) : 0 <= remainder_of len < 4.
Proof. unfold remainder_of. apply Z.mod_pos_bound. lia. Qed.

Lemma remainder_of_aligned (len : Z) : (len + remainder_of len) mod 4 = 0.
Proof.
  unfold remainder_of.
  rewrite Z.add_mod_idemp_r by lia.
  replace (len + (4 - len mod 4)) with (len - len mod 4 + 1 * 4) by lia.
  rewrite Z_mod_plus_full, Zminus_mod_idemp_r, Z.sub_diag. reflexivity.
Qed.

(* ================================================================== *)
(** * Induction over values *)

Section ValueInduction.
Variable P : spc_value_t -> Prop.
Hypothesis P_null : P SPC_NULL.
Hypothesis P_bool : forall u, P (SPC_BOOL u).
Hypothesis P_uint64 : forall u, P (SPC_UINT64 u).
Hypothesis P_int64 : forall i, P (SPC_INT64 i).
Hypothesis P_double : forall d, P (SPC_DOUBLE d).
Hypothesis P_string : forall s, P (SPC_STRING s).
Hypothesis P_array : forall a, Forall P a -> P (SPC_ARRAY a).
Hypothesis P_dict :
  forall d, Forall (fun it => P (value it)) (items d) -> P (SPC_DICT d).
Hypothesis P_fd : forall p, P (SPC_FD p).
Hypothesis P_send_port : forall p, P (SPC_SEND_PORT p).
Hypothesis P_recv_port : forall p, P (SPC_RECV_PORT p).
Hypothesis P_uuid : forall u, P (SPC_UUID u).
Hypothesis P_data : forall d, P (SPC_DATA d).
Hypothesis P_unsupported : forall t, P (SPC_UNSUPPORTED t).

Fixpoint spc_value_induction (v : spc_value_t) : P v :=
  match v with
  | SPC_NULL => P_null
  | SPC_BOOL u => P_bool u
  | SPC_UINT64 u => P_uint64 u
  | SPC_INT64 i => P_int64 i
  | SPC_DOUBLE d => P_double d
  | SPC_STRING s => P_string s
  | SPC_ARRAY a =>
      P_array
        ((fix all (l : list spc_value_t) : Forall P l :=
            match l with
            | [] => Forall_nil P
            | x :: l' => Forall_cons x (spc_value_induction x) (all l')
            end) a)
  | SPC_DICT d =>
      P_dict d
        ((fix all (l : list spc_dictionary_item_t)
            : Forall (fun it => P (value it)) l :=
            match l with
            | [] => Forall_nil _
            | it :: l' =>
                Forall_cons it (spc_value_induction (value it)) (all l')
            end) (items d))
  | SPC_FD p => P_fd p
  | SPC_SEND_PORT p => P_send_port p
  | SPC_RECV_PORT p => P_recv_port p
  | SPC_UUID u => P_uuid u
  | SPC_DATA d => P_data d
  | SPC_UNSUPPORTED t => P_unsupported t
  end.
End ValueInduction.


(* ================================================================== *)
(** * The writer appends *)

Lemma appended_refl (w : writer_t) : appended w [] [] w.
Proof. split; now rewrite app_nil_r. Qed.

Lemma appended_trans (w1 w2 w3 : writer_t) b1 b2 p1 p2 :
  appended w1 b1 p1 w2 -> appended w2 b2 p2 w3 ->
  appended w1 (b1 ++ b2) (p1 ++ p2) w3.
Proof.
  intros [B1 P1] [B2 P2]. split.
  - now rewrite B2, B1, app_assoc.
  - now rewrite P2, P1, app_assoc.
Qed.

Lemma spc_ensure_space_buf (w : writer_t) (n : Z) :
  w_buf (spc_ensure_space w n) = w_buf w
  /\ w_ports (spc_ensure_space w n) = w_ports w.
Proof. unfold spc_ensure_space. destruct (_ >? _); split; reflexivity. Qed.

Lemma put_ensure_appended (w : writer_t) (n : Z) (bytes : list byte) :
  appended w bytes [] (put (spc_ensure_space w n) bytes).
Proof.
  destruct (spc_ensure_space_buf w n) as [B P].
  split; cbn [put w_buf w_ports]; rewrite ?B, ?P, ?app_nil_r; reflexivity.
Qed.

Lemma spc_write_spec (w : writer_t) (bytes : list byte) :
  fst (spc_write w bytes) = Z.of_nat (length bytes)
  /\ appended w bytes [] (snd (spc_write w bytes)).
Proof. split; [reflexivity|apply put_ensure_appended]. Qed.

Lemma spc_write_uint32_spec (w : writer_t) (val : Z) :
  fst (spc_write_uint32 w val) = 4
  /\ appended w (le_bytes 4 val) [] (snd (spc_write_uint32 w val)).
Proof. split; [reflexivity|apply put_ensure_appended]. Qed.

Lemma spc_write_uint64_spec (w : writer_t) (val : Z) :
  fst (spc_write_uint64 w val) = 8
  /\ appended w (le_bytes 8 val) [] (snd (spc_write_uint64 w val)).
Proof. split; [reflexivity|apply put_ensure_appended]. Qed.

Lemma spc_write_int64_spec (w : writer_t) (val : Z) :
  fst (spc_write_int64 w val) = 8
  /\ appended w (le_bytes 8 val) [] (snd (spc_write_int64 w val)).
Proof. split; [reflexivity|apply put_ensure_appended]. Qed.

Lemma spc_write_double_spec (w : writer_t) (val : Z) :
  fst (spc_write_double w val) = 8
  /\ appended w (le_bytes 8 val) [] (snd (spc_write_double w val)).
Proof. split; [reflexivity|apply put_ensure_appended]. Qed.

Lemma padding_length (len : Z) :
  Z.of_nat (length (padding len)) = remainder_of len.
Proof.
  unfold padding. rewrite repeat_length.
  pose proof (remainder_of_range len). lia.
Qed.

Lemma padded_length (bytes : list byte) :
  Z.of_nat (length (padded bytes))
  = Z.of_nat (length bytes) + remainder_of (Z.of_nat (length bytes)).
Proof.
  unfold padded. rewrite length_app, Nat2Z.inj_add, padding_length.
  reflexivity.
Qed.

Lemma spc_write_padded_spec (w : writer_t) (bytes : list byte) :
  fst (spc_write_padded w bytes) = Z.of_nat (length (padded bytes))
  /\ appended w (padded bytes) [] (snd (spc_write_padded w bytes)).
Proof.
  split.
  - rewrite padded_length. reflexivity.
  - unfold spc_write_padded. cbn [snd].
    destruct (spc_ensure_space_buf w
                (Z.of_nat (length bytes)
                 + (4 - Z.of_nat (length bytes) mod 4) mod 4)) as [B P].
    split; cbn [put w_buf w_ports]; rewrite ?B, ?P, ?app_nil_r.
    + unfold padded, padding, remainder_of. now rewrite app_assoc.
    + reflexivity.
Qed.

Lemma spc_write_str_spec (w : writer_t) (s : list byte) :
  fst (spc_write_str w s) = Z.of_nat (length (padded_cstr s))
  /\ appended w (padded_cstr s) [] (snd (spc_write_str w s)).
Proof. apply spc_write_padded_spec. Qed.

Lemma spc_write_port_spec (w : writer_t) (p : spc_port_t) :
  appended w [] [p] (spc_write_port w p).
Proof. split; cbn; now rewrite ?app_nil_r. Qed.

Lemma store_uint32_placeholder (pre four post : list byte) (val : Z) :
  length four = 4%nat ->
  store_uint32 (pre ++ four ++ post) (Z.of_nat (length pre)) val
  = pre ++ le_bytes 4 val ++ post.
Proof.
  intros H4. unfold store_uint32. rewrite Nat2Z.id.
  rewrite firstn_app, Nat.sub_diag, firstn_all, firstn_O, app_nil_r.
  f_equal. f_equal.
  rewrite skipn_app, skipn_all2 by lia.
  replace (length pre + 4 - length pre)%nat with (length four) by lia.
  rewrite skipn_app, skipn_all, Nat.sub_diag. reflexivity.
Qed.

(** The container writers refine [container_body], whatever value
    serializer they are run with, if that one appends what it says. *)
Section ContainerWritersSpec.
Variable ser : writer_t -> spc_value_t -> Z * writer_t.
Variable wire : spc_value_t -> list byte.
Variable vports : spc_value_t -> list spc_port_t.

Lemma write_array_values_spec (values : list spc_value_t) :
  Forall (ser_ok ser wire vports) values ->
  forall bw w,
    fst (write_array_values ser values bw w)
    = bw + Z.of_nat (length (flat_map wire values))
    /\ appended w (flat_map wire values) (flat_map vports values)
         (snd (write_array_values ser values bw w)).
Proof.
  induction 1 as [|v values Hv _ IH]; intros bw w.
  - cbn. split; [lia|apply appended_refl].
  - cbn [write_array_values flat_map].
    destruct (Hv w) as [Hn Ha]. destruct (ser w v) as [n w1].
    cbn [fst snd] in Hn, Ha.
    destruct (IH (bw + n) w1) as [Hn' Ha']. split.
    + rewrite Hn', Hn, length_app. lia.
    + eapply appended_trans; eassumption.
Qed.

Lemma write_dict_items_spec (l : list spc_dictionary_item_t) :
  Forall (fun it => ser_ok ser wire vports (value it)) l ->
  forall bw w,
    fst (write_dict_items ser l bw w)
    = bw + Z.of_nat
             (length (flat_map
                        (fun it => padded_cstr (key it) ++ wire (value it))
                        l))
    /\ appended w
         (flat_map (fun it => padded_cstr (key it) ++ wire (value it)) l)
         (flat_map (fun it => vports (value it)) l)
         (snd (write_dict_items ser l bw w)).
Proof.
  induction 1 as [|it l Hv _ IH]; intros bw w.
  - cbn. split; [lia|apply appended_refl].
  - cbn [write_dict_items flat_map].
    destruct (spc_write_str_spec w (key it)) as [Hk Hka].
    destruct (spc_write_str w (key it)) as [n1 w1]. cbn [fst snd] in Hk, Hka.
    destruct (Hv w1) as [Hn Ha]. destruct (ser w1 (value it)) as [n2 w2].
    cbn [fst snd] in Hn, Ha.
    destruct (IH (bw + n1 + n2) w2) as [Hn' Ha']. split.
    + rewrite Hn', Hn, Hk, !length_app. lia.
    + exact (appended_trans (appended_trans Hka Ha) Ha').
Qed.

(** What a container writer does after its loop: the placeholder gets
    the count of the bytes behind it. *)
Lemma patch_placeholder (w w1 : writer_t) (payload : list byte) ports :
  appended w (le_bytes 4 0 ++ payload) ports w1 ->
  appended w (container_body payload) ports
    (patch_uint32 w1 (w_ptr w) (Z.of_nat (length payload))).
Proof.
  intros [B P]. split; cbn [patch_uint32 w_buf w_ports]; [|exact P].
  rewrite B. unfold w_ptr.
  rewrite store_uint32_placeholder by apply le_bytes_length.
  reflexivity.
Qed.

Lemma container_body_length (payload : list byte) :
  Z.of_nat (length (container_body payload))
  = Z.of_nat (length payload) + 4.
Proof.
  unfold container_body. rewrite length_app, le_bytes_length. lia.
Qed.

Lemma write_array_with_spec (a : spc_array_t) :
  Forall (ser_ok ser wire vports) a ->
  forall w,
    let payload := le_bytes 4 (Z.of_nat (length a)) ++ flat_map wire a in
    fst (write_array_with ser w a) = Z.of_nat (length payload) + 4
    /\ appended w (container_body payload) (flat_map vports a)
         (snd (write_array_with ser w a)).
Proof.
  intros Ha w payload. unfold write_array_with.
  destruct (spc_write_uint32_spec w 0) as [_ A0].
  destruct (spc_write_uint32 w 0) as [n0 w0]. cbn [snd] in A0.
  destruct (spc_write_uint32_spec w0 (Z.of_nat (length a))) as [N1 A1].
  destruct (spc_write_uint32 w0 (Z.of_nat (length a))) as [n1 w1].
  cbn [fst snd] in N1, A1.
  destruct (write_array_values_spec Ha (0 + n1) w1) as [N2 A2].
  destruct (write_array_values ser a (0 + n1) w1) as [bw w2].
  cbn [fst snd] in N2, A2 |- *.
  assert (Hbw : bw = Z.of_nat (length payload)).
  { subst payload. rewrite N2, N1, length_app, le_bytes_length. lia. }
  split; [lia|]. rewrite Hbw. apply patch_placeholder.
  pose proof (appended_trans A0 (appended_trans A1 A2)) as A.
  exact A.
Qed.

Lemma write_dict_with_spec (d : spc_dictionary_t) :
  Forall (fun it => ser_ok ser wire vports (value it)) (items d) ->
  forall w,
    let payload :=
      le_bytes 4 (num_items d)
        ++ flat_map (fun it => padded_cstr (key it) ++ wire (value it))
             (items d) in
    fst (write_dict_with ser w d) = Z.of_nat (length payload) + 4
    /\ appended w (container_body payload)
         (flat_map (fun it => vports (value it)) (items d))
         (snd (write_dict_with ser w d)).
Proof.
  intros Hd w payload. unfold write_dict_with.
  destruct (spc_write_uint32_spec w 0) as [_ A0].
  destruct (spc_write_uint32 w 0) as [n0 w0]. cbn [snd] in A0.
  destruct (spc_write_uint32_spec w0 (num_items d)) as [N1 A1].
  destruct (spc_write_uint32 w0 (num_items d)) as [n1 w1].
  cbn [fst snd] in N1, A1.
  destruct (write_dict_items_spec Hd (0 + n1) w1) as [N2 A2].
  destruct (write_dict_items ser (items d) (0 + n1) w1) as [bw w2].
  cbn [fst snd] in N2, A2 |- *.
  assert (Hbw : bw = Z.of_nat (length payload)).
  { subst payload. rewrite N2, N1, length_app, le_bytes_length. lia. }
  split; [lia|]. rewrite Hbw. apply patch_placeholder.
  pose proof (appended_trans A0 (appended_trans A1 A2)) as A.
  exact A.
Qed.
End ContainerWritersSpec.

(* ================================================================== *)
(** * The serializer writes the wire format *)

Section SerializerSpec.
Context `{spc_types}.

Ltac step_write L :=
  let N := fresh "N" in
  let A := fresh "A" in
  destruct L as [N A];
  match type of N with
  | fst ?c = _ =>
      let n := fresh "n" in
      let w := fresh "w" in
      destruct c as [n w]; cbn [fst snd] in N, A |- *
  end.

Lemma spc_serialize_value_spec (v : spc_value_t) :
  ser_ok spc_serialize_value wire_value value_ports v.
Proof.
  induction v as [ | u | u | i | d | s | a IH | d IH | p | p | p | u | d | t ]
    using spc_value_induction; intros w;
    cbn [spc_serialize_value wire_value value_ports];
    match goal with
    | |- context [spc_write_uint32 w (value_type ?x)] =>
        step_write (spc_write_uint32_spec w (value_type x))
    end.
  - (* NULL *)
    cbn [fst snd]. rewrite app_nil_r. split; [now rewrite N, le_bytes_length|assumption].
  - (* BOOL *)
    step_write (spc_write_uint32_spec w0 u). split.
    + rewrite length_app, !le_bytes_length. lia.
    + exact (appended_trans A A0).
  - (* UINT64 *)
    step_write (spc_write_uint64_spec w0 u). split.
    + rewrite length_app, !le_bytes_length. lia.
    + exact (appended_trans A A0).
  - (* INT64 *)
    step_write (spc_write_int64_spec w0 i). split.
    + rewrite length_app, !le_bytes_length. lia.
    + exact (appended_trans A A0).
  - (* DOUBLE *)
    step_write (spc_write_double_spec w0 d). split.
    + rewrite length_app, !le_bytes_length. lia.
    + exact (appended_trans A A0).
  - (* STRING *)
    step_write (spc_write_uint32_spec w0 (strlen s + 1)).
    step_write (spc_write_str_spec w1 s). split.
    + rewrite !length_app, !le_bytes_length. lia.
    + exact (appended_trans A (appended_trans A0 A1)).
  - (* ARRAY *)
    destruct (write_array_with_spec IH w0) as [N1 A1].
    destruct (write_array_with spc_serialize_value w0 a) as [n1 w1].
    cbn [fst snd] in N1, A1 |- *. split.
    + rewrite length_app, Nat2Z.inj_add, container_body_length,
        le_bytes_length.
      lia.
    + exact (appended_trans A A1).
  - (* DICT *)
    destruct (write_dict_with_spec d IH w0) as [N1 A1].
    destruct (write_dict_with spc_serialize_value w0 d) as [n1 w1].
    cbn [fst snd] in N1, A1 |- *. split.
    + rewrite length_app, Nat2Z.inj_add, container_body_length,
        le_bytes_length.
      lia.
    + exact (appended_trans A A1).
  - (* FD *)
    cbn [fst snd]. split.
    + rewrite app_nil_r, le_bytes_length. lia.
    + exact (appended_trans A (spc_write_port_spec w0 p)).
  - (* SEND_PORT *)
    cbn [fst snd]. split.
    + rewrite app_nil_r, le_bytes_length. lia.
    + exact (appended_trans A (spc_write_port_spec w0 p)).
  - (* RECV_PORT *)
    cbn [fst snd]. split.
    + rewrite app_nil_r, le_bytes_length. lia.
    + exact (appended_trans A (spc_write_port_spec w0 p)).
  - (* UUID *)
    step_write (spc_write_spec w0 (le_bytes 16 u)). split.
    + rewrite length_app, !le_bytes_length in *. lia.
    + exact (appended_trans A A0).
  - (* DATA *)
    step_write (spc_write_uint32_spec w0 (Z.of_nat (length d))).
    step_write (spc_write_padded_spec w1 d). split.
    + rewrite !length_app, !le_bytes_length. lia.
    + exact (appended_trans A (appended_trans A0 A1)).
  - (* unsupported *)
    cbn [fst snd]. rewrite app_nil_r. split; [now rewrite N, le_bytes_length|assumption].
Qed.
End SerializerSpec.

(* ================================================================== *)
(** * The reader on a known byte sequence *)

Lemma reader_eq (r : reader_t) (n n' k k' : Z) :
  n = n' -> k = k' -> moved r n k = moved r n' k'.
Proof. now intros -> ->. Qed.

Lemma moved_moved (r : reader_t) (n k n' k' : Z) :
  moved (moved r n k) n' k' = moved r (n + n') (k + k').
Proof. unfold moved; cbn. f_equal; lia. Qed.

Lemma advance_moved (r : reader_t) (n : Z) : advance r n = moved r n 0.
Proof. unfold advance, moved. f_equal. lia. Qed.

Lemma skipn_app_exact {A : Type} (n : nat) (l a b : list A) :
  skipn n l = a ++ b -> skipn (n + length a) l = b.
Proof.
  intros E. rewrite Nat.add_comm, <- skipn_skipn, E.
  rewrite skipn_app, skipn_all, Nat.sub_diag. reflexivity.
Qed.

Lemma holds_moved (r : reader_t) b1 b2 p1 p2 :
  holds r (b1 ++ b2) (p1 ++ p2) ->
  holds (moved r (Z.of_nat (length b1)) (Z.of_nat (length p1))) b2 p2.
Proof.
  intros [(Hp & [post Hr] & He) (Hn & [rest Hs])].
  rewrite length_app in He. unfold holds, at_bytes, at_ports, r_rest in *.
  cbn [moved r_ptr r_mem r_end next_port r_ports].
  repeat split; try lia.
  - exists post. rewrite Z2Nat.inj_add, Nat2Z.id by lia.
    apply skipn_app_exact. now rewrite Hr, app_assoc.
  - exists rest. rewrite Z2Nat.inj_add, Nat2Z.id by lia.
    apply skipn_app_exact. now rewrite Hs, app_assoc.
Qed.

Lemma holds_nil_ports (r : reader_t) b p :
  holds r b p -> holds r b ([] ++ p).
Proof. exact (fun H => H). Qed.

Lemma spc_read_at (r : reader_t) (b1 b2 : list byte) ports (len : Z) :
  holds r (b1 ++ b2) ports ->
  len = Z.of_nat (length b1) ->
  spc_read r len = Returned (b1, moved r len 0).
Proof.
  intros [(Hp & [post Hr] & He) _] ->. rewrite length_app in He.
  unfold spc_read.
  destruct (r_ptr r + Z.of_nat (length b1) >? r_end r) eqn:E.
  - apply Z.gtb_lt in E. lia.
  - rewrite advance_moved. do 2 f_equal.
    unfold slice. fold (r_rest r). rewrite Hr, Nat2Z.id, <- app_assoc.
    rewrite firstn_app, Nat.sub_diag, firstn_all, firstn_O, app_nil_r.
    reflexivity.
Qed.

Arguments spc_read_at [r b1 b2 ports len] _ _.

Lemma spc_read_uint32_at (r : reader_t) (x : Z) b ports :
  holds r (le_bytes 4 x ++ b) ports ->
  spc_read_uint32 r = Returned (x mod 2 ^ 32, moved r 4 0).
Proof.
  intros Hr. unfold spc_read_uint32.
  rewrite (spc_read_at (len := 4) Hr) by now rewrite le_bytes_length.
  cbn [bind]. now rewrite le_value_le_bytes.
Qed.

Lemma spc_read_8_at (r : reader_t) (x : Z) b ports :
  holds r (le_bytes 8 x ++ b) ports ->
  spc_read r 8 = Returned (le_bytes 8 x, moved r 8 0).
Proof.
  intros Hr. apply (spc_read_at Hr). now rewrite le_bytes_length.
Qed.

Lemma memchr0_firstn (s t : list byte) (n : nat) :
  nul_free s = true -> (length s < n)%nat ->
  memchr0 (firstn n (s ++ x00 :: t)) = Some (Z.of_nat (length s)).
Proof.
  revert n. induction s as [|b s IH]; intros n Hs Hn.
  - destruct n; [lia|]. reflexivity.
  - cbn [nul_free forallb] in Hs. apply andb_true_iff in Hs as [Hb Hs].
    destruct n; [cbn in Hn; lia|].
    cbn [app firstn memchr0 length] in *.
    destruct (Byte.eqb b x00); [discriminate|].
    rewrite (IH n Hs) by lia. f_equal. lia.
Qed.

Lemma padded_cstr_shape (s : list byte) :
  padded_cstr s
  = cstr s ++ x00 :: padding (Z.of_nat (length (cstr s ++ [x00]))).
Proof. unfold padded_cstr, padded. now rewrite <- app_assoc. Qed.

Lemma spc_read_str_at (r : reader_t) (s b : list byte) ports :
  holds r (padded_cstr s ++ b) ports ->
  spc_read_str r
  = Returned (Some (padded_cstr s),
              moved r (Z.of_nat (length (padded_cstr s))) 0).
Proof.
  intros Hr. pose proof Hr as [(Hp & [post Hrest] & He) _].
  unfold spc_read_str, slice. fold (r_rest r). rewrite Hrest.
  assert (Hlen : Z.of_nat (length (padded_cstr s))
                 = Z.of_nat (length (cstr s)) + 1
                   + remainder_of (Z.of_nat (length (cstr s)) + 1)).
  { unfold padded_cstr. rewrite padded_length, length_app. cbn [length].
    rewrite Nat2Z.inj_add. reflexivity. }
  pose proof (remainder_of_range (Z.of_nat (length (cstr s)) + 1)).
  rewrite length_app in He.
  assert (Hm : memchr0 (firstn (Z.to_nat (r_end r - r_ptr r))
                          ((padded_cstr s ++ b) ++ post))
               = Some (Z.of_nat (length (cstr s)))).
  { rewrite padded_cstr_shape, <- !app_assoc, <- app_comm_cons.
    apply memchr0_firstn; [apply nul_free_cstr|lia]. }
  rewrite Hm. unfold spc_read_padded.
  fold (remainder_of (Z.of_nat (length (cstr s)) + 1)).
  rewrite <- Hlen.
  rewrite (spc_read_at Hr eq_refl). reflexivity.
Qed.

Lemma strdup_padded_cstr (s : list byte) :
  strdup (Some (padded_cstr s)) = Returned (cstr s).
Proof.
  cbn [strdup]. rewrite padded_cstr_shape.
  now rewrite cstr_terminated by apply nul_free_cstr.
Qed.

Lemma spc_read_padded_at (r : reader_t) (d b : list byte) ports :
  holds r (padded d ++ b) ports ->
  spc_read_padded r (Z.of_nat (length d))
  = Returned (padded d, moved r (Z.of_nat (length (padded d))) 0).
Proof.
  intros Hr. unfold spc_read_padded.
  fold (remainder_of (Z.of_nat (length d))). rewrite <- padded_length.
  apply (spc_read_at Hr eq_refl).
Qed.

Lemma spc_reader_next_port_at (r : reader_t) (p : spc_port_t) b ports :
  holds r b (p :: ports) ->
  spc_reader_next_port r = (p, moved r 0 1).
Proof.
  intros [_ (Hn & [rest Hs])]. unfold spc_reader_next_port.
  assert (Hlt : (Z.to_nat (next_port r) < length (r_ports r))%nat).
  { destruct (Nat.lt_ge_cases (Z.to_nat (next_port r)) (length (r_ports r)))
      as [Hlt|Hge]; [exact Hlt|].
    rewrite skipn_all2 in Hs by exact Hge. discriminate. }
  destruct (next_port r >=? Z.of_nat (length (r_ports r))) eqn:E.
  - apply Z.geb_le in E. lia.
  - cbn [next_port r_ports]. f_equal.
    + replace (next_port r + 1 - 1) with (next_port r) by lia.
      rewrite <- (firstn_skipn (Z.to_nat (next_port r)) (r_ports r)) at 1.
      rewrite Hs, app_nth2; rewrite length_firstn, Nat.min_l by lia; [|lia].
      now rewrite Nat.sub_diag.
    + unfold moved. f_equal. lia.
Qed.

Arguments spc_read_uint32_at [r x b ports] _.
Arguments spc_read_8_at [r x b ports] _.
Arguments spc_read_str_at [r s b ports] _.
Arguments spc_read_padded_at [r d b ports] _.
Arguments spc_reader_next_port_at [r p b ports] _.

Lemma holds_after_bytes (r : reader_t) (b1 b2 : list byte) ports (n : Z) :
  holds r (b1 ++ b2) ports -> n = Z.of_nat (length b1) ->
  holds (moved r n 0) b2 ports.
Proof.
  intros Hr ->. exact (holds_moved b1 b2 [] ports Hr).
Qed.

Arguments holds_after_bytes [r b1 b2 ports n] _ _.

Lemma holds_after_uint32 (r : reader_t) (x : Z) b ports :
  holds r (le_bytes 4 x ++ b) ports -> holds (moved r 4 0) b ports.
Proof.
  intros Hr. apply (holds_after_bytes Hr). now rewrite le_bytes_length.
Qed.

Arguments holds_after_uint32 [r x b ports] _.

Lemma holds_after_port (r : reader_t) (p : spc_port_t) b ports :
  holds r b (p :: ports) -> holds (moved r 0 1) b ports.
Proof.
  intros Hr. exact (holds_moved [] b [p] ports Hr).
Qed.

Arguments holds_after_port [r p b ports] _.

(* ================================================================== *)
(** * Ranges and type tags *)

Lemma in_range_spec (lo x hi : Z) : in_range lo x hi = true <-> lo <= x < hi.
Proof.
  unfold in_range. rewrite andb_true_iff, Z.leb_le, Z.ltb_lt. reflexivity.
Qed.

(** ** The type tags are distinct *)

Section Tags.
Context `{spc_types}.
Hypothesis types_ok : spc_types_ok.

Lemma types_distinct (i j : nat) :
  (i < 13)%nat -> (j < 13)%nat -> i <> j ->
  nth i all_types 0 <> nth j all_types 0.
Proof.
  intros Hi Hj Hij E. apply Hij.
  destruct types_ok as [ND _].
  now apply (proj1 (NoDup_nth all_types 0) ND).
Qed.

Lemma types_range (i : nat) :
  (i < 13)%nat -> 0 <= nth i all_types 0 < 2 ^ 32.
Proof.
  intros Hi. destruct types_ok as [_ R].
  now apply (proj1 (Forall_nth _ all_types) R).
Qed.

Lemma value_type_range (v : spc_value_t) :
  well_formed v = true -> 0 <= value_type v < 2 ^ 32.
Proof.
  destruct v; intros Hv; try discriminate; cbn [value_type].
  - exact (types_range (i := 0) ltac:(lia)).
  - exact (types_range (i := 1) ltac:(lia)).
  - exact (types_range (i := 2) ltac:(lia)).
  - exact (types_range (i := 3) ltac:(lia)).
  - exact (types_range (i := 4) ltac:(lia)).
  - exact (types_range (i := 5) ltac:(lia)).
  - exact (types_range (i := 6) ltac:(lia)).
  - exact (types_range (i := 7) ltac:(lia)).
  - exact (types_range (i := 8) ltac:(lia)).
  - exact (types_range (i := 9) ltac:(lia)).
  - exact (types_range (i := 10) ltac:(lia)).
  - exact (types_range (i := 11) ltac:(lia)).
  - exact (types_range (i := 12) ltac:(lia)).
Qed.
End Tags.

(** [pose_distinct ok]: the inequalities between the thirteen tags. *)
Ltac pose_distinct_row ok i j :=
  lazymatch j with
  | O => idtac
  | S ?j' =>
      try (let Hneq := fresh "Hneq" in
           assert (Hneq : distinct (nth i all_types 0) (nth j' all_types 0))
             by (apply (types_distinct ok);
                 [ apply Nat.ltb_lt; reflexivity
                 | apply Nat.ltb_lt; reflexivity
                 | discriminate ]);
           cbn [nth all_types] in Hneq);
      pose_distinct_row ok i j'
  end.

Ltac pose_distinct_rows ok i :=
  lazymatch i with
  | O => idtac
  | S ?i' => pose_distinct_row ok i' 13%nat; pose_distinct_rows ok i'
  end.

Ltac pose_distinct ok := pose_distinct_rows ok 13%nat.

(** [switch_on_tag]: settles the [switch] of the decoder on a known tag. *)
Ltac switch_on_tag :=
  repeat match goal with
    | |- context [?a =? ?a] => rewrite (Z.eqb_refl a)
    | Hneq : distinct ?a ?b |- context [?a =? ?b] =>
        rewrite (proj2 (Z.eqb_neq a b) Hneq)
    end.

(* ================================================================== *)
(** * The decoder on the wire format *)

Lemma moved_0 (r : reader_t) : moved r 0 0 = r.
Proof. destruct r. unfold moved. cbn. f_equal; lia. Qed.

Lemma spc_array_set_value_end (a : spc_array_t) (v : spc_value_t) :
  spc_array_set_value a (Z.of_nat (length a)) v = a ++ [v].
Proof.
  unfold spc_array_set_value. rewrite Nat2Z.id.
  replace (S (length a) - length a)%nat with 1%nat by lia. cbn [repeat].
  rewrite firstn_app, Nat.sub_diag, firstn_all, firstn_O, app_nil_r.
  f_equal. f_equal.
  rewrite skipn_all2; [reflexivity|]. rewrite length_app. cbn. lia.
Qed.

Section ContainerReadersSpec.
Variable dv : reader_t -> outcome (spc_value_t * reader_t).
Variable wire : spc_value_t -> list byte.

Lemma read_array_values_at (values : list spc_value_t) :
  Forall (dv_ok dv wire) values ->
  forall fuel acc r b2 p2 total,
    (length values < fuel)%nat ->
    total = Z.of_nat (length acc) + Z.of_nat (length values) ->
    holds r (flat_map wire values ++ b2) (flat_map value_ports values ++ p2) ->
    read_array_values dv fuel (Z.of_nat (length acc)) total acc r
    = Returned (acc ++ map reverse_dicts values,
                moved r (Z.of_nat (length (flat_map wire values)))
                  (Z.of_nat (length (flat_map value_ports values)))).
Proof.
  induction 1 as [|v values Hv _ IH]; intros fuel acc r b2 p2 total Hf Ht Hr;
    (destruct fuel as [|fuel]; [cbn in Hf; lia|]); cbn [read_array_values].
  - cbn [length] in Ht. rewrite (proj2 (Z.ltb_ge _ _)) by lia.
    cbn. now rewrite app_nil_r, moved_0.
  - cbn [length] in Ht, Hf. rewrite (proj2 (Z.ltb_lt _ _)) by lia.
    cbn [flat_map] in Hr. rewrite <- !app_assoc in Hr.
    rewrite (Hv r _ _ Hr). cbn [bind].
    rewrite spc_array_set_value_end.
    apply holds_moved in Hr.
    replace (Z.of_nat (length acc) + 1)
      with (Z.of_nat (length (acc ++ [reverse_dicts v])))
      by (rewrite length_app; cbn [length]; lia).
    rewrite (IH fuel (acc ++ [reverse_dicts v]) _ b2 p2 total);
      [ | lia | rewrite length_app; cbn [length]; lia | exact Hr ].
    rewrite moved_moved. cbn [flat_map map].
    rewrite <- app_assoc, !length_app, !Nat2Z.inj_add. reflexivity.
Qed.

Lemma read_dict_items_at (l : list spc_dictionary_item_t) :
  Forall (fun it => dv_ok dv wire (value it)) l ->
  forall fuel i d r b2 p2,
    (length l < fuel)%nat ->
    i + Z.of_nat (length l) = num_items d ->
    holds r
      (flat_map (fun it => padded_cstr (key it) ++ wire (value it)) l ++ b2)
      (flat_map (fun it => value_ports (value it)) l ++ p2) ->
    read_dict_items dv fuel i d r
    = Returned
        ({| num_items := num_items d;
            items :=
              rev (map (fun it => {| key := cstr (key it);
                                     value := reverse_dicts (value it) |}) l)
                ++ items d |},
         moved r
           (Z.of_nat
              (length (flat_map
                         (fun it => padded_cstr (key it) ++ wire (value it))
                         l)))
           (Z.of_nat (length (flat_map (fun it => value_ports (value it)) l)))).
Proof.
  induction 1 as [|it l Hv _ IH]; intros fuel i d r b2 p2 Hf Hi Hr;
    (destruct fuel as [|fuel]; [cbn in Hf; lia|]); cbn [read_dict_items].
  - cbn [length] in Hi. rewrite (proj2 (Z.ltb_ge _ _)) by lia.
    cbn. rewrite moved_0. now destruct d.
  - cbn [length] in Hi, Hf. rewrite (proj2 (Z.ltb_lt _ _)) by lia.
    cbn [flat_map] in Hr. rewrite <- !app_assoc in Hr.
    rewrite (spc_read_str_at (holds_nil_ports Hr)). cbn [bind].
    rewrite strdup_padded_cstr. cbn [bind].
    apply (holds_moved _ _ []) in Hr. cbn [length] in Hr.
    change (Z.of_nat 0) with 0 in Hr.
    rewrite (Hv _ _ _ Hr). cbn [bind].
    apply holds_moved in Hr.
    rewrite (IH fuel (i + 1) _ _ b2 p2);
      [ | lia | cbn [num_items]; lia | exact Hr ].
    cbn [num_items items map rev flat_map].
    rewrite !moved_moved, <- !app_assoc. cbn [app].
    rewrite !length_app, !Nat2Z.inj_add. do 2 f_equal; lia.
Qed.
End ContainerReadersSpec.

Arguments read_array_values_at [dv wire values] _ [fuel acc r b2 p2 total] _ _ _.
Arguments read_dict_items_at [dv wire l] _ [fuel i d r b2 p2] _ _ _.

Section DecoderSpec.
Context `{spc_types}.
Hypothesis types_ok : spc_types_ok.

Lemma decodes_all (a : list spc_value_t) (fuel : nat) :
  Forall decodes a ->
  forallb well_formed a = true -> forallb fd_free a = true ->
  (list_sum (map cost a) <= fuel)%nat ->
  Forall (dv_ok (spc_deserialize_value fuel) wire_value) a.
Proof.
  induction 1 as [|v a Hv _ IH]; intros Hwf Hfd Hc; constructor;
    unfold list_sum in *; cbn [forallb map fold_right] in *;
    apply andb_true_iff in Hwf as [Hwf1 Hwf2];
    apply andb_true_iff in Hfd as [Hfd1 Hfd2].
  - apply Hv; [assumption|assumption|lia].
  - apply IH; [assumption|assumption|lia].
Qed.

Lemma decodes_all_items (l : list spc_dictionary_item_t) (fuel : nat) :
  Forall (fun it => decodes (value it)) l ->
  forallb (fun it => nul_free (key it) && well_formed (value it)) l = true ->
  forallb (fun it => fd_free (value it)) l = true ->
  (list_sum (map (fun it => cost (value it)) l) <= fuel)%nat ->
  Forall (fun it => dv_ok (spc_deserialize_value fuel) wire_value (value it)) l.
Proof.
  induction 1 as [|it l Hv _ IH]; intros Hwf Hfd Hc; constructor;
    unfold list_sum in *; cbn [forallb map fold_right] in *;
    apply andb_true_iff in Hwf as [Hwf1 Hwf2];
    apply andb_true_iff in Hwf1 as [Hk Hwf1];
    apply andb_true_iff in Hfd as [Hfd1 Hfd2].
  - apply Hv; [assumption|assumption|lia].
  - apply IH; [assumption|assumption|lia].
Qed.

Arguments decodes_all [a fuel] _ _ _ _.
Arguments decodes_all_items [l fuel] _ _ _ _.

Lemma reverse_items_nul_free (l : list spc_dictionary_item_t) :
  forallb (fun it => nul_free (key it) && well_formed (value it)) l = true ->
  map (fun it => {| key := cstr (key it);
                    value := reverse_dicts (value it) |}) l
  = map reverse_item l.
Proof.
  induction l as [|it l IH]; intros Hl; [reflexivity|].
  cbn [forallb map] in *. apply andb_true_iff in Hl as [Hit Hl].
  apply andb_true_iff in Hit as [Hk _].
  rewrite (IH Hl). unfold reverse_item at 2. now rewrite (cstr_nul_free _ Hk).
Qed.

Ltac count_bytes :=
  rewrite ?length_app, ?Nat2Z.inj_add, ?container_body_length,
    ?length_app, ?Nat2Z.inj_add, ?le_bytes_length;
  cbn [length]; lia.

Ltac finish_reader :=
  rewrite ?moved_moved;
  do 2 f_equal;
  try reflexivity;
  try (apply reader_eq; count_bytes);
  try count_bytes.

Lemma spc_deserialize_value_wire (v : spc_value_t) : decodes v.
Proof.
  pose_distinct types_ok.
  induction v as [ | u | u | i | d | s | a IH | d IH | p | p | p | u | d | t ]
    using spc_value_induction;
    intros Hwf Hfd fuel Hf r b2 p2 Hr;
    try discriminate;
    (destruct fuel as [|fuel]; [cbn in Hf; lia|]);
    pose proof (value_type_range types_ok _ Hwf) as Htag;
    cbn [spc_deserialize_value];
    cbn [wire_value value_ports] in Hr |- *;
    rewrite <- ?app_assoc in Hr;
    rewrite (spc_read_uint32_at Hr), Z.mod_small by exact Htag;
    apply holds_after_uint32 in Hr;
    cbn [bind value_type well_formed] in *; switch_on_tag.
  - (* NULL *)
    finish_reader.
  - (* BOOL *)
    apply in_range_spec in Hwf.
    rewrite (spc_read_uint32_at Hr), Z.mod_small by exact Hwf.
    cbn [bind]. finish_reader.
  - (* UINT64 *)
    apply in_range_spec in Hwf.
    unfold spc_read_uint64. rewrite (spc_read_8_at Hr). cbn [bind].
    rewrite le_value_le_bytes_small by exact Hwf.
    finish_reader.
  - (* INT64 *)
    apply in_range_spec in Hwf.
    unfold spc_read_int64. rewrite (spc_read_8_at Hr). cbn [bind].
    rewrite to_int64_le_bytes by exact Hwf.
    finish_reader.
  - (* DOUBLE *)
    apply in_range_spec in Hwf.
    unfold spc_read_double. rewrite (spc_read_8_at Hr). cbn [bind].
    rewrite le_value_le_bytes_small by exact Hwf.
    finish_reader.
  - (* STRING *)
    rewrite (spc_read_uint32_at Hr). cbn [bind].
    apply holds_after_uint32 in Hr.
    rewrite (spc_read_str_at Hr). cbn [bind].
    rewrite strdup_padded_cstr. cbn [bind].
    rewrite (cstr_nul_free _ Hwf).
    finish_reader.
  - (* ARRAY *)
    apply andb_true_iff in Hwf as [Hlen Hwf]. apply Z.ltb_lt in Hlen.
    cbn [cost fd_free] in Hf, Hfd.
    unfold deserialize_array_with, container_body in *.
    rewrite <- ?app_assoc in Hr.
    rewrite (spc_read_uint32_at Hr). cbn [bind].
    apply holds_after_uint32 in Hr.
    rewrite (spc_read_uint32_at Hr), Z.mod_small by lia. cbn [bind].
    apply holds_after_uint32 in Hr.
    unfold spc_array_create.
    change 0 with (Z.of_nat (length (@nil spc_value_t))) at 1.
    assert (Hc : (list_sum (map cost a) <= fuel)%nat) by lia.
    assert (Hn : (length a < fuel)%nat) by lia.
    rewrite (read_array_values_at (decodes_all IH Hwf Hfd Hc)
               (acc := []) (total := Z.of_nat (length a)) Hn eq_refl Hr).
    cbn [bind app reverse_dicts]. finish_reader.
  - (* DICT *)
    apply andb_true_iff in Hwf as [Hlen Hwf].
    apply andb_true_iff in Hlen as [Hnum Hlen].
    apply Z.ltb_lt in Hlen. apply Z.eqb_eq in Hnum.
    cbn [cost fd_free] in Hf, Hfd.
    unfold deserialize_dict_with, container_body in *.
    rewrite <- ?app_assoc in Hr.
    rewrite (spc_read_uint32_at Hr). cbn [bind].
    apply holds_after_uint32 in Hr.
    rewrite (spc_read_uint32_at Hr), Z.mod_small by lia. cbn [bind].
    apply holds_after_uint32 in Hr.
    assert (Hc : (list_sum (map (fun it => cost (value it)) (items d))
                  <= fuel)%nat) by lia.
    assert (Hn : (length (items d) < fuel)%nat) by lia.
    rewrite (read_dict_items_at (decodes_all_items IH Hwf Hfd Hc)
               (i := 0)
               (d := {| num_items := num_items d;
                        items := items spc_dictionary_create |})
               Hn (eq_sym Hnum) Hr).
    cbn [bind num_items items spc_dictionary_create].
    rewrite app_nil_r, (reverse_items_nul_free _ Hwf).
    cbn [reverse_dicts]. finish_reader.
  - (* SEND_PORT *)
    rewrite (spc_reader_next_port_at Hr).
    finish_reader.
  - (* RECV_PORT *)
    rewrite (spc_reader_next_port_at Hr).
    finish_reader.
  - (* UUID *)
    apply in_range_spec in Hwf.
    rewrite (spc_read_at Hr (len := 0x10)) by now rewrite le_bytes_length.
    cbn [bind]. rewrite le_value_le_bytes_small by exact Hwf.
    finish_reader.
  - (* DATA *)
    apply Z.ltb_lt in Hwf.
    rewrite (spc_read_uint32_at Hr), Z.mod_small by lia. cbn [bind].
    apply holds_after_uint32 in Hr.
    rewrite (spc_read_padded_at Hr). cbn [bind].
    unfold padded at 1.
    rewrite Nat2Z.id, firstn_app, Nat.sub_diag, firstn_all, firstn_O,
      app_nil_r.
    finish_reader.
Qed.
End DecoderSpec.

(* ================================================================== *)
(** * The envelope *)

Section EnvelopeSpec.
Context `{spc_types}.

Lemma spc_serialize_spec (heap : Z -> byte) (msg : spc_message_t) :
  let ports := dict_ports (content msg) in
  let m := spc_serialize heap msg in
  buf m = wire_descriptors heap ports ++ wire_inline msg
  /\ msgh_size (header m) = u32 (wire_size msg)
  /\ msgh_bits (header m)
     = u32 (Z.lor (match ports with
                   | [] => 0
                   | _ :: _ => MACH_MSGH_BITS_COMPLEX
                   end)
              (MACH_MSGH_BITS (type (remote_port msg))
                 (type (local_port msg))))
  /\ msgh_remote_port (header m) = u32 (name (remote_port msg))
  /\ msgh_local_port (header m) = u32 (name (local_port msg))
  /\ msgh_id (header m) = id msg.
Proof.
  intros ports m. subst m. unfold spc_serialize.
  set (w0 := {| w_buf := []; w_end := num_items (content msg) * 32;
                w_ports := [] |}).
  destruct (spc_write_spec w0 magic) as [_ A0].
  destruct (spc_write w0 magic) as [n0 w1]. cbn [snd] in A0.
  pose proof (spc_serialize_value_spec (SPC_DICT (content msg)) w1) as [_ A1].
  cbn [spc_serialize_value value_type] in A1.
  unfold spc_write_dict.
  destruct (spc_write_uint32 w1 SPC_TYPE_DICT) as [n1 w2].
  destruct (write_dict_with spc_serialize_value w2 (content msg)) as [n2 w3].
  cbn [snd] in A1.
  destruct (appended_trans A0 A1) as [B P]. subst w0.
  cbn [w_buf w_ports app] in B, P. cbn [value_ports] in P.
  fold (dict_ports (content msg)) in P. fold ports in P.
  unfold w_ptr. rewrite B, P.
  fold (wire_inline msg). unfold wire_size, wire_descriptors.
  fold ports.
  destruct ports as [|p ports'] eqn:Eports.
  - cbn [length Z.of_nat Z.eqb negb header buf msgh_size msgh_bits
         msgh_remote_port msgh_local_port msgh_id app].
    repeat split; f_equal; lia.
  - assert (E : (Z.of_nat (length (p :: ports')) =? 0) = false)
      by (apply Z.eqb_neq; cbn [length]; lia).
    rewrite E.
    cbn [negb header buf msgh_size msgh_bits msgh_remote_port
         msgh_local_port msgh_id].
    repeat split; f_equal; lia.
Qed.
End EnvelopeSpec.

(* ================================================================== *)
(** * Decoding an encoded message *)

Lemma nth_skipn_add {A : Type} (n k : nat) (l : list A) (d : A) :
  nth (n + k) l d = nth k (skipn n l) d.
Proof.
  revert l. induction n as [|n IH]; intros l; [reflexivity|].
  destruct l as [|x l]; [now destruct k|]. cbn. apply IH.
Qed.

Lemma port_descriptor_fields (heap : Z -> byte) (off : Z) (p : spc_port_t)
  (tail : list byte) :
  let d := port_descriptor heap off p in
  length d = 12%nat
  /\ nth 11 (d ++ tail) x00 = byte_of_Z MACH_MSG_PORT_DESCRIPTOR
  /\ firstn 4 d = le_bytes 4 (name p)
  /\ nth 10 d x00 = byte_of_Z (type p).
Proof. repeat split; reflexivity. Qed.

Lemma write_descriptors_length (heap : Z -> byte) (off : Z)
  (ps : list spc_port_t) :
  length (write_descriptors heap off ps) = (12 * length ps)%nat.
Proof.
  revert off. induction ps as [|q ps IH]; intros o; [reflexivity|].
  cbn [write_descriptors]. rewrite length_app, IH.
  change (length (port_descriptor heap o q)) with 12%nat.
  cbn [length]. lia.
Qed.

Lemma read_descriptors_at (heap : Z -> byte) (ps : list spc_port_t) :
  Forall (fun p => port_ok p = true) ps ->
  forall fuel i count off r rest,
    (length ps < fuel)%nat ->
    count = i + Z.of_nat (length ps) ->
    0 <= r_ptr r -> 0 <= next_port r ->
    r_rest r = write_descriptors heap off ps ++ rest ->
    r_ptr r + 12 * Z.of_nat (length ps) <= r_end r ->
    read_descriptors fuel i count r
    = Returned {| r_mem := r_mem r;
                  r_end := r_end r;
                  r_ptr := r_ptr r + 12 * Z.of_nat (length ps);
                  next_port := next_port r;
                  r_ports := r_ports r ++ ps |}.
Proof.
  induction 1 as [|p ps Hp _ IH];
    intros fuel i count off r rest Hf Hc Hptr Hnp Hrest Hend;
    (destruct fuel as [|fuel]; [cbn in Hf; lia|]); cbn [read_descriptors].
  - cbn [length] in *. rewrite (proj2 (Z.ltb_ge _ _)) by lia.
    destruct r. cbn. rewrite app_nil_r. do 2 f_equal. lia.
  - cbn [length] in Hc, Hf, Hend. rewrite (proj2 (Z.ltb_lt _ _)) by lia.
    cbn [write_descriptors] in Hrest. rewrite <- app_assoc in Hrest.
    destruct (port_descriptor_fields heap off p
                (write_descriptors heap
                   (off + sizeof_mach_msg_port_descriptor_t) ps ++ rest))
      as (Hlen & Htype & Hname & Hdisp).
    rewrite Z2Nat.inj_add, nth_skipn_add by lia. fold (r_rest r).
    rewrite Hrest. change (Z.to_nat 11) with 11%nat.
    rewrite Htype, Z_of_byte_of_Z.
    change (MACH_MSG_PORT_DESCRIPTOR mod 256 =? MACH_MSG_PORT_DESCRIPTOR)
      with true.
    cbv iota.
    assert (Hr : holds r (port_descriptor heap off p ++ []) []).
    { split; [split; [exact Hptr|split]|split; [exact Hnp|]].
      - exists (write_descriptors heap
                  (off + sizeof_mach_msg_port_descriptor_t) ps ++ rest).
        rewrite <- app_assoc. exact Hrest.
      - rewrite app_nil_r, Hlen. lia.
      - eexists. reflexivity. }
    rewrite (spc_read_at Hr (len := sizeof_mach_msg_port_descriptor_t))
      by (rewrite Hlen; reflexivity).
    cbn [bind].
    assert (Hrest' : r_rest (moved r sizeof_mach_msg_port_descriptor_t 0)
                     = write_descriptors heap
                         (off + sizeof_mach_msg_port_descriptor_t) ps
                         ++ rest).
    { unfold r_rest in Hrest |- *. cbn [moved r_mem r_ptr].
      rewrite Z2Nat.inj_add by (unfold sizeof_mach_msg_port_descriptor_t; lia).
      change (Z.to_nat sizeof_mach_msg_port_descriptor_t) with 12%nat.
      rewrite <- Hlen. now apply skipn_app_exact. }
    apply andb_true_iff in Hp as [Hn Ht].
    apply in_range_spec in Hn. apply in_range_spec in Ht.
    rewrite Hname, Hdisp, Z_of_byte_of_Z, le_value_le_bytes_small by exact Hn.
    rewrite (Z.mod_small (type p)) by exact Ht.
    erewrite (IH fuel (i + 1) count
                (off + sizeof_mach_msg_port_descriptor_t) _ rest);
      cbn [r_mem r_end r_ptr next_port r_ports moved];
      unfold sizeof_mach_msg_port_descriptor_t in *;
      [ | lia | lia | lia | lia | | lia ].
    + rewrite <- app_assoc. cbn [app]. destruct p. cbn [name type].
      do 2 f_equal; cbn [length]; lia.
    + exact Hrest'.
Qed.

Arguments read_descriptors_at [heap ps] _ [fuel i count off r rest] _ _ _ _ _ _.

Lemma well_formed_ports (v : spc_value_t) :
  well_formed v = true -> Forall (fun p => port_ok p = true) (value_ports v).
Proof.
  induction v as [ | u | u | i | d | s | a IH | d IH | p | p | p | u | d | t ]
    using spc_value_induction; cbn [well_formed value_ports]; intros Hwf;
    try (constructor; [exact Hwf|constructor]); try constructor.
  - apply andb_true_iff in Hwf as [_ Hwf].
    induction IH as [|v a Hv _ IHa]; [constructor|].
    cbn [forallb flat_map] in *. apply andb_true_iff in Hwf as [Hv' Ha].
    apply Forall_app. split; [now apply Hv|now apply IHa].
  - apply andb_true_iff in Hwf as [_ Hwf].
    induction IH as [|it l Hv _ IHl]; [constructor|].
    cbn [forallb flat_map] in *. apply andb_true_iff in Hwf as [Hit Hl].
    apply andb_true_iff in Hit as [_ Hv'].
    apply Forall_app. split; [now apply Hv|now apply IHl].
Qed.

Section Roundtrip.
Context `{spc_types}.
Hypothesis types_ok : spc_types_ok.

Lemma wire_value_min (v : spc_value_t) : (4 <= length (wire_value v))%nat.
Proof.
  destruct v; cbn [wire_value]; rewrite length_app, le_bytes_length; lia.
Qed.

(** Twice the fuel that a record takes, and two more, is no more than
    its length in bytes. *)
Lemma cost_le_wire (v : spc_value_t) :
  (2 * cost v + 2 <= length (wire_value v))%nat.
Proof.
  induction v as [ | u | u | i | d | s | a IH | d IH | p | p | p | u | d | t ]
    using spc_value_induction;
    cbn [cost wire_value]; unfold container_body;
    rewrite ?length_app, ?le_bytes_length; try lia.
  - assert (Hs : (2 * list_sum (map cost a) + 2 * length a
                  <= length (flat_map wire_value a))%nat).
    { induction IH as [|v a Hv _ IHa]; [cbn; lia|].
      unfold list_sum in *.
      cbn [map fold_right flat_map length]. rewrite length_app. lia. }
    lia.
  - assert (Hs : (2 * list_sum (map (fun it => cost (value it)) (items d))
                  + 2 * length (items d)
                  <= length (flat_map
                               (fun it => padded_cstr (key it)
                                            ++ wire_value (value it))
                               (items d)))%nat).
    { induction IH as [|it l Hv _ IHl]; [cbn; lia|].
      unfold list_sum in *.
      cbn [map fold_right flat_map length]. rewrite !length_app. lia. }
    lia.
Qed.

(** ** The header bits *)

Lemma In_iota (n : nat) (off x : Z) :
  off <= x < off + Z.of_nat n -> In x (iota off n).
Proof.
  revert off. induction n as [|n IH]; intros off Hx; [lia|].
  cbn [iota]. destruct (Z.eq_dec off x) as [->|Hne]; [now left|].
  right. apply IH. lia.
Qed.

Lemma header_bits_fields (complex remote local : Z) :
  complex = 0 \/ complex = MACH_MSGH_BITS_COMPLEX ->
  0 <= remote < 32 -> 0 <= local < 32 ->
  let bits := u32 (Z.lor complex (MACH_MSGH_BITS remote local)) in
  Z.land bits MACH_MSGH_BITS_COMPLEX = complex
  /\ MACH_MSGH_BITS_REMOTE bits = remote
  /\ MACH_MSGH_BITS_LOCAL bits = local.
Proof.
  intros Hc Hr Hl.
  assert (Hcheck : header_bits_check complex = true)
    by (destruct Hc as [-> | ->]; vm_compute; reflexivity).
  unfold header_bits_check in Hcheck.
  rewrite forallb_forall in Hcheck.
  specialize (Hcheck remote (@In_iota 32 0 remote ltac:(lia))).
  rewrite forallb_forall in Hcheck.
  specialize (Hcheck local (@In_iota 32 0 local ltac:(lia))).
  cbv zeta in Hcheck.
  apply andb_true_iff in Hcheck as [Hcheck H3].
  apply andb_true_iff in Hcheck as [H1 H2].
  apply Z.eqb_eq in H1, H2, H3. auto.
Qed.
End Roundtrip.

(** ** The round trip *)

Section RoundtripTheorem.
Context `{spc_types}.
Hypothesis types_ok : spc_types_ok.

Lemma spc_deserialize_serialize (heap : Z -> byte) (msg : spc_message_t) :
  well_formed_message msg = true ->
  fd_free (SPC_DICT (content msg)) = true ->
  spc_deserialize (spc_serialize heap msg)
  = Returned (Some (decoded_message msg)).
Proof.
  intros Hwf Hfd. unfold well_formed_message in Hwf.
  apply andb_true_iff in Hwf as [Hwf Hsize].
  apply andb_true_iff in Hwf as [Hwf Hcontent].
  apply andb_true_iff in Hwf as [Hwf Hid].
  apply andb_true_iff in Hwf as [Hremote Hlocal].
  apply andb_true_iff in Hremote as [Hrn Hrt].
  apply andb_true_iff in Hlocal as [Hln Hlt].
  apply in_range_spec in Hrn, Hrt, Hln, Hlt.
  apply Z.ltb_lt in Hsize. apply negb_true_iff in Hid.
  pose proof (well_formed_ports _ Hcontent) as Hports.
  cbn [value_ports] in Hports. fold (dict_ports (content msg)) in Hports.
  pose proof (cost_le_wire (SPC_DICT (content msg))) as Hcost.
  pose proof (spc_deserialize_value_wire types_ok (SPC_DICT (content msg))
                Hcontent Hfd) as Hdec.
  destruct (spc_serialize_spec heap msg)
    as (Hbuf & Hmsize & Hbits & Hrp & Hlp & Hmid).
  destruct (spc_serialize heap msg) as [[bits size rp lp mid] b].
  cbn [header buf msgh_size msgh_bits msgh_remote_port msgh_local_port
       msgh_id] in *.
  subst bits size rp lp mid b.
  unfold spc_deserialize.
  cbn [header buf msgh_size msgh_bits msgh_remote_port msgh_local_port
       msgh_id].
  rewrite Hid.
  assert (Hws : 0 <= wire_size msg).
  { unfold wire_size, sizeof_mach_msg_header_t, sizeof_mach_msg_body_t,
      sizeof_mach_msg_port_descriptor_t.
    destruct (dict_ports (content msg)); lia. }
  rewrite (@u32_small (wire_size msg)) by lia.
  rewrite (@u32_small (name (remote_port msg))) by lia.
  set (complex := match dict_ports (content msg) with
                  | [] => 0
                  | _ :: _ => MACH_MSGH_BITS_COMPLEX
                  end).
  assert (Hcomplex : complex = 0 \/ complex = MACH_MSGH_BITS_COMPLEX)
    by (subst complex; destruct (dict_ports (content msg)); auto).
  destruct (header_bits_fields Hcomplex Hrt Hlt) as (Hb1 & Hb2 & Hb3).
  rewrite Hb1, Hb2, Hb3.
  assert (Htail :
    forall r,
      holds r (magic ++ wire_value (SPC_DICT (content msg)) ++ [])
        (dict_ports (content msg) ++ []) ->
      r_end r - r_ptr r = Z.of_nat (length (wire_inline msg)) ->
      ('(prefix, reader) <- spc_read r 8 ;;
       if negb (if list_eq_dec Byte.byte_eq_dec prefix magic
                then true else false)
       then Returned None
       else
         '(value, reader) <- spc_deserialize_value (fuel_for reader) reader ;;
         match value with
         | SPC_DICT dict =>
             Returned
               (Some
                  {| remote_port :=
                       {| name := name (remote_port msg);
                          type := type (remote_port msg) |};
                     local_port :=
                       {| name := name (remote_port msg);
                          type := type (local_port msg) |};
                     id := id msg;
                     content := dict |})
         | _ => Returned None
         end)
      = Returned (Some (decoded_message msg))).
  { intros r Hr Hlen.
    rewrite (spc_read_at Hr (len := 8)) by reflexivity. cbn [bind].
    destruct (list_eq_dec Byte.byte_eq_dec magic magic) as [_|Hne];
      [|now elim Hne].
    cbn [negb].
    apply holds_after_bytes with (n := 8) in Hr; [|reflexivity].
    rewrite (Hdec (fuel_for (moved r 8 0)) ltac:(
               unfold fuel_for, wire_inline in *;
               cbn [moved r_end r_ptr];
               rewrite length_app in Hlen; cbn [length magic] in Hlen; lia)
               _ _ _ Hr).
    cbn [bind reverse_dicts]. unfold decoded_message.
    destruct (remote_port msg). reflexivity. }
  unfold wire_descriptors, wire_size in *. subst complex.
  destruct (dict_ports (content msg)) as [|p ports] eqn:Eports.
  - cbn [Z.eqb negb bind app].
    apply Htail; [|cbn [r_end r_ptr];
                   unfold sizeof_mach_msg_header_t; lia].
    split; [split; [cbn; lia|split]|split; [cbn; lia|]].
    + exists []. unfold r_rest. cbn [r_ptr r_mem skipn Z.to_nat app].
      unfold wire_inline. rewrite !app_nil_r. reflexivity.
    + cbn [r_ptr r_end]. unfold wire_inline, sizeof_mach_msg_header_t in *.
      rewrite app_nil_r. lia.
    + exists []. reflexivity.
  - change (MACH_MSGH_BITS_COMPLEX =? 0) with false. cbn [negb].
    unfold sizeof_mach_msg_header_t, sizeof_mach_msg_body_t,
      sizeof_mach_msg_port_descriptor_t in Hsize, Hws |- *.
    set (n := Z.of_nat (length (p :: ports))) in *.
    assert (Hn : 0 <= n) by (subst n; lia).
    set (r0 := {| r_mem := _; r_end := _; r_ptr := 0; next_port := 0;
                  r_ports := [] |}).
    assert (Hr0 : holds r0 (le_bytes 4 n ++ []) []).
    { split; [split; [cbn; lia|split]|split; [cbn; lia|]].
      - exists (write_descriptors heap (24 + 4) (p :: ports)
                  ++ wire_inline msg).
        unfold r_rest. cbn [r0 r_ptr r_mem skipn Z.to_nat].
        rewrite app_nil_r, <- app_assoc. reflexivity.
      - cbn [r0 r_ptr r_end]. rewrite app_nil_r, le_bytes_length. lia.
      - exists []. reflexivity. }
    rewrite (spc_read_at Hr0 (len := 4)) by now rewrite le_bytes_length.
    cbn [bind]. rewrite le_value_le_bytes_small
      by (change (256 ^ Z.of_nat 4) with (2 ^ 32); lia).
    erewrite (read_descriptors_at (heap := heap) Hports
                (off := 24 + 4) (rest := wire_inline msg));
      cbn [moved r0 r_mem r_end r_ptr next_port r_ports];
      [ | unfold fuel_for; cbn [moved r0 r_end r_ptr]; fold n; lia
        | fold n; lia | lia | lia | | fold n; lia ].
    + cbn [bind]. apply Htail; [|cbn [r_end r_ptr]; fold n; lia].
      split; [split; [cbn [r_ptr]; fold n; lia|split]|split; [cbn; lia|]].
      * exists []. unfold r_rest. cbn [r_ptr r_mem].
        rewrite !app_nil_r.
        replace (Z.to_nat (0 + 4 + 12 * Z.of_nat (length (p :: ports))))
          with (0 + length (le_bytes 4 n)
                + length (write_descriptors heap (24 + 4) (p :: ports)))%nat
          by (rewrite write_descriptors_length, le_bytes_length; lia).
        apply skipn_app_exact, skipn_app_exact. cbn [skipn].
        unfold wire_inline. now rewrite <- app_assoc.
      * cbn [r_ptr r_end]. fold n. unfold wire_inline in *.
        rewrite app_nil_r. lia.
      * exists []. cbn [next_port r_ports].
        change (Z.to_nat (0 + 0)) with 0%nat. cbn [skipn app].
        now rewrite !app_nil_r.
    + unfold r_rest. cbn [moved r0 r_mem r_ptr].
      change (Z.to_nat (0 + 4)) with (0 + length (le_bytes 4 n))%nat.
      apply skipn_app_exact. cbn [skipn]. now rewrite <- app_assoc.
Qed.
End RoundtripTheorem.

(* ================================================================== *)
(** * Sizes and alignment of what the writer produces *)

Lemma slice_middle (pre mid post : list byte) :
  slice (pre ++ mid ++ post) (Z.of_nat (length pre)) (Z.of_nat (length mid))
  = mid.
Proof.
  unfold slice. rewrite !Nat2Z.id.
  rewrite skipn_app, skipn_all, Nat.sub_diag. cbn [skipn app].
  rewrite firstn_app, Nat.sub_diag, firstn_all, firstn_O. apply app_nil_r.
Qed.

Lemma appended_ptr (w w' : writer_t) bytes ports :
  appended w bytes ports w' ->
  w_ptr w' = w_ptr w + Z.of_nat (length bytes).
Proof.
  intros [B _]. unfold w_ptr. rewrite B, length_app. lia.
Qed.

Section Sizes.
Context `{spc_types}.

Lemma write_container_spec (w : writer_t) (c : container) :
  fst (write_container w c) = Z.of_nat (length (container_payload c)) + 4
  /\ appended w (container_body (container_payload c))
       (match c with
        | Array a => flat_map value_ports a
        | Dict d => dict_ports d
        end)
       (snd (write_container w c)).
Proof.
  destruct c as [a|d]; cbn [write_container container_payload].
  - apply write_array_with_spec.
    apply Forall_forall. intros v _. apply spc_serialize_value_spec.
  - apply write_dict_with_spec.
    apply Forall_forall. intros it _. apply spc_serialize_value_spec.
Qed.

Lemma padded_aligned (bytes : list byte) :
  Z.of_nat (length (padded bytes)) mod 4 = 0.
Proof. rewrite padded_length. apply remainder_of_aligned. Qed.

Lemma mod4_add (a b : Z) : a mod 4 = 0 -> b mod 4 = 0 -> (a + b) mod 4 = 0.
Proof.
  intros Ha Hb. rewrite Z.add_mod, Ha, Hb by lia. reflexivity.
Qed.

Lemma wire_value_aligned (v : spc_value_t) :
  Z.of_nat (length (wire_value v)) mod 4 = 0.
Proof.
  induction v as [ | u | u | i | d | s | a IH | d IH | p | p | p | u | d | t ]
    using spc_value_induction;
    cbn [wire_value]; unfold container_body, padded_cstr;
    rewrite ?length_app, ?Nat2Z.inj_add, ?le_bytes_length;
    repeat apply mod4_add; try reflexivity; try apply padded_aligned.
  - induction IH as [|v a Hv _ IHa]; [reflexivity|].
    cbn [flat_map]. rewrite length_app, Nat2Z.inj_add. now apply mod4_add.
  - induction IH as [|it l Hv _ IHl]; [reflexivity|].
    cbn [flat_map]. rewrite !length_app, !Nat2Z.inj_add.
    repeat apply mod4_add; try assumption. apply padded_aligned.
Qed.
End Sizes.

(* ================================================================== *)
(** * The table of the XPC type tags *)

Lemma xpc_types_ok : @spc_types_ok xpc_types.
Proof.
  split.
  - unfold all_types. cbn.
    repeat (constructor; [cbn; intuition discriminate|]). constructor.
  - unfold all_types. cbn. repeat (constructor; [lia|]). constructor.
Qed.

(* ================================================================== *)
(** * The claims on the writer *)

(** Claim C4, as the code has it.  For an array or a dictionary whose
    payload is shorter than 2^32 bytes, the writer stamps into the four
    bytes at the container's own header position the number of the
    payload bytes that it wrote behind them (the element count and all
    the encoded entries: keys, values, and the size fields of nested
    containers), and it returns that number plus 4. *)
Theorem container_byte_size_is_payload_length `{spc_types}
  (w : writer_t) (c : container) :
  Z.of_nat (length (container_payload c)) < 2 ^ 32 ->
  let r := write_container w c in
  let field := slice (w_buf (snd r)) (w_ptr w) 4 in
  w_buf (snd r) = w_buf w ++ field ++ container_payload c
  /\ le_value field = Z.of_nat (length (container_payload c))
  /\ fst r = Z.of_nat (length (container_payload c)) + 4.
Proof.
  intros Hfit r field.
  destruct (write_container_spec w c) as [Hn [Hbuf _]].
  fold r in Hn, Hbuf. unfold container_body in Hbuf.
  assert (Hfield : field
                   = le_bytes 4 (Z.of_nat (length (container_payload c)))).
  { subst field. rewrite Hbuf. unfold w_ptr.
    change 4 with (Z.of_nat
                     (length (le_bytes 4
                                (Z.of_nat (length (container_payload c)))))).
    apply slice_middle. }
  rewrite Hfield. repeat split; [exact Hbuf| |exact Hn].
  apply le_value_le_bytes_small.
  change (256 ^ Z.of_nat 4) with (2 ^ 32). lia.
Qed.

Lemma container_byte_size_witness :
  Z.of_nat (length (container_payload (H := xpc_types) (Array sample_array)))
  < 2 ^ 32
  /\ let r := write_container (H := xpc_types) fresh_writer
                (Array sample_array) in
     let field := slice (w_buf (snd r)) (w_ptr fresh_writer) 4 in
     w_buf (snd r)
     = w_buf fresh_writer ++ field
         ++ container_payload (H := xpc_types) (Array sample_array)
     /\ le_value field
        = Z.of_nat (length (container_payload (H := xpc_types)
                              (Array sample_array)))
     /\ fst r
        = Z.of_nat (length (container_payload (H := xpc_types)
                              (Array sample_array))) + 4.
Proof.
  split; [vm_compute; reflexivity|].
  apply (@container_byte_size_is_payload_length xpc_types fresh_writer
           (Array sample_array)).
  vm_compute; reflexivity.
Defined.

(** The field holds the number of the payload bytes modulo 2^32, for
    every container: [bytes_written] is a [size_t], the field a
    [uint32_t]. *)
Lemma container_byte_size_field `{spc_types} (w : writer_t) (c : container) :
  le_value (slice (w_buf (snd (write_container w c))) (w_ptr w) 4)
  = Z.of_nat (length (container_payload c)) mod 2 ^ 32.
Proof.
  destruct (write_container_spec w c) as [_ [Hbuf _]].
  unfold container_body in Hbuf. rewrite Hbuf. unfold w_ptr.
  change 4 with (Z.of_nat
                   (length (le_bytes 4
                              (Z.of_nat (length (container_payload c)))))).
  rewrite slice_middle. apply le_value_le_bytes.
Qed.

Lemma data_array_payload_length `{spc_types} (d1 d2 : list byte) :
  Z.of_nat (length (container_payload (Array [SPC_DATA d1; SPC_DATA d2])))
  = 20 + Z.of_nat (length d1) + remainder_of (Z.of_nat (length d1))
    + Z.of_nat (length d2) + remainder_of (Z.of_nat (length d2)).
Proof.
  cbn [container_payload]. unfold wire_array_payload.
  cbn [flat_map wire_value].
  rewrite !length_app, !le_bytes_length, !Nat2Z.inj_add, !padded_length.
  cbn [length]. lia.
Qed.

(** Claim C4, as stated, fails.  The array that holds two data blobs of
    2^31 bytes each is well formed: every size and count in it fits its
    32-bit field.  Its payload has 2^32 + 20 bytes, the byte-size field
    holds 20, and the writer returns 2^32 + 24. *)
Lemma container_byte_size_wraps :
  let r := write_container (H := xpc_types) fresh_writer (Array huge_array) in
  let field := slice (w_buf (snd r)) (w_ptr fresh_writer) 4 in
  well_formed (SPC_ARRAY huge_array) = true
  /\ Z.of_nat (length (container_payload (H := xpc_types) (Array huge_array)))
     = 2 ^ 32 + 20
  /\ le_value field = 20
  /\ le_value field
     <> Z.of_nat (length (container_payload (H := xpc_types)
                            (Array huge_array)))
  /\ fst r = 2 ^ 32 + 24.
Proof.
  intros r field.
  assert (Hblob : Z.of_nat (length (repeat x00 (Z.to_nat (2 ^ 31))))
                  = 2 ^ 31).
  { rewrite repeat_length, Z2Nat.id by (intros E; discriminate E).
    reflexivity. }
  assert (Hlen : Z.of_nat (length (container_payload (H := xpc_types)
                                     (Array huge_array)))
                 = 2 ^ 32 + 20).
  { unfold huge_array. rewrite data_array_payload_length, Hblob.
    reflexivity. }
  assert (Hfield : le_value field = 20).
  { subst field r. rewrite container_byte_size_field, Hlen. reflexivity. }
  split.
  { unfold huge_array. cbn [well_formed forallb length].
    rewrite Hblob. reflexivity. }
  split; [exact Hlen|]. split; [exact Hfield|]. split.
  - rewrite Hfield, Hlen. intros E. discriminate E.
  - destruct (write_container_spec (H := xpc_types) fresh_writer
                (Array huge_array)) as [Hn _].
    subst r. rewrite Hn, Hlen. reflexivity.
Qed.

(** Claim C5.  The padded write appends the bytes and then exactly
    [(4 - len mod 4) mod 4] zero bytes, and returns the sum of the two
    counts.  So a cursor that is a multiple of 4 is one again after a
    padded write, after a string, and after any value record: starting
    from the empty buffer, every string and every data blob of a message
    ends on a multiple of 4. *)
Theorem write_padded_pads_to_alignment `{spc_types}
  (w : writer_t) (bytes : list byte) (v : spc_value_t) :
  let len := Z.of_nat (length bytes) in
  let r := spc_write_padded w bytes in
  (w_buf (snd r)
   = w_buf w ++ bytes ++ repeat x00 (Z.to_nat ((4 - len mod 4) mod 4))
   /\ fst r = len + (4 - len mod 4) mod 4)
  /\ (w_ptr w mod 4 = 0 ->
      w_ptr (snd r) mod 4 = 0
      /\ w_ptr (snd (spc_write_str w bytes)) mod 4 = 0
      /\ w_ptr (snd (spc_serialize_value w v)) mod 4 = 0).
Proof.
  intros len r. subst len r. split; [split|].
  - destruct (spc_write_padded_spec w bytes) as [_ [B _]].
    rewrite B. reflexivity.
  - reflexivity.
  - intros Hw. repeat split.
    + destruct (spc_write_padded_spec w bytes) as [_ A].
      rewrite (appended_ptr A). apply mod4_add; [exact Hw|].
      apply padded_aligned.
    + destruct (spc_write_str_spec w bytes) as [_ A].
      rewrite (appended_ptr A). apply mod4_add; [exact Hw|].
      apply padded_aligned.
    + destruct (spc_serialize_value_spec v w) as [_ A].
      rewrite (appended_ptr A). apply mod4_add; [exact Hw|].
      apply wire_value_aligned.
Qed.

Lemma write_padded_witness :
  let w := fresh_writer in
  let bytes := [x01; x02; x03; x04; x05] in
  let r := spc_write_padded w bytes in
  (w_buf (snd r) = [x01; x02; x03; x04; x05; x00; x00; x00] /\ fst r = 8)
  /\ w_ptr w mod 4 = 0
  /\ w_ptr (snd r) mod 4 = 0
  /\ w_ptr (snd (spc_write_str w bytes)) mod 4 = 0
  /\ w_ptr (snd (spc_serialize_value (H := xpc_types) w
                   (SPC_ARRAY sample_array))) mod 4 = 0.
Proof.
  pose proof (@write_padded_pads_to_alignment xpc_types fresh_writer
                [x01; x02; x03; x04; x05] (SPC_ARRAY sample_array))
    as [Hbytes Haligned].
  split; [exact Hbytes|].
  split; [reflexivity|]. apply Haligned. reflexivity.
Defined.

(** Claim C10.  The byte count that [spc_serialize_value] returns is the
    number of bytes by which the cursor advanced, for every value and
    every writer state, and so it is for the two container writers.
    For a port-typed value the count is 4: the tag is written and the
    port is collected, which leaves the buffer alone.  For a container
    the count is the size that was patched into its field, plus the 4
    bytes of the field. *)
Theorem serialize_value_returns_cursor_advance `{spc_types}
  (w : writer_t) (v : spc_value_t) (c : container) :
  fst (spc_serialize_value w v) = w_ptr (snd (spc_serialize_value w v)) - w_ptr w
  /\ fst (write_container w c) = w_ptr (snd (write_container w c)) - w_ptr w
  /\ fst (write_container w c)
     = Z.of_nat (length (container_payload c)) + 4
  /\ match v with
     | SPC_FD p | SPC_SEND_PORT p | SPC_RECV_PORT p =>
         fst (spc_serialize_value w v) = 4
         /\ w_buf (snd (spc_serialize_value w v))
            = w_buf w ++ le_bytes 4 (value_type v)
         /\ w_ports (snd (spc_serialize_value w v)) = w_ports w ++ [p]
     | _ => True
     end.
Proof.
  destruct (spc_serialize_value_spec v w) as [Hn A].
  destruct (write_container_spec w c) as [Hc Ac].
  repeat split.
  - rewrite (appended_ptr A), Hn. lia.
  - rewrite (appended_ptr Ac), Hc, container_body_length. lia.
  - exact Hc.
  - destruct v; try exact I; destruct A as [B P];
      cbn [wire_value value_ports] in Hn, B, P;
      rewrite app_nil_r in Hn, B; rewrite le_bytes_length in Hn;
      repeat split; assumption.
Qed.

(* ================================================================== *)
(** * The claims on the decoder *)

Lemma bind_returned {A B : Type} (c : outcome A) (k : A -> outcome B) (b : B) :
  bind c k = Returned b -> exists a, c = Returned a /\ k a = Returned b.
Proof. destruct c; cbn; try discriminate. intros E. eauto. Qed.

(** What [spc_deserialize] puts into the ports and the id of the
    message it returns. *)
Lemma spc_deserialize_header `{spc_types} (mach_msg : spc_mach_message_t)
  (msg : spc_message_t) :
  spc_deserialize mach_msg = Returned (Some msg) ->
  remote_port msg
  = {| name := msgh_remote_port (header mach_msg);
       type := MACH_MSGH_BITS_REMOTE (msgh_bits (header mach_msg)) |}
  /\ local_port msg
     = {| name := msgh_remote_port (header mach_msg);
          type := MACH_MSGH_BITS_LOCAL (msgh_bits (header mach_msg)) |}
  /\ id msg = msgh_id (header mach_msg).
Proof.
  unfold spc_deserialize. intros E.
  destruct (msgh_id (header mach_msg) =? MSGID_CONNECTION_INTERRUPTED);
    [discriminate|].
  apply bind_returned in E as (r1 & _ & E).
  apply bind_returned in E as ([prefix r2] & _ & E).
  destruct (negb _); [discriminate|].
  apply bind_returned in E as ([v r3] & _ & E).
  destruct v; try discriminate. injection E as <-. cbn. auto.
Qed.

(** Claim C1, as the code has it.  For every well-formed message whose
    id is not 71 and whose content holds no FD value, deserializing the
    wire message that [spc_serialize] makes of it returns a message, and
    its content is the content of the original with the entries of every
    dictionary, at every depth, in reverse order: same tags, same scalar
    bytes, same array order, same port at every port-typed value.
    ([decoded_message] also shows the ports of the header as they come
    back.) *)
Theorem roundtrip_reverses_dictionaries `{spc_types}
  (heap : Z -> byte) (msg : spc_message_t) :
  spc_types_ok ->
  well_formed_message msg = true ->
  fd_free (SPC_DICT (content msg)) = true ->
  spc_deserialize (spc_serialize heap msg)
  = Returned (Some (decoded_message msg))
  /\ content (decoded_message msg) = reverse_dict (content msg).
Proof.
  intros Hok Hwf Hfd. split; [|reflexivity].
  now apply spc_deserialize_serialize.
Qed.

Lemma roundtrip_witness :
  @spc_types_ok xpc_types
  /\ well_formed_message (H := xpc_types) sample_message = true
  /\ fd_free (SPC_DICT (content sample_message)) = true
  /\ spc_deserialize (H := xpc_types)
       (spc_serialize (H := xpc_types) zero_heap sample_message)
     = Returned (Some (decoded_message sample_message))
  /\ content (decoded_message sample_message)
     = reverse_dict (content sample_message).
Proof.
  split; [exact xpc_types_ok|].
  split; [vm_compute; reflexivity|].
  split; [vm_compute; reflexivity|].
  apply (@roundtrip_reverses_dictionaries xpc_types zero_heap sample_message).
  - exact xpc_types_ok.
  - vm_compute; reflexivity.
  - vm_compute; reflexivity.
Defined.

(** Claim C1, as stated, fails: the dictionary [{"a": true, "b": false}]
    comes back as [{"b": false, "a": true}]. *)
Lemma roundtrip_reorders_two_items :
  well_formed_message (H := xpc_types) two_items_message = true
  /\ fd_free (SPC_DICT (content two_items_message)) = true
  /\ exists msg',
       spc_deserialize (H := xpc_types)
         (spc_serialize (H := xpc_types) zero_heap two_items_message)
       = Returned (Some msg')
       /\ items (content msg')
          = [item [x62] (SPC_BOOL 0); item [x61] (SPC_BOOL 1)]
       /\ content msg' <> content two_items_message.
Proof.
  split; [vm_compute; reflexivity|].
  split; [vm_compute; reflexivity|].
  eexists. split; [vm_compute; reflexivity|].
  split; [reflexivity|discriminate].
Qed.

(** Claim C2: the code departs from it.  The message that
    [spc_deserialize] returns for a wire message whose header names the
    remote port 0x103 and the local port 0x207 has 0x103 as the name of
    its local port: the name is taken from [msgh_remote_port]. *)
Theorem local_port_name_is_the_remote_one :
  exists msg,
    spc_deserialize (H := xpc_types) (empty_dict_wire 0) = Returned (Some msg)
    /\ name (local_port msg) = msgh_remote_port (header (empty_dict_wire 0))
    /\ name (local_port msg) <> msgh_local_port (header (empty_dict_wire 0))
    /\ name (remote_port msg) = msgh_remote_port (header (empty_dict_wire 0))
    /\ type (remote_port msg) = 19
    /\ type (local_port msg) = 21.
Proof.
  eexists. split; [vm_compute; reflexivity|].
  cbn. repeat split; try reflexivity. discriminate.
Qed.

(** Claim C3: the code departs from it.  A record with the tag FD makes
    the decoder leave through [exit(-1)], also with a port at hand: the
    port is not pulled.  The same reader at a SEND_PORT or RECV_PORT
    record returns the next port and has read the four bytes of the tag
    only. *)
Theorem fd_record_is_not_decoded :
  let p := {| name := 0x1403; type := 17 |} in
  spc_deserialize_value (H := xpc_types) 2 (tag_reader 0xb000 [p])
  = Exited (-1)
  /\ spc_deserialize_value (H := xpc_types) 2 (tag_reader 0xd000 [p])
     = Returned (SPC_SEND_PORT p, moved (tag_reader 0xd000 [p]) 4 1)
  /\ spc_deserialize_value (H := xpc_types) 2 (tag_reader 0x15000 [p])
     = Returned (SPC_RECV_PORT p, moved (tag_reader 0x15000 [p]) 4 1).
Proof. repeat split; vm_compute; reflexivity. Qed.

(** Claim C6: the code departs from it.  For the message
    [{"p": FD port}] the serializer emits one descriptor, for that port,
    before the inline bytes; the decoder collects it and then leaves
    through [exit(-1)] at the FD record, so the port is assigned to no
    value. *)
Theorem fd_descriptor_is_not_assigned :
  let wire := spc_serialize (H := xpc_types) zero_heap fd_message in
  buf wire
  = le_bytes 4 1
      ++ (le_bytes 4 0x1403
            ++ [x00; x00; x00; x00; x00; x00; byte_of_Z 17; byte_of_Z 0])
      ++ wire_inline (H := xpc_types) fd_message
  /\ Z.land (msgh_bits (header wire)) MACH_MSGH_BITS_COMPLEX
     = MACH_MSGH_BITS_COMPLEX
  /\ spc_deserialize (H := xpc_types) wire = Exited (-1).
Proof. repeat split; vm_compute; reflexivity. Qed.

(** Claim C7: the code departs from it.  With no port left, a SEND_PORT
    or RECV_PORT record decodes to the null port, but an FD record makes
    the decoder leave through [exit(-1)]. *)
Theorem fd_record_without_port_exits :
  spc_deserialize_value (H := xpc_types) 2 (tag_reader 0xb000 [])
  = Exited (-1)
  /\ spc_deserialize_value (H := xpc_types) 2 (tag_reader 0xd000 [])
     = Returned (SPC_SEND_PORT SPC_NULL_PORT, moved (tag_reader 0xd000 []) 4 0)
  /\ spc_deserialize_value (H := xpc_types) 2 (tag_reader 0x15000 [])
     = Returned (SPC_RECV_PORT SPC_NULL_PORT,
                 moved (tag_reader 0x15000 []) 4 0)
  /\ name SPC_NULL_PORT = 0.
Proof. repeat split; vm_compute; reflexivity. Qed.

(** Claim C9: the code departs from it.  For a message with the id 71,
    whatever else it holds, [spc_deserialize] builds the dictionary
    [{"error": "Connection interrupted"}], and then leaves through
    [exit(-1)]: nothing is returned to the caller. *)
Theorem connection_interrupted_exits `{spc_types}
  (bits size remote local : Z) (bytes : list byte) :
  spc_deserialize
    {| header := {| msgh_bits := bits;
                    msgh_size := size;
                    msgh_remote_port := remote;
                    msgh_local_port := local;
                    msgh_id := MSGID_CONNECTION_INTERRUPTED |};
       buf := bytes |}
  = Exited (-1)
  /\ spc_dictionary_set_string spc_dictionary_create str_error
       str_connection_interrupted
     = {| num_items := 1;
          items := [item str_error (SPC_STRING str_connection_interrupted)] |}.
Proof. split; reflexivity. Qed.

(* ================================================================== *)
(** * The decoder on a message that was cut short *)

Lemma fails_bind {A B : Type} (c : outcome A) (k : A -> outcome B) :
  fails c -> fails (bind c k).
Proof. intros [-> | ->]; [left|right]; reflexivity. Qed.

Lemma spc_read_beyond (r : reader_t) (len : Z) :
  avail r < len -> spc_read r len = Aborted.
Proof.
  unfold avail, spc_read. intros Hlt.
  destruct (r_ptr r + len >? r_end r) eqn:E; [reflexivity|].
  rewrite Z.gtb_ltb in E. apply Z.ltb_ge in E. lia.
Qed.

Lemma cut_read_within (r : reader_t) (b1 b2 : list byte) ports :
  cut_at r (b1 ++ b2) -> Z.of_nat (length b1) <= avail r ->
  at_ports r ports -> holds r (b1 ++ []) ports.
Proof.
  intros (Hp & Ha & Hf) Hle Hports. split; [|exact Hports].
  split; [exact Hp|split].
  - exists (skipn (length b1) (r_rest r)).
    rewrite app_nil_r.
    rewrite <- (firstn_skipn (length b1) (r_rest r)) at 1. f_equal.
    assert (E : firstn (length b1) (firstn (Z.to_nat (avail r)) (r_rest r))
                = firstn (length b1) (r_rest r)).
    { rewrite firstn_firstn. f_equal. lia. }
    rewrite <- E, Hf, firstn_firstn, Nat.min_l by lia.
    rewrite firstn_app, Nat.sub_diag, firstn_all, firstn_O. apply app_nil_r.
  - rewrite app_nil_r. unfold avail in Hle. lia.
Qed.

Lemma cut_moved (r : reader_t) (b1 b2 : list byte) (k : Z) :
  cut_at r (b1 ++ b2) -> Z.of_nat (length b1) <= avail r ->
  cut_at (moved r (Z.of_nat (length b1)) k) b2.
Proof.
  intros (Hp & Ha & Hf) Hle. rewrite length_app in Ha.
  unfold cut_at, avail, r_rest in *. cbn [moved r_ptr r_end r_mem].
  split; [lia|]. split; [lia|].
  replace (Z.to_nat (r_end r - (r_ptr r + Z.of_nat (length b1))))
    with (Z.to_nat (r_end r - r_ptr r) - length b1)%nat by lia.
  rewrite Z2Nat.inj_add, Nat2Z.id, Nat.add_comm, <- skipn_skipn by lia.
  rewrite <- skipn_firstn_comm, Hf, skipn_firstn_comm.
  rewrite skipn_app, skipn_all, Nat.sub_diag. reflexivity.
Qed.

Lemma cut_shrink (r : reader_t) (b1 b2 : list byte) :
  cut_at r (b1 ++ b2) -> avail r < Z.of_nat (length b1) -> cut_at r b1.
Proof.
  intros (Hp & Ha & Hf) Hlt. split; [exact Hp|]. split; [lia|].
  rewrite Hf, firstn_app.
  replace (Z.to_nat (avail r) - length b1)%nat with 0%nat by lia.
  rewrite firstn_O. apply app_nil_r.
Qed.

Arguments cut_read_within [r b1 b2 ports] _ _ _.
Arguments cut_moved [r b1 b2] k _ _.
Arguments cut_shrink [r b1 b2] _ _.

Lemma cut_nil (r : reader_t) : ~ cut_at r [].
Proof. intros (_ & Ha & _). cbn in Ha. lia. Qed.

Lemma at_ports_moved (r : reader_t) (n : Z) ports :
  at_ports r ports -> at_ports (moved r n 0) ports.
Proof.
  unfold at_ports. cbn [moved next_port r_ports]. now rewrite Z.add_0_r.
Qed.

(** A read of the next bytes of a cut sequence aborts, or it returns
    them and the rest is cut. *)
Lemma cut_step (r : reader_t) (b1 b2 : list byte) ports (len : Z) :
  cut_at r (b1 ++ b2) -> at_ports r ports ->
  len = Z.of_nat (length b1) ->
  spc_read r len = Aborted
  \/ (spc_read r len = Returned (b1, moved r len 0)
      /\ cut_at (moved r len 0) b2
      /\ at_ports (moved r len 0) ports).
Proof.
  intros Hcut Hports ->.
  destruct (Z_lt_le_dec (avail r) (Z.of_nat (length b1))) as [Hlt|Hle].
  - left. now apply spc_read_beyond.
  - right. split; [|split].
    + apply (spc_read_at (cut_read_within Hcut Hle Hports) eq_refl).
    + now apply (cut_moved 0).
    + now apply at_ports_moved.
Qed.

Arguments cut_step [r b1 b2 ports len] _ _ _.

Lemma cut_step_uint32 (r : reader_t) (x : Z) (b2 : list byte) ports :
  cut_at r (le_bytes 4 x ++ b2) -> at_ports r ports ->
  spc_read_uint32 r = Aborted
  \/ (spc_read_uint32 r = Returned (x mod 2 ^ 32, moved r 4 0)
      /\ cut_at (moved r 4 0) b2
      /\ at_ports (moved r 4 0) ports).
Proof.
  intros Hcut Hports. unfold spc_read_uint32.
  destruct (cut_step (len := 4) Hcut Hports
              ltac:(now rewrite le_bytes_length))
    as [-> | (-> & Hc & Hp)]; [now left|right].
  cbn [bind]. rewrite le_value_le_bytes. auto.
Qed.

Arguments cut_step_uint32 [r x b2 ports] _ _.

Lemma memchr0_firstn_short (s t : list byte) (n : nat) :
  nul_free s = true -> (n <= length s)%nat ->
  memchr0 (firstn n (s ++ t)) = None.
Proof.
  revert n. induction s as [|b s IH]; intros n Hs Hn.
  - cbn [length] in Hn. now replace n with 0%nat by lia.
  - destruct n as [|n]; [reflexivity|].
    cbn [nul_free forallb] in Hs. apply andb_true_iff in Hs as [Hb Hs].
    cbn [app firstn memchr0 length] in *.
    destruct (Byte.eqb b x00); [discriminate|].
    now rewrite (IH n Hs) by lia.
Qed.

(** A string read in a cut sequence: the terminator is missing, or the
    padded read aborts, or the string is returned and the rest is cut. *)
Lemma cut_step_str (r : reader_t) (s b2 : list byte) ports :
  cut_at r (padded_cstr s ++ b2) -> at_ports r ports ->
  fails ('(res, reader) <- spc_read_str r ;;
         k <- strdup res ;; Returned (k, reader))
  \/ (spc_read_str r
      = Returned (Some (padded_cstr s),
                  moved r (Z.of_nat (length (padded_cstr s))) 0)
      /\ cut_at (moved r (Z.of_nat (length (padded_cstr s))) 0) b2
      /\ at_ports (moved r (Z.of_nat (length (padded_cstr s))) 0) ports).
Proof.
  intros Hcut Hports. pose proof Hcut as (Hp & Ha & Hf).
  unfold spc_read_str, slice. fold (r_rest r) (avail r). rewrite Hf.
  assert (Hlen : Z.of_nat (length (padded_cstr s))
                 = Z.of_nat (length (cstr s)) + 1
                   + remainder_of (Z.of_nat (length (cstr s)) + 1)).
  { unfold padded_cstr. rewrite padded_length, length_app. cbn [length].
    rewrite Nat2Z.inj_add. reflexivity. }
  destruct (Z_le_gt_dec (avail r) (Z.of_nat (length (cstr s)))) as [Hle|Hgt].
  - left. right.
    rewrite padded_cstr_shape, <- app_assoc.
    rewrite memchr0_firstn_short by (apply nul_free_cstr || lia).
    reflexivity.
  - assert (Hm : memchr0 (firstn (Z.to_nat (avail r)) (padded_cstr s ++ b2))
                 = Some (Z.of_nat (length (cstr s)))).
    { rewrite padded_cstr_shape, <- !app_assoc, <- app_comm_cons.
      apply memchr0_firstn; [apply nul_free_cstr|lia]. }
    rewrite Hm. unfold spc_read_padded.
    fold (remainder_of (Z.of_nat (length (cstr s)) + 1)). rewrite <- Hlen.
    destruct (cut_step Hcut Hports eq_refl) as [-> | (-> & Hc & Hp')].
    + left. left. reflexivity.
    + right. auto.
Qed.

Arguments cut_step_str [r s b2 ports] _ _.

Lemma cut_last (r : reader_t) (b1 : list byte) (len : Z) :
  cut_at r b1 -> Z.of_nat (length b1) <= len -> spc_read r len = Aborted.
Proof.
  intros (_ & Ha & _) Hle. apply spc_read_beyond. lia.
Qed.

Arguments cut_last [r b1 len] _ _.

Lemma fails_str_bind {B : Type} (c : outcome (option (list byte) * reader_t))
  (k : list byte -> reader_t -> outcome B) :
  fails ('(res, reader) <- c ;; s <- strdup res ;; Returned (s, reader)) ->
  fails ('(res, reader) <- c ;; s <- strdup res ;; k s reader).
Proof.
  destruct c as [[[res|] reader]| | | |]; cbn;
    intros [E|E]; try discriminate; (now left) || (now right).
Qed.

Section ContainerReadersCut.
Variable dv : reader_t -> outcome (spc_value_t * reader_t).
Variable wire : spc_value_t -> list byte.

Lemma element_step (v : spc_value_t) (r : reader_t) (rest : list byte)
  (prest : list spc_port_t) :
  dv_ok dv wire v -> dv_cut dv wire v ->
  cut_at r (wire v ++ rest) -> at_ports r (value_ports v ++ prest) ->
  fails (dv r)
  \/ (let r' := moved r (Z.of_nat (length (wire v)))
                  (Z.of_nat (length (value_ports v))) in
      dv r = Returned (reverse_dicts v, r')
      /\ cut_at r' rest /\ at_ports r' prest).
Proof.
  intros Hok Hcutv Hcut Hports.
  destruct (Z_lt_le_dec (avail r) (Z.of_nat (length (wire v)))) as [Hlt|Hle].
  - left. apply (Hcutv r prest); [|exact Hports].
    now apply (cut_shrink Hcut).
  - right. pose proof (cut_read_within Hcut Hle Hports) as Hr.
    split; [|split].
    + now apply (Hok r [] prest).
    + now apply cut_moved.
    + exact (proj2 (holds_moved _ _ _ _ Hr)).
Qed.

Arguments element_step [v r rest prest] _ _ _ _.

Lemma read_array_values_cut (values : list spc_value_t) :
  Forall (fun v => dv_ok dv wire v /\ dv_cut dv wire v) values ->
  forall fuel i total acc r p2,
    (length values < fuel)%nat ->
    i + Z.of_nat (length values) = total ->
    cut_at r (flat_map wire values) ->
    at_ports r (flat_map value_ports values ++ p2) ->
    fails (read_array_values dv fuel i total acc r).
Proof.
  induction 1 as [|v values [Hok Hcutv] _ IH];
    intros fuel i total acc r p2 Hf Ht Hcut Hports.
  - now apply cut_nil in Hcut.
  - destruct fuel as [|fuel]; [cbn in Hf; lia|].
    cbn [read_array_values length flat_map] in *.
    rewrite (proj2 (Z.ltb_lt _ _)) by lia.
    rewrite <- app_assoc in Hports.
    destruct (element_step Hok Hcutv Hcut Hports)
      as [Hfail | (E & Hcut' & Hports')].
    + now apply fails_bind.
    + rewrite E. cbn [bind].
      apply (IH fuel (i + 1) total _ _ p2); [lia|lia|assumption|assumption].
Qed.

Lemma read_dict_items_cut (l : list spc_dictionary_item_t) :
  Forall (fun it => dv_ok dv wire (value it)
                    /\ dv_cut dv wire (value it)) l ->
  forall fuel i d r p2,
    (length l < fuel)%nat ->
    i + Z.of_nat (length l) = num_items d ->
    cut_at r (flat_map (fun it => padded_cstr (key it) ++ wire (value it)) l) ->
    at_ports r (flat_map (fun it => value_ports (value it)) l ++ p2) ->
    fails (read_dict_items dv fuel i d r).
Proof.
  induction 1 as [|it l [Hok Hcutv] _ IH];
    intros fuel i d r p2 Hf Ht Hcut Hports.
  - now apply cut_nil in Hcut.
  - destruct fuel as [|fuel]; [cbn in Hf; lia|].
    cbn [read_dict_items length flat_map] in *.
    rewrite (proj2 (Z.ltb_lt _ _)) by lia.
    rewrite <- app_assoc in Hports, Hcut.
    destruct (cut_step_str Hcut Hports) as [Hfail | (E & Hcut' & Hports')].
    + now apply fails_str_bind.
    + rewrite E. cbn [bind]. rewrite strdup_padded_cstr. cbn [bind].
      destruct (element_step Hok Hcutv Hcut' Hports')
        as [Hfail | (E' & Hcut'' & Hports'')].
      * now apply fails_bind.
      * rewrite E'. cbn [bind].
        apply (IH fuel (i + 1) _ _ p2);
          [lia|cbn [num_items]; lia|assumption|assumption].
Qed.
End ContainerReadersCut.

Arguments read_array_values_cut [dv wire values] _ [fuel i total acc r p2] _ _ _ _.
Arguments read_dict_items_cut [dv wire l] _ [fuel i d r p2] _ _ _ _.

Section DecoderCut.
Context `{spc_types}.
Hypothesis types_ok : spc_types_ok.

Lemma cut_fails_all (a : list spc_value_t) (fuel : nat) :
  Forall cut_fails a ->
  forallb well_formed a = true -> forallb fd_free a = true ->
  (list_sum (map cost a) <= fuel)%nat ->
  Forall (fun v => dv_ok (spc_deserialize_value fuel) wire_value v
                   /\ dv_cut (spc_deserialize_value fuel) wire_value v) a.
Proof.
  induction 1 as [|v a Hv _ IH]; intros Hwf Hfd Hc; constructor;
    unfold list_sum in *; cbn [forallb map fold_right] in *;
    apply andb_true_iff in Hwf as [Hwf1 Hwf2];
    apply andb_true_iff in Hfd as [Hfd1 Hfd2].
  - split.
    + apply (spc_deserialize_value_wire types_ok v Hwf1 Hfd1). lia.
    + apply Hv; [assumption|assumption|lia].
  - apply IH; [assumption|assumption|lia].
Qed.

Lemma cut_fails_all_items (l : list spc_dictionary_item_t) (fuel : nat) :
  Forall (fun it => cut_fails (value it)) l ->
  forallb (fun it => nul_free (key it) && well_formed (value it)) l = true ->
  forallb (fun it => fd_free (value it)) l = true ->
  (list_sum (map (fun it => cost (value it)) l) <= fuel)%nat ->
  Forall (fun it =>
            dv_ok (spc_deserialize_value fuel) wire_value (value it)
            /\ dv_cut (spc_deserialize_value fuel) wire_value (value it)) l.
Proof.
  induction 1 as [|it l Hv _ IH]; intros Hwf Hfd Hc; constructor;
    unfold list_sum in *; cbn [forallb map fold_right] in *;
    apply andb_true_iff in Hwf as [Hwf1 Hwf2];
    apply andb_true_iff in Hwf1 as [Hk Hwf1];
    apply andb_true_iff in Hfd as [Hfd1 Hfd2].
  - split.
    + apply (spc_deserialize_value_wire types_ok (value it) Hwf1 Hfd1). lia.
    + apply Hv; [assumption|assumption|lia].
  - apply IH; [assumption|assumption|lia].
Qed.

Arguments cut_fails_all [a fuel] _ _ _ _.
Arguments cut_fails_all_items [l fuel] _ _ _ _.

Ltac cut_uint32 Hcut Hports :=
  let E := fresh "E" in
  let Hc := fresh "Hc" in
  let Hp := fresh "Hp" in
  destruct (cut_step_uint32 Hcut Hports) as [E | (E & Hc & Hp)];
  rewrite E; cbn [bind];
  [ left; reflexivity
  | clear E Hcut Hports; rename Hc into Hcut; rename Hp into Hports ].

Ltac cut_final Hcut :=
  rewrite (cut_last Hcut) by (rewrite ?padded_length, ?le_bytes_length;
                              unfold remainder_of; cbn [length]; lia);
  left; reflexivity.

Lemma spc_deserialize_value_cut (v : spc_value_t) : cut_fails v.
Proof.
  pose_distinct types_ok.
  induction v as [ | u | u | i | d | s | a IH | d IH | p | p | p | u | d | t ]
    using spc_value_induction;
    intros Hwf Hfd fuel Hf r p2 Hcut Hports;
    try discriminate;
    (destruct fuel as [|fuel]; [cbn in Hf; lia|]);
    pose proof (value_type_range types_ok _ Hwf) as Htag;
    cbn [spc_deserialize_value];
    cbn [wire_value value_ports] in Hcut, Hports;
    cut_uint32 Hcut Hports;
    rewrite Z.mod_small by exact Htag;
    cbn [value_type well_formed] in *; switch_on_tag;
    try (now apply cut_nil in Hcut).
  - (* BOOL *)
    unfold spc_read_uint32. cut_final Hcut.
  - (* UINT64 *)
    unfold spc_read_uint64. cut_final Hcut.
  - (* INT64 *)
    unfold spc_read_int64. cut_final Hcut.
  - (* DOUBLE *)
    unfold spc_read_double. cut_final Hcut.
  - (* STRING *)
    cut_uint32 Hcut Hports.
    rewrite <- (app_nil_r (padded_cstr s)) in Hcut.
    destruct (cut_step_str Hcut Hports) as [Hfail | (_ & Hcut' & _)].
    + now apply fails_str_bind.
    + now apply cut_nil in Hcut'.
  - (* ARRAY *)
    apply andb_true_iff in Hwf as [Hlen Hwf]. apply Z.ltb_lt in Hlen.
    cbn [cost fd_free] in Hf, Hfd.
    unfold deserialize_array_with, container_body in *.
    rewrite <- ?app_assoc in Hcut.
    cut_uint32 Hcut Hports. cut_uint32 Hcut Hports.
    rewrite Z.mod_small by lia.
    assert (Hc : (list_sum (map cost a) <= fuel)%nat) by lia.
    assert (Hn : (length a < fuel)%nat) by lia.
    apply fails_bind.
    apply (read_array_values_cut (cut_fails_all IH Hwf Hfd Hc)
             (i := 0) (total := Z.of_nat (length a)) (p2 := p2)
             Hn eq_refl Hcut Hports).
  - (* DICT *)
    apply andb_true_iff in Hwf as [Hlen Hwf].
    apply andb_true_iff in Hlen as [Hnum Hlen].
    apply Z.ltb_lt in Hlen. apply Z.eqb_eq in Hnum.
    cbn [cost fd_free] in Hf, Hfd.
    unfold deserialize_dict_with, container_body in *.
    rewrite <- ?app_assoc in Hcut.
    cut_uint32 Hcut Hports. cut_uint32 Hcut Hports.
    rewrite Z.mod_small by lia.
    assert (Hc : (list_sum (map (fun it => cost (value it)) (items d))
                  <= fuel)%nat) by lia.
    assert (Hn : (length (items d) < fuel)%nat) by lia.
    apply fails_bind.
    apply (read_dict_items_cut (cut_fails_all_items IH Hwf Hfd Hc)
             (i := 0)
             (d := {| num_items := num_items d;
                      items := items spc_dictionary_create |})
             (p2 := p2) Hn (eq_sym Hnum) Hcut Hports).
  - (* UUID *)
    cut_final Hcut.
  - (* DATA *)
    apply Z.ltb_lt in Hwf.
    cut_uint32 Hcut Hports. rewrite Z.mod_small by lia.
    unfold spc_read_padded. cut_final Hcut.
Qed.
End DecoderCut.

(* ================================================================== *)
(** * Fuel: more of it changes nothing, and [fuel_for] is enough *)

Lemma bind_defined {A B : Type} (c : outcome A) (k : A -> outcome B) :
  bind c k <> OutOfFuel -> c <> OutOfFuel.
Proof. destruct c; cbn; congruence. Qed.

Lemma read_array_values_S dv (fuel : nat) (i total : Z) (acc : spc_array_t)
  (r : reader_t) :
  read_array_values dv (S fuel) i total acc r
  = if i <? total then
      '(v, reader) <- dv r ;;
      read_array_values dv fuel (i + 1) total (spc_array_set_value acc i v)
        reader
    else Returned (acc, r).
Proof. reflexivity. Qed.

Lemma read_dict_items_S dv (fuel : nat) (i : Z) (d : spc_dictionary_t)
  (r : reader_t) :
  read_dict_items dv (S fuel) i d r
  = if i <? num_items d then
      '(str, reader) <- spc_read_str r ;;
      k <- strdup str ;;
      '(v, reader) <- dv reader ;;
      read_dict_items dv fuel (i + 1)
        {| num_items := num_items d;
           items := {| key := k; value := v |} :: items d |} reader
    else Returned (d, r).
Proof. reflexivity. Qed.

Section FuelMonotone.
Variables dv dv' : reader_t -> outcome (spc_value_t * reader_t).
Hypothesis extends : forall r, dv r <> OutOfFuel -> dv' r = dv r.

Lemma read_array_values_mono (fuel : nat) :
  forall i total acc r,
    read_array_values dv fuel i total acc r <> OutOfFuel ->
    read_array_values dv' (S fuel) i total acc r
    = read_array_values dv fuel i total acc r.
Proof.
  induction fuel as [|fuel IH]; intros i total acc r Hdef;
    [now elim Hdef|].
  rewrite read_array_values_S in Hdef.
  rewrite (read_array_values_S dv' (S fuel)), (read_array_values_S dv fuel).
  destruct (i <? total); [|reflexivity].
  rewrite (extends (@bind_defined _ _ _ _ Hdef)).
  destruct (dv r) as [[v r1]| | | |]; cbn [bind] in *; try reflexivity.
  now apply IH.
Qed.

Lemma read_dict_items_mono (fuel : nat) :
  forall i d r,
    read_dict_items dv fuel i d r <> OutOfFuel ->
    read_dict_items dv' (S fuel) i d r = read_dict_items dv fuel i d r.
Proof.
  induction fuel as [|fuel IH]; intros i d r Hdef; [now elim Hdef|].
  rewrite read_dict_items_S in Hdef.
  rewrite (read_dict_items_S dv' (S fuel)), (read_dict_items_S dv fuel).
  destruct (i <? num_items d); [|reflexivity].
  destruct (spc_read_str r) as [[str r1]| | | |]; cbn [bind] in *;
    try reflexivity.
  destruct (strdup str) as [k| | | |]; cbn [bind] in *; try reflexivity.
  rewrite (extends (@bind_defined _ _ _ _ Hdef)).
  destruct (dv r1) as [[v r2]| | | |]; cbn [bind] in *; try reflexivity.
  now apply IH.
Qed.

Lemma deserialize_array_with_mono (fuel : nat) (r : reader_t) :
  deserialize_array_with dv fuel r <> OutOfFuel ->
  deserialize_array_with dv' (S fuel) r = deserialize_array_with dv fuel r.
Proof.
  unfold deserialize_array_with. intros Hdef.
  destruct (spc_read_uint32 r) as [[x r1]| | | |]; cbn [bind] in *;
    try reflexivity.
  destruct (spc_read_uint32 r1) as [[n r2]| | | |]; cbn [bind] in *;
    try reflexivity.
  now apply read_array_values_mono.
Qed.

Lemma deserialize_dict_with_mono (fuel : nat) (r : reader_t) :
  deserialize_dict_with dv fuel r <> OutOfFuel ->
  deserialize_dict_with dv' (S fuel) r = deserialize_dict_with dv fuel r.
Proof.
  unfold deserialize_dict_with. intros Hdef.
  destruct (spc_read_uint32 r) as [[x r1]| | | |]; cbn [bind] in *;
    try reflexivity.
  destruct (spc_read_uint32 r1) as [[n r2]| | | |]; cbn [bind] in *;
    try reflexivity.
  now apply read_dict_items_mono.
Qed.
End FuelMonotone.

Section FuelValue.
Context `{spc_types}.

Lemma spc_deserialize_value_S (fuel : nat) (r : reader_t) :
  spc_deserialize_value (S fuel) r
  = ('(type, reader) <- spc_read_uint32 r ;;
     if type =? SPC_TYPE_NULL then Returned (SPC_NULL, reader)
     else if type =? SPC_TYPE_BOOL then
       '(u64, reader) <- spc_read_uint32 reader ;;
       Returned (SPC_BOOL u64, reader)
     else if type =? SPC_TYPE_UINT64 then
       '(u64, reader) <- spc_read_uint64 reader ;;
       Returned (SPC_UINT64 u64, reader)
     else if type =? SPC_TYPE_INT64 then
       '(i64, reader) <- spc_read_int64 reader ;;
       Returned (SPC_INT64 i64, reader)
     else if type =? SPC_TYPE_DOUBLE then
       '(dbl, reader) <- spc_read_double reader ;;
       Returned (SPC_DOUBLE dbl, reader)
     else if type =? SPC_TYPE_STRING then
       '(_, reader) <- spc_read_uint32 reader ;;
       '(s, reader) <- spc_read_str reader ;;
       str <- strdup s ;;
       Returned (SPC_STRING str, reader)
     else if type =? SPC_TYPE_ARRAY then
       '(array, reader) <-
         deserialize_array_with (spc_deserialize_value fuel) fuel reader ;;
       Returned (SPC_ARRAY array, reader)
     else if type =? SPC_TYPE_DICT then
       '(dict, reader) <-
         deserialize_dict_with (spc_deserialize_value fuel) fuel reader ;;
       Returned (SPC_DICT dict, reader)
     else if type =? SPC_TYPE_SEND_PORT then
       let '(port, reader) := spc_reader_next_port reader in
       Returned (SPC_SEND_PORT port, reader)
     else if type =? SPC_TYPE_RECV_PORT then
       let '(port, reader) := spc_reader_next_port reader in
       Returned (SPC_RECV_PORT port, reader)
     else if type =? SPC_TYPE_UUID then
       '(res, reader) <- spc_read reader 0x10 ;;
       Returned (SPC_UUID (le_value res), reader)
     else if type =? SPC_TYPE_DATA then
       '(size, reader) <- spc_read_uint32 reader ;;
       '(res, reader) <- spc_read_padded reader size ;;
       Returned (SPC_DATA (firstn (Z.to_nat size) res), reader)
     else Exited (-1)).
Proof. reflexivity. Qed.

Lemma spc_deserialize_value_mono_S (fuel : nat) :
  forall r,
    spc_deserialize_value fuel r <> OutOfFuel ->
    spc_deserialize_value (S fuel) r = spc_deserialize_value fuel r.
Proof.
  induction fuel as [|fuel IH]; intros r Hdef; [now elim Hdef|].
  rewrite spc_deserialize_value_S in Hdef.
  rewrite (spc_deserialize_value_S (S fuel)), (spc_deserialize_value_S fuel).
  destruct (spc_read_uint32 r) as [[t r1]| | | |]; cbn [bind] in *;
    try reflexivity.
  repeat match goal with
         | |- context [if ?c then _ else _] =>
             destruct c; [try reflexivity|]
         end; try reflexivity.
  - rewrite (@deserialize_array_with_mono _ _ IH fuel r1
               (@bind_defined _ _ _ _ Hdef)).
    reflexivity.
  - rewrite (@deserialize_dict_with_mono _ _ IH fuel r1
               (@bind_defined _ _ _ _ Hdef)).
    reflexivity.
Qed.

Lemma spc_deserialize_value_mono (fuel fuel' : nat) (r : reader_t) :
  (fuel <= fuel')%nat ->
  spc_deserialize_value fuel r <> OutOfFuel ->
  spc_deserialize_value fuel' r = spc_deserialize_value fuel r.
Proof.
  induction 1 as [|fuel' _ IH]; intros Hdef; [reflexivity|].
  rewrite <- (IH Hdef). apply spc_deserialize_value_mono_S.
  now rewrite (IH Hdef).
Qed.
End FuelValue.

Lemma after_trans (r r1 r2 : reader_t) (n m : Z) :
  after r r1 n -> after r1 r2 m -> after r r2 (n + m).
Proof. unfold after. intros (? & ? & ?) (? & ? & ?). repeat split; lia. Qed.

Lemma after_weaken (r r' : reader_t) (n m : Z) :
  after r r' n -> m <= n -> after r r' m.
Proof. unfold after. intros (? & ? & ?) ?. repeat split; lia. Qed.

Lemma spc_read_after (r r' : reader_t) (len : Z) (x : list byte) :
  spc_read r len = Returned (x, r') -> after r r' len.
Proof.
  unfold spc_read. destruct (r_ptr r + len >? r_end r) eqn:E; [discriminate|].
  rewrite Z.gtb_ltb in E. apply Z.ltb_ge in E.
  intros [= _ <-]. unfold after, advance. cbn. repeat split; lia.
Qed.

Lemma spc_read_defined (r : reader_t) (len : Z) :
  spc_read r len <> OutOfFuel.
Proof. unfold spc_read. destruct (_ >? _); discriminate. Qed.

Lemma bind_never {A B : Type} (c : outcome A) (k : A -> outcome B) :
  c <> OutOfFuel -> (forall a, k a <> OutOfFuel) -> bind c k <> OutOfFuel.
Proof. destruct c; cbn; auto; discriminate. Qed.

Lemma bind_never_at {A B : Type} (c : outcome A) (k : A -> outcome B) :
  c <> OutOfFuel -> (forall a, c = Returned a -> k a <> OutOfFuel) ->
  bind c k <> OutOfFuel.
Proof. destruct c; cbn; auto; discriminate. Qed.

Lemma spc_read_uint32_defined (r : reader_t) : spc_read_uint32 r <> OutOfFuel.
Proof.
  apply bind_never; [apply spc_read_defined|]. intros [? ?]. discriminate.
Qed.

Lemma spc_read_uint32_after (r r' : reader_t) (x : Z) :
  spc_read_uint32 r = Returned (x, r') -> after r r' 4 /\ 0 <= x.
Proof.
  unfold spc_read_uint32. intros E.
  apply bind_returned in E as ([bytes r1] & E1 & E2).
  injection E2 as <- <-. split; [now apply spc_read_after in E1|].
  apply le_value_range.
Qed.

Lemma memchr0_nonneg (l : list byte) (k : Z) : memchr0 l = Some k -> 0 <= k.
Proof.
  revert k. induction l as [|b l IH]; intros k; cbn [memchr0];
    [discriminate|].
  destruct (Byte.eqb b x00); [intros [= E]; lia|].
  destruct (memchr0 l) as [k'|]; [|discriminate].
  intros E. assert (Ek : k = 1 + k') by congruence.
  specialize (IH k' eq_refl). lia.
Qed.

Lemma spc_read_padded_defined (r : reader_t) (size : Z) :
  spc_read_padded r size <> OutOfFuel.
Proof. apply spc_read_defined. Qed.

Lemma spc_read_padded_after (r r' : reader_t) (size : Z) (x : list byte) :
  0 <= size -> spc_read_padded r size = Returned (x, r') -> after r r' 0.
Proof.
  intros Hs E. apply spc_read_after in E.
  apply (after_weaken E). pose proof (remainder_of_range size).
  unfold remainder_of in *. lia.
Qed.

Lemma spc_read_str_defined (r : reader_t) : spc_read_str r <> OutOfFuel.
Proof.
  unfold spc_read_str. destruct (memchr0 _); [|discriminate].
  apply bind_never; [apply spc_read_padded_defined|].
  intros [? ?]. discriminate.
Qed.

Lemma spc_read_str_after (r r' : reader_t) (s : option (list byte)) :
  r_ptr r <= r_end r ->
  spc_read_str r = Returned (s, r') -> after r r' 0.
Proof.
  unfold spc_read_str. intros Hr.
  destruct (memchr0 _) as [k|] eqn:Ek.
  - intros E. apply bind_returned in E as ([bytes r1] & E1 & E2).
    injection E2 as _ <-. apply memchr0_nonneg in Ek.
    apply (@spc_read_padded_after r r1 (k + 1) bytes ltac:(lia) E1).
  - intros [= _ <-]. unfold after. repeat split; lia.
Qed.

Lemma strdup_defined (s : option (list byte)) : strdup s <> OutOfFuel.
Proof. destruct s; discriminate. Qed.

Lemma spc_reader_next_port_after (r : reader_t) :
  r_ptr r <= r_end r -> after r (snd (spc_reader_next_port r)) 0.
Proof.
  unfold spc_reader_next_port, after. intros Hr.
  destruct (_ >=? _); cbn; repeat split; lia.
Qed.

Section FuelEnough.
Variable dv : reader_t -> outcome (spc_value_t * reader_t).
Variable bound : nat.

(** A value decoder that consumes at least the four bytes of the tag,
    and that does not run out of fuel where fewer than [bound] bytes are
    left. *)
Hypothesis dv_after : forall r v r', dv r = Returned (v, r') -> after r r' 4.
Hypothesis dv_defined :
  forall r, (Z.to_nat (avail r) < bound)%nat -> dv r <> OutOfFuel.

Lemma read_array_values_after (fuel : nat) :
  forall i total acc r a r',
    r_ptr r <= r_end r ->
    read_array_values dv fuel i total acc r = Returned (a, r') ->
    after r r' 0.
Proof.
  induction fuel as [|fuel IH]; intros i total acc r a r' Hr E;
    [discriminate|].
  rewrite read_array_values_S in E.
  destruct (i <? total).
  - apply bind_returned in E as ([v r1] & E1 & E2).
    apply dv_after in E1.
    apply IH in E2; [|unfold after in E1; lia].
    apply (after_weaken (after_trans E1 E2)). lia.
  - injection E as _ <-. unfold after. repeat split; lia.
Qed.

Lemma read_dict_items_after (fuel : nat) :
  forall i d r d' r',
    r_ptr r <= r_end r ->
    read_dict_items dv fuel i d r = Returned (d', r') ->
    after r r' 0.
Proof.
  induction fuel as [|fuel IH]; intros i d r d' r' Hr E; [discriminate|].
  rewrite read_dict_items_S in E.
  destruct (i <? num_items d).
  - apply bind_returned in E as ([s r1] & E1 & E).
    apply bind_returned in E as (k & _ & E).
    apply bind_returned in E as ([v r2] & E2 & E3).
    apply spc_read_str_after in E1; [|exact Hr].
    apply dv_after in E2.
    apply IH in E3; [|unfold after in E2; lia].
    apply (after_weaken (after_trans E1 (after_trans E2 E3))). lia.
  - injection E as _ <-. unfold after. repeat split; lia.
Qed.

Lemma read_array_values_defined (fuel : nat) :
  forall i total acc r,
    (Z.to_nat (avail r) < fuel)%nat -> (fuel <= bound)%nat ->
    read_array_values dv fuel i total acc r <> OutOfFuel.
Proof.
  induction fuel as [|fuel IH]; intros i total acc r Hf Hb; [lia|].
  rewrite read_array_values_S.
  destruct (i <? total); [|discriminate].
  apply bind_never_at; [apply dv_defined; lia|].
  intros [v r1] E. apply dv_after in E.
  apply IH; [|lia]. unfold after, avail in *. lia.
Qed.

Lemma read_dict_items_defined (fuel : nat) :
  forall i d r,
    (Z.to_nat (avail r) < fuel)%nat -> (fuel <= bound)%nat ->
    r_ptr r <= r_end r ->
    read_dict_items dv fuel i d r <> OutOfFuel.
Proof.
  induction fuel as [|fuel IH]; intros i d r Hf Hb Hr; [lia|].
  rewrite read_dict_items_S.
  destruct (i <? num_items d); [|discriminate].
  apply bind_never_at; [apply spc_read_str_defined|].
  intros [s r1] E1. apply spc_read_str_after in E1; [|exact Hr].
  apply bind_never_at; [apply strdup_defined|]. intros k _.
  apply bind_never_at;
    [apply dv_defined; unfold after, avail in *; lia|].
  intros [v r2] E2. apply dv_after in E2.
  apply IH; [|lia|]; unfold after, avail in *; lia.
Qed.

Lemma deserialize_array_with_after (fuel : nat) (r : reader_t) a r' :
  deserialize_array_with dv fuel r = Returned (a, r') -> after r r' 8.
Proof.
  unfold deserialize_array_with. intros E.
  apply bind_returned in E as ([x r1] & E1 & E).
  apply bind_returned in E as ([n r2] & E2 & E).
  apply spc_read_uint32_after in E1 as [E1 _].
  apply spc_read_uint32_after in E2 as [E2 _].
  apply read_array_values_after in E; [|unfold after in E2; lia].
  apply (after_weaken (after_trans E1 (after_trans E2 E))). lia.
Qed.

Lemma deserialize_dict_with_after (fuel : nat) (r : reader_t) d r' :
  deserialize_dict_with dv fuel r = Returned (d, r') -> after r r' 8.
Proof.
  unfold deserialize_dict_with. intros E.
  apply bind_returned in E as ([x r1] & E1 & E).
  apply bind_returned in E as ([n r2] & E2 & E).
  apply spc_read_uint32_after in E1 as [E1 _].
  apply spc_read_uint32_after in E2 as [E2 _].
  apply read_dict_items_after in E; [|unfold after in E2; lia].
  apply (after_weaken (after_trans E1 (after_trans E2 E))). lia.
Qed.

Lemma deserialize_array_with_defined (fuel : nat) (r : reader_t) :
  (Z.to_nat (avail r) < fuel)%nat -> (fuel <= bound)%nat ->
  deserialize_array_with dv fuel r <> OutOfFuel.
Proof.
  unfold deserialize_array_with. intros Hf Hb.
  apply bind_never_at; [apply spc_read_uint32_defined|].
  intros [x r1] E1. apply spc_read_uint32_after in E1 as [E1 _].
  apply bind_never_at; [apply spc_read_uint32_defined|].
  intros [n r2] E2. apply spc_read_uint32_after in E2 as [E2 _].
  apply read_array_values_defined; [|lia]. unfold after, avail in *. lia.
Qed.

Lemma deserialize_dict_with_defined (fuel : nat) (r : reader_t) :
  (Z.to_nat (avail r) < fuel)%nat -> (fuel <= bound)%nat ->
  deserialize_dict_with dv fuel r <> OutOfFuel.
Proof.
  unfold deserialize_dict_with. intros Hf Hb.
  apply bind_never_at; [apply spc_read_uint32_defined|].
  intros [x r1] E1. apply spc_read_uint32_after in E1 as [E1 _].
  apply bind_never_at; [apply spc_read_uint32_defined|].
  intros [n r2] E2. apply spc_read_uint32_after in E2 as [E2 _].
  apply read_dict_items_defined; [|lia|]; unfold after, avail in *;
    cbn [num_items]; lia.
Qed.
End FuelEnough.

Lemma spc_read_8_after {A : Type} (f : list byte -> A) (r r' : reader_t)
  (len : Z) (x : A) :
  ('(res, reader) <- spc_read r len ;; Returned (f res, reader))
  = Returned (x, r') ->
  after r r' len.
Proof.
  intros E. apply bind_returned in E as ([bytes r1] & E1 & E2).
  injection E2 as _ <-. now apply spc_read_after in E1.
Qed.

Lemma read_then_defined {A : Type} (f : list byte -> A) (r : reader_t)
  (len : Z) :
  ('(res, reader) <- spc_read r len ;; Returned (f res, reader)) <> OutOfFuel.
Proof.
  apply bind_never; [apply spc_read_defined|]. intros [? ?]. discriminate.
Qed.

Lemma spc_reader_next_port_fields (r : reader_t) :
  r_end (snd (spc_reader_next_port r)) = r_end r
  /\ r_ptr (snd (spc_reader_next_port r)) = r_ptr r.
Proof. unfold spc_reader_next_port. destruct (_ >=? _); split; reflexivity. Qed.

Section FuelTotal.
Context `{spc_types}.

Lemma spc_deserialize_value_after (fuel : nat) :
  forall r v r',
    spc_deserialize_value fuel r = Returned (v, r') -> after r r' 4.
Proof.
  induction fuel as [|fuel IH]; intros r v r' E; [discriminate|].
  rewrite spc_deserialize_value_S in E.
  apply bind_returned in E as ([t r1] & Et & E).
  apply spc_read_uint32_after in Et as [Et _].
  repeat match type of E with
         | (if ?c then _ else _) = _ => destruct c
         end;
    try discriminate;
    repeat first
      [ apply bind_returned in E as ([? ?] & ? & E)
      | apply bind_returned in E as (? & ? & E) ];
    repeat match goal with
      | Hx : spc_read_uint32 _ = Returned _ |- _ =>
          apply spc_read_uint32_after in Hx as [Hx ?]
      | Hx : spc_read_uint64 _ = Returned _ |- _ =>
          apply (spc_read_8_after le_value) in Hx
      | Hx : spc_read_int64 _ = Returned _ |- _ =>
          apply (spc_read_8_after (fun res => to_int64 (le_value res))) in Hx
      | Hx : spc_read_double _ = Returned _ |- _ =>
          apply (spc_read_8_after le_value) in Hx
      | Hx : spc_read _ _ = Returned _ |- _ => apply spc_read_after in Hx
      | Hx : deserialize_array_with _ _ _ = Returned _ |- _ =>
          eapply deserialize_array_with_after in Hx; [|exact IH]
      | Hx : deserialize_dict_with _ _ _ = Returned _ |- _ =>
          eapply deserialize_dict_with_after in Hx; [|exact IH]
      end.
  - (* NULL *) injection E as _ <-. exact Et.
  - (* BOOL *) injection E as _ <-. unfold after in *. lia.
  - (* UINT64 *) injection E as _ <-. unfold after in *. lia.
  - (* INT64 *) injection E as _ <-. unfold after in *. lia.
  - (* DOUBLE *) injection E as _ <-. unfold after in *. lia.
  - (* STRING *)
    injection E as _ <-.
    match goal with
    | Hx : spc_read_str _ = Returned _ |- _ =>
        apply spc_read_str_after in Hx; [|unfold after in *; lia]
    end.
    unfold after in *. lia.
  - (* ARRAY *) injection E as _ <-. unfold after in *. lia.
  - (* DICT *) injection E as _ <-. unfold after in *. lia.
  - (* SEND_PORT *)
    pose proof (spc_reader_next_port_fields r1) as [He Hp].
    destruct (spc_reader_next_port r1) as [p r2]. cbn [snd] in He, Hp.
    injection E as _ <-. unfold after in *. lia.
  - (* RECV_PORT *)
    pose proof (spc_reader_next_port_fields r1) as [He Hp].
    destruct (spc_reader_next_port r1) as [p r2]. cbn [snd] in He, Hp.
    injection E as _ <-. unfold after in *. lia.
  - (* UUID *) injection E as _ <-. unfold after in *. lia.
  - (* DATA *)
    injection E as _ <-.
    match goal with
    | Hx : spc_read_padded _ _ = Returned _ |- _ =>
        apply spc_read_padded_after in Hx; [|lia]
    end.
    unfold after in *. lia.
Qed.

(** With fuel beyond the number of bytes left, the decoder does not run
    out of it. *)
Lemma spc_deserialize_value_defined (fuel : nat) :
  forall r,
    (Z.to_nat (avail r) < fuel)%nat ->
    spc_deserialize_value fuel r <> OutOfFuel.
Proof.
  induction fuel as [|fuel IH]; intros r Hf; [lia|].
  rewrite spc_deserialize_value_S.
  apply bind_never_at; [apply spc_read_uint32_defined|].
  intros [t r1] Et. apply spc_read_uint32_after in Et as [Et _].
  assert (Hf1 : (Z.to_nat (avail r1) < fuel)%nat)
    by (unfold after, avail in *; lia).
  repeat match goal with
         | |- (if ?c then _ else _) <> _ => destruct c
         end;
    try discriminate;
    try (apply bind_never_at;
         [ first [ apply spc_read_uint32_defined
                 | apply (read_then_defined le_value)
                 | apply (read_then_defined
                            (fun res => to_int64 (le_value res)))
                 | apply spc_read_defined ]
         | intros [? ?] ?; try discriminate ]).
  - (* STRING *)
    apply bind_never_at; [apply spc_read_str_defined|]. intros [? ?] _.
    apply bind_never_at; [apply strdup_defined|]. intros; discriminate.
  - (* ARRAY *)
    apply bind_never_at; [|intros [? ?] _; discriminate].
    apply (@deserialize_array_with_defined (spc_deserialize_value fuel) fuel
             (@spc_deserialize_value_after fuel) IH fuel r1 Hf1 (le_n fuel)).
  - (* DICT *)
    apply bind_never_at; [|intros [? ?] _; discriminate].
    apply (@deserialize_dict_with_defined (spc_deserialize_value fuel) fuel
             (@spc_deserialize_value_after fuel) IH fuel r1 Hf1 (le_n fuel)).
  - (* SEND_PORT *) destruct (spc_reader_next_port r1). discriminate.
  - (* RECV_PORT *) destruct (spc_reader_next_port r1). discriminate.
  - (* DATA *)
    apply bind_never_at; [apply spc_read_padded_defined|].
    intros [? ?] _. discriminate.
Qed.

Lemma spc_deserialize_value_total (r : reader_t) :
  spc_deserialize_value (fuel_for r) r <> OutOfFuel.
Proof.
  apply spc_deserialize_value_defined. unfold fuel_for, avail. lia.
Qed.
End FuelTotal.

(* ================================================================== *)
(** * The descriptor loop and the whole decoder *)

Section DescriptorLoop.
Context `{spc_types}.

Lemma read_descriptors_S (fuel : nat) (i count : Z) (r : reader_t) :
  read_descriptors (S fuel) i count r
  = if i <? count then
      let type :=
        Z_of_byte (nth (Z.to_nat (r_ptr r + 11)) (r_mem r) x00) in
      if type =? MACH_MSG_PORT_DESCRIPTOR then
        '(descriptor, reader) <-
          spc_read r sizeof_mach_msg_port_descriptor_t ;;
        let port :=
          {| name := le_value (firstn 4 descriptor);
             type := Z_of_byte (nth 10 descriptor x00) |} in
        let reader :=
          {| r_mem := r_mem reader;
             r_end := r_end reader;
             r_ptr := r_ptr reader;
             next_port := next_port reader;
             r_ports := r_ports reader ++ [port] |} in
        read_descriptors fuel (i + 1) count reader
      else if type =? MACH_MSG_OOL_DESCRIPTOR then
        '(_, reader) <- spc_read r sizeof_mach_msg_ool_descriptor_t ;;
        read_descriptors fuel (i + 1) count reader
      else if type =? MACH_MSG_OOL_PORTS_DESCRIPTOR then
        '(_, reader) <-
          spc_read r sizeof_mach_msg_ool_ports_descriptor_t ;;
        read_descriptors fuel (i + 1) count reader
      else Exited (-1)
    else Returned r.
Proof. reflexivity. Qed.

(** The descriptor loop does not run out of fuel either: a descriptor
    takes twelve bytes or more. *)
Lemma read_descriptors_defined (fuel : nat) :
  forall i count r,
    (Z.to_nat (avail r) < fuel)%nat ->
    read_descriptors fuel i count r <> OutOfFuel.
Proof.
  induction fuel as [|fuel IH]; intros i count r Hf; [lia|].
  rewrite read_descriptors_S. cbv zeta.
  destruct (i <? count); [|discriminate].
  repeat match goal with
         | |- (if ?c then _ else _) <> _ => destruct c
         end; try discriminate;
    (apply bind_never_at; [apply spc_read_defined|]);
    intros [d r1] E; apply spc_read_after in E; apply IH;
    unfold after, avail, sizeof_mach_msg_port_descriptor_t,
      sizeof_mach_msg_ool_descriptor_t,
      sizeof_mach_msg_ool_ports_descriptor_t in *;
    cbn [r_end r_ptr]; lia.
Qed.

(** The whole decoder never runs out of fuel. *)
Lemma spc_deserialize_defined (mach_msg : spc_mach_message_t) :
  spc_deserialize mach_msg <> OutOfFuel.
Proof.
  unfold spc_deserialize.
  destruct (msgh_id (header mach_msg) =? MSGID_CONNECTION_INTERRUPTED);
    [discriminate|].
  apply bind_never.
  - destruct (negb _); [|discriminate].
    apply bind_never_at; [apply spc_read_defined|].
    intros [body r1] _. apply read_descriptors_defined.
    unfold fuel_for, avail. lia.
  - intros r1. apply bind_never; [apply spc_read_defined|].
    intros [prefix r2]. destruct (negb _); [discriminate|].
    apply bind_never; [apply spc_deserialize_value_total|].
    intros [v r3]. destruct v; discriminate.
Qed.

(** The descriptor loop on a message that is cut short: it stops in
    [abort()] or in [exit(-1)] if the cut is in the descriptors, and
    else it collects the ports, leaving the rest cut.  The type of a
    descriptor is read before the bounds are checked: behind the cut
    it is whatever the memory holds. *)
Lemma read_descriptors_cut (heap : Z -> byte) (ps : list spc_port_t) :
  Forall (fun p => port_ok p = true) ps ->
  forall fuel i count off r rest,
    (Z.to_nat (avail r) < fuel)%nat ->
    count = i + Z.of_nat (length ps) ->
    0 <= next_port r ->
    cut_at r (write_descriptors heap off ps ++ rest) ->
    (read_descriptors fuel i count r = Aborted
     \/ read_descriptors fuel i count r = Exited (-1))
    \/ exists r',
         read_descriptors fuel i count r = Returned r'
         /\ r_ports r' = r_ports r ++ ps
         /\ next_port r' = next_port r
         /\ cut_at r' rest.
Proof.
  induction 1 as [|p ps Hp _ IH];
    intros fuel i count off r rest Hf Hc Hnp Hcut;
    (destruct fuel as [|fuel]; [lia|]); rewrite read_descriptors_S.
  - cbn [length] in Hc. rewrite (proj2 (Z.ltb_ge _ _)) by lia.
    right. exists r. rewrite app_nil_r. auto.
  - cbn [length] in Hc. rewrite (proj2 (Z.ltb_lt _ _)) by lia.
    cbv zeta. cbn [write_descriptors] in Hcut. rewrite <- app_assoc in Hcut.
    destruct (Z_lt_le_dec (avail r) 12) as [Hlt|Hle].
    + left.
      repeat match goal with
             | |- context [if ?c then _ else _] => destruct c
             end;
        try (right; reflexivity);
        rewrite spc_read_beyond
          by (unfold sizeof_mach_msg_port_descriptor_t,
                sizeof_mach_msg_ool_descriptor_t,
                sizeof_mach_msg_ool_ports_descriptor_t; lia);
        left; reflexivity.
    + destruct (port_descriptor_fields heap off p []) as (Hlen & _).
      assert (Hports : at_ports r []) by (split; [exact Hnp|eexists; reflexivity]).
      assert (Hr : holds r (port_descriptor heap off p ++ []) [])
        by (apply (cut_read_within Hcut); [rewrite Hlen; lia|exact Hports]).
      pose proof Hr as [(_ & [post Hrest] & _) _].
      rewrite app_nil_r in Hrest.
      destruct (port_descriptor_fields heap off p post)
        as (_ & Htype & Hname & Hdisp).
      pose proof Hcut as (Hptr & _ & _).
      rewrite Z2Nat.inj_add, nth_skipn_add by lia. fold (r_rest r).
      rewrite Hrest. change (Z.to_nat 11) with 11%nat.
      rewrite Htype, Z_of_byte_of_Z.
      change (MACH_MSG_PORT_DESCRIPTOR mod 256 =? MACH_MSG_PORT_DESCRIPTOR)
        with true.
      cbv iota.
      rewrite (spc_read_at Hr (len := sizeof_mach_msg_port_descriptor_t))
        by (rewrite Hlen; reflexivity).
      cbn [bind].
      apply andb_true_iff in Hp as [Hn Ht].
      apply in_range_spec in Hn. apply in_range_spec in Ht.
      rewrite Hname, Hdisp, Z_of_byte_of_Z, le_value_le_bytes_small
        by exact Hn.
      rewrite (Z.mod_small (type p)) by exact Ht.
      apply (cut_moved 0) in Hcut; [|rewrite Hlen; lia].
      rewrite Hlen in Hcut. change (Z.of_nat 12) with 12 in Hcut.
      match goal with
      | |- context [read_descriptors fuel (i + 1) count ?r1] =>
          destruct (IH fuel (i + 1) count
                      (off + sizeof_mach_msg_port_descriptor_t) r1 rest)
            as [Hbad | (r' & E & Hps & Hnext & Hcut')]
      end.
      * unfold avail, sizeof_mach_msg_port_descriptor_t in *.
        cbn [moved r_end r_ptr]. lia.
      * lia.
      * cbn [next_port moved]. lia.
      * exact Hcut.
      * left. exact Hbad.
      * right. exists r'. rewrite E. split; [reflexivity|].
        cbn [r_ports next_port moved] in Hps, Hnext.
        split; [|split; [lia|exact Hcut']].
        rewrite Hps, <- app_assoc. destruct p. reflexivity.
Qed.
End DescriptorLoop.

(* ================================================================== *)
(** * A message cut short never decodes *)

Lemma fails_crashes {A : Type} (o : outcome A) : fails o -> crashes o.
Proof. unfold fails, crashes. tauto. Qed.

Section Truncation.
Context `{spc_types}.
Hypothesis types_ok : spc_types_ok.

Lemma wire_descriptors_length (heap : Z -> byte) (ports : list spc_port_t) :
  Z.of_nat (length (wire_descriptors heap ports))
  = match ports with
    | [] => 0
    | _ :: _ =>
        sizeof_mach_msg_body_t
        + Z.of_nat (length ports) * sizeof_mach_msg_port_descriptor_t
    end.
Proof.
  destruct ports as [|p ports]; [reflexivity|].
  unfold wire_descriptors.
  rewrite length_app, le_bytes_length, write_descriptors_length.
  unfold sizeof_mach_msg_body_t, sizeof_mach_msg_port_descriptor_t. lia.
Qed.

(** The decoder from the envelope prefix on, at a cut. *)
Lemma envelope_cut (v : spc_value_t) (r : reader_t) (p2 : list spc_port_t)
  (k : spc_value_t * reader_t -> outcome (option spc_message_t)) :
  well_formed v = true -> fd_free v = true ->
  cut_at r (magic ++ wire_value v) ->
  at_ports r (value_ports v ++ p2) ->
  fails ('(prefix, reader) <- spc_read r 8 ;;
         if negb (if list_eq_dec Byte.byte_eq_dec prefix magic
                  then true else false)
         then Returned None
         else bind (spc_deserialize_value (fuel_for reader) reader) k).
Proof.
  intros Hwf Hfd Hcut Hports.
  destruct (cut_step (len := 8) Hcut Hports eq_refl)
    as [-> | (-> & Hcut' & Hports')]; [now left|].
  cbn [bind].
  destruct (list_eq_dec Byte.byte_eq_dec magic magic) as [_|Hne];
    [|now elim Hne].
  cbn [negb]. apply fails_bind.
  set (r1 := moved r 8 0) in *.
  pose proof (spc_deserialize_value_total r1) as Hdef.
  rewrite <- (@spc_deserialize_value_mono _
                (fuel_for r1) (fuel_for r1 + cost v)%nat
                r1 ltac:(lia) Hdef).
  apply (@spc_deserialize_value_cut _ types_ok v Hwf Hfd
           (fuel_for r1 + cost v)%nat ltac:(lia) r1 p2 Hcut' Hports').
Qed.

Lemma truncated_crashes (heap : Z -> byte) (junk : list byte)
  (msg : spc_message_t) (k : Z) :
  well_formed_message msg = true ->
  fd_free (SPC_DICT (content msg)) = true ->
  0 < k <= wire_size msg - sizeof_mach_msg_header_t ->
  crashes (spc_deserialize (truncated k junk (spc_serialize heap msg))).
Proof.
  intros Hwf Hfd Hk. unfold well_formed_message in Hwf.
  apply andb_true_iff in Hwf as [Hwf Hsize].
  apply andb_true_iff in Hwf as [Hwf Hcontent].
  apply andb_true_iff in Hwf as [Hwf Hid].
  apply andb_true_iff in Hwf as [Hremote Hlocal].
  apply andb_true_iff in Hremote as [Hrn Hrt].
  apply andb_true_iff in Hlocal as [Hln Hlt].
  apply in_range_spec in Hrn, Hrt, Hln, Hlt.
  apply Z.ltb_lt in Hsize. apply negb_true_iff in Hid.
  pose proof (well_formed_ports _ Hcontent) as Hports.
  cbn [value_ports] in Hports. fold (dict_ports (content msg)) in Hports.
  destruct (spc_serialize_spec heap msg)
    as (Hbuf & Hmsize & Hbits & Hrp & Hlp & Hmid).
  destruct (spc_serialize heap msg) as [[bits size rp lp mid] b].
  cbn [header buf msgh_size msgh_bits msgh_remote_port msgh_local_port
       msgh_id] in *.
  subst bits size rp lp mid b.
  unfold truncated, spc_deserialize.
  cbn [header buf msgh_size msgh_bits msgh_remote_port msgh_local_port
       msgh_id].
  rewrite Hid.
  unfold sizeof_mach_msg_header_t in Hk.
  rewrite (@u32_small (wire_size msg)) by lia.
  set (complex := match dict_ports (content msg) with
                  | [] => 0
                  | _ :: _ => MACH_MSGH_BITS_COMPLEX
                  end).
  assert (Hcomplex : complex = 0 \/ complex = MACH_MSGH_BITS_COMPLEX)
    by (subst complex; destruct (dict_ports (content msg)); auto).
  destruct (header_bits_fields Hcomplex Hrt Hlt) as (Hb1 & _ & _).
  rewrite Hb1.
  set (whole := wire_descriptors heap (dict_ports (content msg))
                  ++ wire_inline msg).
  assert (Hwhole : Z.of_nat (length whole) = wire_size msg - 24).
  { subst whole. rewrite length_app, Nat2Z.inj_add, wire_descriptors_length.
    unfold wire_size, sizeof_mach_msg_header_t. lia. }
  set (n := wire_size msg - k - sizeof_mach_msg_header_t).
  assert (Hn : n = wire_size msg - k - 24) by reflexivity.
  set (r0 := {| r_mem := firstn (Z.to_nat n) whole ++ junk;
                r_end := n; r_ptr := 0; next_port := 0; r_ports := [] |}).
  assert (Hcut0 : cut_at r0 whole).
  { unfold cut_at, avail, r_rest. cbn [r0 r_ptr r_end r_mem].
    rewrite Z.sub_0_r. cbn [Z.to_nat skipn].
    split; [lia|]. split; [lia|].
    rewrite firstn_app, length_firstn, Nat.min_l by lia.
    rewrite Nat.sub_diag, firstn_O, app_nil_r, firstn_firstn, Nat.min_id.
    reflexivity. }
  subst whole. unfold wire_descriptors, wire_inline in Hcut0. subst complex.
  destruct (dict_ports (content msg)) as [|p ports] eqn:Eports.
  - cbn [Z.eqb negb bind app] in *. apply fails_crashes.
    apply (@envelope_cut (SPC_DICT (content msg)) _ [] _ Hcontent Hfd Hcut0).
    cbn [value_ports]. fold (dict_ports (content msg)). rewrite Eports.
    split; [cbn; lia|exists []; reflexivity].
  - change (MACH_MSGH_BITS_COMPLEX =? 0) with false. cbn [negb].
    rewrite <- app_assoc in Hcut0.
    assert (Hp0 : at_ports r0 []) by (split; [cbn; lia|exists []; reflexivity]).
    destruct (cut_step (len := sizeof_mach_msg_body_t) Hcut0 Hp0
                ltac:(now rewrite le_bytes_length))
      as [-> | (-> & Hcut1 & _)]; [left; reflexivity|].
    cbn [bind].
    rewrite le_value_le_bytes_small
      by (change (256 ^ Z.of_nat 4) with (2 ^ 32);
          unfold wire_size, sizeof_mach_msg_header_t, sizeof_mach_msg_body_t,
            sizeof_mach_msg_port_descriptor_t in Hsize;
          rewrite Eports in Hsize; lia).
    set (r1 := moved r0 sizeof_mach_msg_body_t 0) in *.
    destruct (@read_descriptors_cut heap (p :: ports) Hports
                (fuel_for r1) 0 (Z.of_nat (length (p :: ports)))
                (sizeof_mach_msg_header_t + sizeof_mach_msg_body_t)
                r1 (magic ++ wire_value (SPC_DICT (content msg))))
      as [[-> | ->] | (r2 & -> & Hps & Hnext & Hcut2)].
    + unfold fuel_for, avail. lia.
    + reflexivity.
    + cbn. lia.
    + exact Hcut1.
    + left. reflexivity.
    + right. right. reflexivity.
    + cbn [bind]. apply fails_crashes.
      apply (@envelope_cut (SPC_DICT (content msg)) _ [] _ Hcontent Hfd
               Hcut2).
      cbn [value_ports]. fold (dict_ports (content msg)). rewrite Eports.
      split; [rewrite Hnext; cbn; lia|].
      exists []. rewrite Hnext, Hps. cbn. now rewrite !app_nil_r.
Qed.
End Truncation.

(** Claim C8, as the code has it.  A read of [len] bytes for which the
    cursor plus [len] exceeds the end of the message makes [spc_read]
    call [abort()]: the process is terminated, and no error is returned
    to the caller.  A well-formed message without FD values that is cut
    short at any byte behind its header never decodes: the call ends in
    that [abort()], or in [strdup(NULL)] where the cut took the
    terminator of a string, or in [exit(-1)] where the type of a cut
    descriptor is read from behind the cut. *)
Theorem out_of_bounds_read_aborts `{spc_types}
  (r : reader_t) (len : Z)
  (heap : Z -> byte) (junk : list byte) (msg : spc_message_t) (k : Z) :
  spc_types_ok ->
  r_ptr r + len > r_end r ->
  well_formed_message msg = true ->
  fd_free (SPC_DICT (content msg)) = true ->
  0 < k <= wire_size msg - sizeof_mach_msg_header_t ->
  spc_read r len = Aborted
  /\ crashes (spc_deserialize (truncated k junk (spc_serialize heap msg)))
  /\ forall result,
       spc_deserialize (truncated k junk (spc_serialize heap msg))
       <> Returned result.
Proof.
  intros Hok Hlen Hwf Hfd Hk.
  pose proof (truncated_crashes Hok heap junk msg Hwf Hfd Hk) as Hc.
  split; [|split; [exact Hc|]].
  - apply spc_read_beyond. unfold avail. lia.
  - intros result E. rewrite E in Hc.
    destruct Hc as [Hc | [Hc | Hc]]; discriminate.
Qed.

Lemma out_of_bounds_read_witness :
  @spc_types_ok xpc_types
  /\ r_ptr (tag_reader 0 []) + 5 > r_end (tag_reader 0 [])
  /\ well_formed_message (H := xpc_types) sample_message = true
  /\ fd_free (SPC_DICT (content sample_message)) = true
  /\ 0 < 1 <= wire_size (H := xpc_types) sample_message
              - sizeof_mach_msg_header_t
  /\ spc_read (tag_reader 0 []) 5 = Aborted
  /\ crashes (spc_deserialize (H := xpc_types)
                (truncated 1 []
                   (spc_serialize (H := xpc_types) zero_heap sample_message)))
  /\ forall result,
       spc_deserialize (H := xpc_types)
         (truncated 1 []
            (spc_serialize (H := xpc_types) zero_heap sample_message))
       <> Returned result.
Proof.
  split; [exact xpc_types_ok|].
  split; [vm_compute; reflexivity|].
  split; [vm_compute; reflexivity|].
  split; [vm_compute; reflexivity|].
  split; [vm_compute; split; [reflexivity|discriminate]|].
  apply (@out_of_bounds_read_aborts xpc_types (tag_reader 0 []) 5 zero_heap
           [] sample_message 1).
  - exact xpc_types_ok.
  - vm_compute; reflexivity.
  - vm_compute; reflexivity.
  - vm_compute; reflexivity.
  - vm_compute. split; [reflexivity|discriminate].
Defined.

(** Claim C8, as stated, fails: the message [{"k": "v"}] with its last
    byte dropped makes [spc_deserialize] call [abort()]; with its last
    three bytes dropped, the terminator of ["v"] among them, it makes
    [spc_deserialize] hand NULL to [strdup]. *)
Lemma truncated_message_aborts :
  spc_deserialize (H := xpc_types)
    (truncated 1 [] (spc_serialize (H := xpc_types) zero_heap kv_message))
  = Aborted
  /\ spc_deserialize (H := xpc_types)
       (truncated 3 [] (spc_serialize (H := xpc_types) zero_heap kv_message))
     = NullDeref.
Proof. split; vm_compute; reflexivity. Qed.

(* ================================================================== *)
(** * Further properties of the codec *)

(** Whenever [spc_deserialize] returns a message, the id of the message
    is [msgh_id], its remote port has the name [msgh_remote_port] and
    the disposition of the REMOTE bits, and its local port has the
    disposition of the LOCAL bits and, again, the name
    [msgh_remote_port]: the field [msgh_local_port] is never read. *)
Theorem decoded_header_fields `{spc_types} (mach_msg : spc_mach_message_t)
  (msg : spc_message_t) :
  spc_deserialize mach_msg = Returned (Some msg) ->
  id msg = msgh_id (header mach_msg)
  /\ name (remote_port msg) = msgh_remote_port (header mach_msg)
  /\ type (remote_port msg) = MACH_MSGH_BITS_REMOTE (msgh_bits (header mach_msg))
  /\ name (local_port msg) = msgh_remote_port (header mach_msg)
  /\ type (local_port msg) = MACH_MSGH_BITS_LOCAL (msgh_bits (header mach_msg)).
Proof.
  intros E. destruct (spc_deserialize_header _ E) as (Hr & Hl & Hi).
  rewrite Hr, Hl, Hi. cbn. repeat split; reflexivity.
Qed.

Lemma decoded_header_fields_witness :
  let msg :=
    {| remote_port := {| name := 0x103; type := 19 |};
       local_port := {| name := 0x103; type := 21 |};
       id := 0;
       content := {| num_items := 0; items := [] |} |} in
  spc_deserialize (H := xpc_types) (empty_dict_wire 0) = Returned (Some msg)
  /\ id msg = 0
  /\ name (remote_port msg) = 0x103
  /\ type (remote_port msg) = 19
  /\ name (local_port msg) = 0x103
  /\ type (local_port msg) = 21.
Proof.
  intros msg. split; [vm_compute; reflexivity|].
  apply (@decoded_header_fields xpc_types (empty_dict_wire 0) msg).
  vm_compute; reflexivity.
Defined.

(** The encoded message.  [spc_serialize] lays out, behind the header,
    the descriptor count and one port descriptor for every port-typed
    value of the content (FD, SEND_PORT and RECV_PORT alike) in the
    order of a pre-order walk, if there is any, and then the prefix and
    the record of the content as the wire grammar writes it; the header
    holds the size of all this, the COMPLEX bit if there are
    descriptors, the two dispositions, the two port names and the id. *)
Theorem serialized_message_layout `{spc_types} (heap : Z -> byte)
  (msg : spc_message_t) :
  let ports := value_ports (SPC_DICT (content msg)) in
  let m := spc_serialize heap msg in
  buf m
  = wire_descriptors heap ports ++ magic ++ wire_value (SPC_DICT (content msg))
  /\ length (wire_descriptors heap ports)
     = match ports with
       | [] => 0%nat
       | _ :: _ => (4 + 12 * length ports)%nat
       end
  /\ msgh_size (header m) = u32 (wire_size msg)
  /\ msgh_bits (header m)
     = u32 (Z.lor (match ports with
                   | [] => 0
                   | _ :: _ => MACH_MSGH_BITS_COMPLEX
                   end)
              (MACH_MSGH_BITS (type (remote_port msg))
                 (type (local_port msg))))
  /\ msgh_remote_port (header m) = u32 (name (remote_port msg))
  /\ msgh_local_port (header m) = u32 (name (local_port msg))
  /\ msgh_id (header m) = id msg.
Proof.
  intros ports m.
  destruct (spc_serialize_spec heap msg) as (Hb & Hs & Hbits & Hr & Hl & Hi).
  split; [exact Hb|]. split; [|repeat split; assumption].
  change (value_ports (SPC_DICT (content msg))) with (dict_ports (content msg))
    in ports.
  unfold wire_descriptors. destruct ports as [|p ps]; [reflexivity|].
  rewrite length_app, le_bytes_length, write_descriptors_length. reflexivity.
Qed.

(** [spc_reader_next_port], for every reader state: below the number of
    collected ports it hands out the port at the index and moves the
    index by one; at or beyond it, it hands out the null port and leaves
    the reader as it is. *)
Theorem next_port_hands_out_in_order (r : reader_t) :
  spc_reader_next_port r
  = if next_port r <? Z.of_nat (length (r_ports r)) then
      (nth (Z.to_nat (next_port r)) (r_ports r) SPC_NULL_PORT, moved r 0 1)
    else (SPC_NULL_PORT, r).
Proof.
  unfold spc_reader_next_port.
  destruct (next_port r >=? Z.of_nat (length (r_ports r))) eqn:E.
  - apply Z.geb_le in E. rewrite (proj2 (Z.ltb_ge _ _)) by lia. reflexivity.
  - rewrite Z.geb_leb in E. apply Z.leb_gt in E.
    rewrite (proj2 (Z.ltb_lt _ _)) by lia.
    cbn [next_port r_ports]. unfold moved. f_equal.
    + f_equal. f_equal. lia.
    + f_equal. lia.
Qed.

(** For every table of distinct 32-bit type tags, a record whose tag is
    FD makes [spc_deserialize_value] leave through [exit(-1)]: its
    [switch] has no case for the type that [spc_serialize_value]
    writes. *)
Theorem fd_tag_exits `{spc_types} (fuel : nat) (r : reader_t)
  (b : list byte) (ports : list spc_port_t) :
  spc_types_ok ->
  holds r (le_bytes 4 SPC_TYPE_FD ++ b) ports ->
  spc_deserialize_value (S fuel) r = Exited (-1).
Proof.
  intros types_ok Hr. pose_distinct types_ok.
  assert (Htag : 0 <= SPC_TYPE_FD < 2 ^ 32)
    by exact (types_range types_ok (i := 8) ltac:(lia)).
  cbn [spc_deserialize_value].
  rewrite (spc_read_uint32_at Hr), Z.mod_small by exact Htag.
  cbn [bind]. switch_on_tag. reflexivity.
Qed.

Lemma fd_tag_exits_witness :
  @spc_types_ok xpc_types
  /\ holds (tag_reader 0xb000 [])
       (le_bytes 4 (@SPC_TYPE_FD xpc_types) ++ []) []
  /\ spc_deserialize_value (H := xpc_types) 1 (tag_reader 0xb000 [])
     = Exited (-1).
Proof.
  assert (Hr : holds (tag_reader 0xb000 [])
                 (le_bytes 4 (@SPC_TYPE_FD xpc_types) ++ []) []).
  { split; [split; [cbn; lia|split; [exists []; reflexivity|cbn; lia]]|].
    split; [cbn; lia|exists []; reflexivity]. }
  split; [exact xpc_types_ok|]. split; [exact Hr|].
  exact (@fd_tag_exits xpc_types 0 (tag_reader 0xb000 []) [] []
           xpc_types_ok Hr).
Defined.

(* ================================================================== *)
(** * Two round trips *)

Lemma length_flat_map_rev {A B : Type} (f : A -> list B) (l : list A) :
  length (flat_map f (rev l)) = length (flat_map f l).
Proof.
  induction l as [|x l IH]; [reflexivity|].
  cbn [rev flat_map]. rewrite flat_map_app, !length_app, IH.
  cbn [flat_map]. rewrite app_nil_r. lia.
Qed.

Lemma forallb_rev_eq {A : Type} (f : A -> bool) (l : list A) :
  forallb f (rev l) = forallb f l.
Proof.
  induction l as [|x l IH]; [reflexivity|].
  cbn [rev forallb]. rewrite forallb_app, IH. cbn [forallb].
  rewrite andb_true_r. apply andb_comm.
Qed.

Lemma reverse_dicts_involutive (v : spc_value_t) :
  reverse_dicts (reverse_dicts v) = v.
Proof.
  induction v as [ | u | u | i | d | s | a IH | d IH | p | p | p | u | d | t ]
    using spc_value_induction; cbn [reverse_dicts]; try reflexivity.
  - f_equal. induction IH as [|v a Hv _ IHa]; [reflexivity|].
    cbn [map]. now rewrite Hv, IHa.
  - destruct d as [n l]. cbn [num_items items] in *. do 2 f_equal.
    rewrite map_rev, rev_involutive.
    induction IH as [|it l Hit _ IHl]; [reflexivity|].
    cbn [map key value]. rewrite Hit, IHl. now destruct it.
Qed.

Lemma reverse_dict_involutive (d : spc_dictionary_t) :
  reverse_dict (reverse_dict d) = d.
Proof.
  pose proof (reverse_dicts_involutive (SPC_DICT d)) as E.
  cbn [reverse_dicts] in E. injection E as E.
  destruct d as [n l]. unfold reverse_dict, reverse_item.
  cbn [num_items items] in *. exact E.
Qed.

Lemma well_formed_reverse (v : spc_value_t) :
  well_formed (reverse_dicts v) = well_formed v.
Proof.
  induction v as [ | u | u | i | d | s | a IH | d IH | p | p | p | u | d | t ]
    using spc_value_induction; cbn [reverse_dicts well_formed];
    try reflexivity.
  - rewrite length_map. f_equal.
    induction IH as [|v a Hv _ IHa]; [reflexivity|].
    cbn [map forallb]. now rewrite Hv, IHa.
  - cbn [num_items items]. rewrite length_rev, length_map, forallb_rev_eq.
    f_equal.
    induction IH as [|it l Hit _ IHl]; [reflexivity|].
    cbn [map forallb key value]. now rewrite Hit, IHl.
Qed.

Lemma fd_free_reverse (v : spc_value_t) :
  fd_free (reverse_dicts v) = fd_free v.
Proof.
  induction v as [ | u | u | i | d | s | a IH | d IH | p | p | p | u | d | t ]
    using spc_value_induction; cbn [reverse_dicts fd_free];
    try reflexivity.
  - induction IH as [|v a Hv _ IHa]; [reflexivity|].
    cbn [map forallb]. now rewrite Hv, IHa.
  - cbn [items]. rewrite forallb_rev_eq.
    induction IH as [|it l Hit _ IHl]; [reflexivity|].
    cbn [map forallb value]. now rewrite Hit, IHl.
Qed.

Lemma value_ports_reverse_length (v : spc_value_t) :
  length (value_ports (reverse_dicts v)) = length (value_ports v).
Proof.
  induction v as [ | u | u | i | d | s | a IH | d IH | p | p | p | u | d | t ]
    using spc_value_induction; cbn [reverse_dicts value_ports];
    try reflexivity.
  - induction IH as [|v a Hv _ IHa]; [reflexivity|].
    cbn [map flat_map]. rewrite !length_app. now rewrite Hv, IHa.
  - cbn [items]. rewrite length_flat_map_rev.
    induction IH as [|it l Hit _ IHl]; [reflexivity|].
    cbn [map flat_map value]. rewrite !length_app. now rewrite Hit, IHl.
Qed.

Section TwoRoundTrips.
Context `{spc_types}.
Hypothesis types_ok : spc_types_ok.

Lemma wire_value_reverse_length (v : spc_value_t) :
  length (wire_value (reverse_dicts v)) = length (wire_value v).
Proof.
  induction v as [ | u | u | i | d | s | a IH | d IH | p | p | p | u | d | t ]
    using spc_value_induction;
    cbn [reverse_dicts wire_value value_type]; try reflexivity;
    unfold container_body; rewrite !length_app, !le_bytes_length;
    do 3 f_equal.
  - induction IH as [|v a Hv _ IHa]; [reflexivity|].
    cbn [map flat_map]. rewrite !length_app. now rewrite Hv, IHa.
  - cbn [items]. rewrite length_flat_map_rev.
    induction IH as [|it l Hit _ IHl]; [reflexivity|].
    cbn [map flat_map key value]. rewrite !length_app. now rewrite Hit, IHl.
Qed.

Lemma wire_size_decoded (msg : spc_message_t) :
  wire_size (decoded_message msg) = wire_size msg.
Proof.
  unfold wire_size, wire_inline, decoded_message. cbn [content].
  pose proof (wire_value_reverse_length (SPC_DICT (content msg))) as Hw.
  pose proof (value_ports_reverse_length (SPC_DICT (content msg))) as Hp.
  change (reverse_dicts (SPC_DICT (content msg)))
    with (SPC_DICT (reverse_dict (content msg))) in Hw, Hp.
  change (value_ports (SPC_DICT (reverse_dict (content msg))))
    with (dict_ports (reverse_dict (content msg))) in Hp.
  change (value_ports (SPC_DICT (content msg)))
    with (dict_ports (content msg)) in Hp.
  rewrite !length_app, Hw.
  destruct (dict_ports (reverse_dict (content msg))) as [|p ps],
           (dict_ports (content msg)) as [|q qs];
    try discriminate; [reflexivity|].
  rewrite Hp. reflexivity.
Qed.

Lemma well_formed_decoded (msg : spc_message_t) :
  well_formed_message msg = true ->
  fd_free (SPC_DICT (content msg)) = true ->
  well_formed_message (decoded_message msg) = true
  /\ fd_free (SPC_DICT (content (decoded_message msg))) = true.
Proof.
  intros Hwf Hfd.
  pose proof (well_formed_reverse (SPC_DICT (content msg))) as Hw.
  pose proof (fd_free_reverse (SPC_DICT (content msg))) as Hf.
  change (reverse_dicts (SPC_DICT (content msg)))
    with (SPC_DICT (content (decoded_message msg))) in Hw, Hf.
  split; [|now rewrite Hf].
  unfold well_formed_message in *. rewrite wire_size_decoded, Hw.
  apply andb_true_iff in Hwf as [Hwf Hsize].
  apply andb_true_iff in Hwf as [Hwf Hcontent].
  apply andb_true_iff in Hwf as [Hwf Hid].
  apply andb_true_iff in Hwf as [Hremote Hlocal].
  rewrite Hsize, Hcontent. cbn [decoded_message remote_port local_port id].
  rewrite Hid, Hremote, !andb_true_r. cbn [andb].
  unfold header_port_ok in *. cbn [name type].
  apply andb_true_iff in Hremote as [Hn _].
  apply andb_true_iff in Hlocal as [_ Ht].
  now rewrite Hn, Ht.
Qed.
End TwoRoundTrips.

(** Two round trips restore the content.  For a well-formed message
    without FD values, the message that comes back from a round trip is
    again well-formed, and a second round trip gives back the content
    of the first message, entry for entry: the reversal of the
    dictionaries by [spc_deserialize_dict] undoes itself. *)
Theorem two_round_trips_restore_content `{spc_types}
  (heap heap' : Z -> byte) (msg : spc_message_t) :
  spc_types_ok ->
  well_formed_message msg = true ->
  fd_free (SPC_DICT (content msg)) = true ->
  exists once twice,
    spc_deserialize (spc_serialize heap msg) = Returned (Some once)
    /\ spc_deserialize (spc_serialize heap' once) = Returned (Some twice)
    /\ content twice = content msg
    /\ remote_port twice = remote_port msg
    /\ type (local_port twice) = type (local_port msg)
    /\ id twice = id msg.
Proof.
  intros Hok Hwf Hfd.
  destruct (well_formed_decoded msg Hwf Hfd) as [Hwf' Hfd'].
  exists (decoded_message msg), (decoded_message (decoded_message msg)).
  split; [now apply spc_deserialize_serialize|].
  split; [now apply spc_deserialize_serialize|].
  cbn [decoded_message content remote_port local_port id type].
  split; [apply reverse_dict_involutive|]. repeat split; reflexivity.
Qed.

Lemma two_round_trips_witness :
  @spc_types_ok xpc_types
  /\ well_formed_message (H := xpc_types) sample_message = true
  /\ fd_free (SPC_DICT (content sample_message)) = true
  /\ exists once twice,
       spc_deserialize (H := xpc_types)
         (spc_serialize (H := xpc_types) zero_heap sample_message)
       = Returned (Some once)
       /\ spc_deserialize (H := xpc_types)
            (spc_serialize (H := xpc_types) zero_heap once)
          = Returned (Some twice)
       /\ content twice = content sample_message
       /\ remote_port twice = remote_port sample_message
       /\ type (local_port twice) = type (local_port sample_message)
       /\ id twice = id sample_message.
Proof.
  split; [exact xpc_types_ok|].
  split; [vm_compute; reflexivity|].
  split; [vm_compute; reflexivity|].
  apply (@two_round_trips_restore_content xpc_types zero_heap zero_heap
           sample_message).
  - exact xpc_types_ok.
  - vm_compute; reflexivity.
  - vm_compute; reflexivity.
Defined.

(* ================================================================== *)
(** * The prefix and two encodings *)

(** A message without descriptors whose first eight inline bytes are
    not the prefix [CPX@ 05 00 00 00] is refused: [spc_deserialize]
    returns NULL. *)
Theorem bad_prefix_returns_null `{spc_types} (mach_msg : spc_mach_message_t) :
  msgh_id (header mach_msg) <> MSGID_CONNECTION_INTERRUPTED ->
  Z.land (msgh_bits (header mach_msg)) MACH_MSGH_BITS_COMPLEX = 0 ->
  sizeof_mach_msg_header_t + 8 <= msgh_size (header mach_msg) ->
  firstn 8 (buf mach_msg) <> magic ->
  spc_deserialize mach_msg = Returned None.
Proof.
  intros Hid Hbits Hsize Hmagic. unfold spc_deserialize.
  rewrite (proj2 (Z.eqb_neq _ _) Hid), Hbits. cbn [Z.eqb negb bind].
  unfold spc_read. cbn [r_ptr r_end].
  destruct (0 + 8 >? _) eqn:E; [apply Z.gtb_lt in E; lia|].
  cbn [bind]. unfold slice. cbn [r_mem r_ptr].
  change (Z.to_nat 0) with 0%nat. change (Z.to_nat 8) with 8%nat.
  cbn [skipn].
  destruct (list_eq_dec Byte.byte_eq_dec (firstn 8 (buf mach_msg)) magic);
    [contradiction|reflexivity].
Qed.

Lemma bad_prefix_witness :
  msgh_id (header zero_wire) <> MSGID_CONNECTION_INTERRUPTED
  /\ Z.land (msgh_bits (header zero_wire)) MACH_MSGH_BITS_COMPLEX = 0
  /\ sizeof_mach_msg_header_t + 8 <= msgh_size (header zero_wire)
  /\ firstn 8 (buf zero_wire) <> magic
  /\ spc_deserialize (H := xpc_types) zero_wire = Returned None.
Proof.
  assert (H1 : msgh_id (header zero_wire) <> MSGID_CONNECTION_INTERRUPTED)
    by (vm_compute; discriminate).
  assert (H2 : Z.land (msgh_bits (header zero_wire)) MACH_MSGH_BITS_COMPLEX = 0)
    by (vm_compute; reflexivity).
  assert (H3 : sizeof_mach_msg_header_t + 8 <= msgh_size (header zero_wire))
    by (vm_compute; discriminate).
  assert (H4 : firstn 8 (buf zero_wire) <> magic)
    by (vm_compute; discriminate).
  repeat (split; [assumption|]).
  exact (@bad_prefix_returns_null xpc_types zero_wire H1 H2 H3 H4).
Defined.

(** The message with the empty dictionary encodes to a header of size
    44 without the COMPLEX bit and to the twenty inline bytes
    [CPX@ 05 00 00 00], the tag DICT, the byte size 4 (the count alone)
    and the count 0; it decodes to the empty dictionary. *)
Theorem empty_dictionary_encoding :
  let m := spc_serialize (H := xpc_types) zero_heap empty_message in
  buf m = [x43; x50; x58; x40;  x05; x00; x00; x00;
           x00; xf0; x00; x00;  x04; x00; x00; x00;  x00; x00; x00; x00]
  /\ msgh_size (header m) = 44
  /\ Z.land (msgh_bits (header m)) MACH_MSGH_BITS_COMPLEX = 0
  /\ exists msg,
       spc_deserialize (H := xpc_types) m = Returned (Some msg)
       /\ content msg = {| num_items := 0; items := [] |}.
Proof.
  repeat split; try (vm_compute; reflexivity).
  eexists. split; [vm_compute; reflexivity|reflexivity].
Qed.

(** The message [{"p": SEND_PORT {name 0xdeadbeef, type 17}}] encodes to
    a header with the COMPLEX bit, the descriptor count 1, one port
    descriptor with the name, the disposition 17 and the type
    PORT_DESCRIPTOR, and inline bytes in which the value record is its
    tag alone; decoding recovers the port. *)
Theorem send_port_encoding :
  let m := spc_serialize (H := xpc_types) zero_heap port_message in
  buf m = [x01; x00; x00; x00;
           xef; xbe; xad; xde;  x00; x00; x00; x00;  x00; x00; x11; x00;
           x43; x50; x58; x40;  x05; x00; x00; x00;
           x00; xf0; x00; x00;  x0c; x00; x00; x00;  x01; x00; x00; x00;
           x70; x00; x00; x00;  x00; xd0; x00; x00]
  /\ msgh_size (header m) = 68
  /\ Z.land (msgh_bits (header m)) MACH_MSGH_BITS_COMPLEX
     = MACH_MSGH_BITS_COMPLEX
  /\ exists msg,
       spc_deserialize (H := xpc_types) m = Returned (Some msg)
       /\ content msg = content port_message.
Proof.
  repeat split; try (vm_compute; reflexivity).
  eexists. split; [vm_compute; reflexivity|reflexivity].
Qed.

(* ================================================================== *)
(** * Reading back what the write primitives wrote *)

Lemma holds_read_back (w w' : writer_t) (bytes : list byte)
  (ports : list spc_port_t) :
  appended w bytes ports w' ->
  holds (read_back w w') (bytes ++ []) (ports ++ []).
Proof.
  intros [B P]. unfold holds, at_bytes, at_ports, r_rest, read_back, w_ptr.
  cbn [r_mem r_end r_ptr next_port r_ports].
  rewrite B, P, !Nat2Z.id, !app_nil_r. repeat split; try lia.
  - exists []. rewrite app_nil_r.
    now rewrite skipn_app, skipn_all, Nat.sub_diag.
  - rewrite length_app. lia.
  - exists []. rewrite app_nil_r.
    now rewrite skipn_app, skipn_all, Nat.sub_diag.
Qed.

(** The fixed-width fields read back.  Whatever the state of the
    writer, a reader that stands where the writer stood before
    [spc_write_uint32], [spc_write_uint64] or [spc_write_double] reads
    the value that was written, cut to the width of the field, and has
    advanced by the count that the writer returned. *)
Theorem fixed_width_fields_read_back (w : writer_t) (val : Z) :
  (let out := spc_write_uint32 w val in
   spc_read_uint32 (read_back w (snd out))
   = Returned (val mod 2 ^ 32, moved (read_back w (snd out)) (fst out) 0))
  /\ (let out := spc_write_uint64 w val in
      spc_read_uint64 (read_back w (snd out))
      = Returned (val mod 2 ^ 64, moved (read_back w (snd out)) (fst out) 0))
  /\ (let out := spc_write_double w val in
      spc_read_double (read_back w (snd out))
      = Returned (val mod 2 ^ 64, moved (read_back w (snd out)) (fst out) 0)).
Proof.
  repeat split; cbv zeta.
  - destruct (spc_write_uint32_spec w val) as [N A]. rewrite N.
    exact (spc_read_uint32_at (holds_read_back A)).
  - destruct (spc_write_uint64_spec w val) as [N A]. rewrite N.
    unfold spc_read_uint64.
    rewrite (spc_read_8_at (holds_read_back A)). cbn [bind].
    now rewrite le_value_le_bytes.
  - destruct (spc_write_double_spec w val) as [N A]. rewrite N.
    unfold spc_read_double.
    rewrite (spc_read_8_at (holds_read_back A)). cbn [bind].
    now rewrite le_value_le_bytes.
Qed.

(** A signed 64-bit integer reads back as itself: [spc_write_int64]
    stores it as an unsigned one, [spc_read_int64] reads the eight bytes
    as a signed one. *)
Theorem int64_reads_back (w : writer_t) (val : Z) :
  - 2 ^ 63 <= val < 2 ^ 63 ->
  let out := spc_write_int64 w val in
  spc_read_int64 (read_back w (snd out))
  = Returned (val, moved (read_back w (snd out)) (fst out) 0).
Proof.
  intros Hval out. subst out.
  destruct (spc_write_int64_spec w val) as [N A]. rewrite N.
  unfold spc_read_int64.
  rewrite (spc_read_8_at (holds_read_back A)). cbn [bind].
  now rewrite to_int64_le_bytes.
Qed.

Lemma int64_reads_back_witness :
  - 2 ^ 63 <= -2 < 2 ^ 63
  /\ spc_read_int64
       (read_back fresh_writer (snd (spc_write_int64 fresh_writer (-2))))
     = Returned (-2,
                 moved (read_back fresh_writer
                          (snd (spc_write_int64 fresh_writer (-2))))
                   (fst (spc_write_int64 fresh_writer (-2))) 0).
Proof.
  split; [lia|].
  apply (int64_reads_back fresh_writer (val := -2)). lia.
Defined.

(** A string reads back up to its first NUL.  Whatever the state of
    the writer, a reader that stands where the writer stood before
    [spc_write_str] finds the terminator, [strdup] of what
    [spc_read_str] returns is the string, and the reader has advanced by
    the count that the writer returned: the string, its terminator and
    the padding. *)
Theorem string_reads_back (w : writer_t) (s : list byte) :
  let out := spc_write_str w s in
  let r := read_back w (snd out) in
  ('(res, r') <- spc_read_str r ;;
   str <- strdup res ;;
   Returned (str, r'))
  = Returned (cstr s, moved r (fst out) 0)
  /\ fst out = strlen s + 1 + remainder_of (strlen s + 1).
Proof.
  intros out r. subst out r.
  destruct (spc_write_str_spec w s) as [N A]. rewrite N. split.
  - rewrite (spc_read_str_at (holds_read_back A)). cbn [bind].
    rewrite strdup_padded_cstr. reflexivity.
  - unfold padded_cstr. rewrite padded_length, length_app. cbn [length].
    rewrite Nat2Z.inj_add, <- strlen_cstr. reflexivity.
Qed.

(** A data blob reads back.  Whatever the state of the writer, a
    reader that stands where the writer stood before [spc_write_padded]
    and reads the same number of bytes with [spc_read_padded] is handed
    the blob, followed by the zero bytes of the padding, and has
    advanced by the count that the writer returned. *)
Theorem padded_data_reads_back (w : writer_t) (data : list byte) :
  let out := spc_write_padded w data in
  let r := read_back w (snd out) in
  exists res,
    spc_read_padded r (Z.of_nat (length data))
    = Returned (res, moved r (fst out) 0)
    /\ firstn (length data) res = data
    /\ skipn (length data) res
       = repeat x00 (Z.to_nat (remainder_of (Z.of_nat (length data))))
    /\ fst out mod 4 = 0.
Proof.
  intros out r. subst out r.
  destruct (spc_write_padded_spec w data) as [N A]. rewrite N.
  exists (padded data). split; [|split; [|split]].
  - exact (spc_read_padded_at (holds_read_back A)).
  - unfold padded. now rewrite firstn_app, Nat.sub_diag, firstn_all,
      firstn_O, app_nil_r.
  - unfold padded, padding.
    now rewrite skipn_app, skipn_all, Nat.sub_diag.
  - rewrite padded_length. apply remainder_of_aligned.
Qed.

(* ================================================================== *)
(** * The cursor of the writer and the end of its buffer *)

Lemma put_in_capacity (w : writer_t) (n : Z) (bytes : list byte) :
  in_capacity w -> Z.of_nat (length bytes) <= n ->
  in_capacity (put (spc_ensure_space w n) bytes).
Proof.
  unfold in_capacity, w_ptr, spc_ensure_space. intros Hw Hn.
  fold (w_ptr w).
  destruct (w_ptr w + n >? w_end w) eqn:E;
    cbn [put w_buf w_end]; rewrite length_app; unfold w_ptr in *.
  - lia.
  - rewrite Z.gtb_ltb in E. apply Z.ltb_ge in E. lia.
Qed.

Lemma spc_write_uint32_capacity (w : writer_t) (val : Z) :
  in_capacity w -> in_capacity (snd (spc_write_uint32 w val)).
Proof.
  intros Hw. apply put_in_capacity; [exact Hw|].
  rewrite le_bytes_length. lia.
Qed.

Arguments spc_write_uint32_capacity : clear implicits.

Lemma spc_write_padded_capacity (w : writer_t) (bytes : list byte) :
  in_capacity w -> in_capacity (snd (spc_write_padded w bytes)).
Proof.
  intros Hw. unfold spc_write_padded. cbn [snd].
  fold (remainder_of (Z.of_nat (length bytes))).
  pose proof (remainder_of_range (Z.of_nat (length bytes))) as Hr.
  set (n := Z.of_nat (length bytes)
            + remainder_of (Z.of_nat (length bytes))).
  set (zeros := repeat x00 (Z.to_nat (remainder_of (Z.of_nat (length bytes))))).
  assert (H : put (put (spc_ensure_space w n) bytes) zeros
              = put (spc_ensure_space w n) (bytes ++ zeros)).
  { unfold put. cbn [w_buf w_end w_ports]. now rewrite app_assoc. }
  rewrite H. apply put_in_capacity; [exact Hw|].
  subst n zeros. rewrite length_app, repeat_length. lia.
Qed.

Arguments spc_write_padded_capacity : clear implicits.

Lemma patch_uint32_capacity (w0 w : writer_t) (post : list byte)
  (ports : list spc_port_t) (val : Z) :
  appended w0 (le_bytes 4 0 ++ post) ports w ->
  in_capacity w -> in_capacity (patch_uint32 w (w_ptr w0) val).
Proof.
  intros [B _]. unfold in_capacity, w_ptr, patch_uint32.
  cbn [w_buf w_end]. rewrite B.
  rewrite store_uint32_placeholder by apply le_bytes_length.
  now rewrite !length_app, !le_bytes_length.
Qed.

Arguments patch_uint32_capacity : clear implicits.

Section ContainerWritersCapacity.
Variable ser : writer_t -> spc_value_t -> Z * writer_t.
Variable wire : spc_value_t -> list byte.
Variable vports : spc_value_t -> list spc_port_t.

Lemma write_array_values_capacity (values : list spc_value_t) :
  Forall (fun v => forall w, in_capacity w -> in_capacity (snd (ser w v)))
    values ->
  forall bw w,
    in_capacity w -> in_capacity (snd (write_array_values ser values bw w)).
Proof.
  induction 1 as [|v values Hv _ IH]; intros bw w Hw; [exact Hw|].
  cbn [write_array_values]. specialize (Hv w Hw).
  destruct (ser w v) as [n w1]. cbn [snd] in Hv. now apply IH.
Qed.

Arguments write_array_values_capacity : clear implicits.

Lemma write_dict_items_capacity (l : list spc_dictionary_item_t) :
  Forall (fun it => forall w, in_capacity w ->
                              in_capacity (snd (ser w (value it)))) l ->
  forall bw w,
    in_capacity w -> in_capacity (snd (write_dict_items ser l bw w)).
Proof.
  induction 1 as [|it l Hv _ IH]; intros bw w Hw; [exact Hw|].
  cbn [write_dict_items].
  pose proof (spc_write_padded_capacity w (cstr (key it) ++ [x00]) Hw) as H1.
  fold (spc_write_str w (key it)) in H1.
  destruct (spc_write_str w (key it)) as [n1 w1]. cbn [snd] in H1.
  specialize (Hv w1 H1).
  destruct (ser w1 (value it)) as [n2 w2]. cbn [snd] in Hv. now apply IH.
Qed.

Arguments write_dict_items_capacity : clear implicits.

Lemma write_array_with_capacity (a : spc_array_t) :
  Forall (ser_ok ser wire vports) a ->
  Forall (fun v => forall w, in_capacity w -> in_capacity (snd (ser w v))) a ->
  forall w, in_capacity w -> in_capacity (snd (write_array_with ser w a)).
Proof.
  intros Hok Hcap w Hw. unfold write_array_with.
  destruct (spc_write_uint32_spec w 0) as [_ A0].
  pose proof (spc_write_uint32_capacity w 0 Hw) as C0.
  destruct (spc_write_uint32 w 0) as [n0 w0]. cbn [snd] in A0, C0.
  destruct (spc_write_uint32_spec w0 (Z.of_nat (length a))) as [_ A1].
  pose proof (spc_write_uint32_capacity w0 (Z.of_nat (length a)) C0) as C1.
  destruct (spc_write_uint32 w0 (Z.of_nat (length a))) as [n1 w1].
  cbn [snd] in A1, C1.
  destruct (write_array_values_spec Hok (0 + n1) w1) as [_ A2].
  pose proof (write_array_values_capacity _ Hcap (0 + n1) w1 C1) as C2.
  destruct (write_array_values ser a (0 + n1) w1) as [bw w2].
  cbn [snd] in A2, C2 |- *.
  exact (patch_uint32_capacity _ _ _ _ bw
           (appended_trans A0 (appended_trans A1 A2)) C2).
Qed.

Lemma write_dict_with_capacity (d : spc_dictionary_t) :
  Forall (fun it => ser_ok ser wire vports (value it)) (items d) ->
  Forall (fun it => forall w, in_capacity w ->
                              in_capacity (snd (ser w (value it))))
    (items d) ->
  forall w, in_capacity w -> in_capacity (snd (write_dict_with ser w d)).
Proof.
  intros Hok Hcap w Hw. unfold write_dict_with.
  destruct (spc_write_uint32_spec w 0) as [_ A0].
  pose proof (spc_write_uint32_capacity w 0 Hw) as C0.
  destruct (spc_write_uint32 w 0) as [n0 w0]. cbn [snd] in A0, C0.
  destruct (spc_write_uint32_spec w0 (num_items d)) as [_ A1].
  pose proof (spc_write_uint32_capacity w0 (num_items d) C0) as C1.
  destruct (spc_write_uint32 w0 (num_items d)) as [n1 w1].
  cbn [snd] in A1, C1.
  destruct (write_dict_items_spec Hok (0 + n1) w1) as [_ A2].
  pose proof (write_dict_items_capacity _ Hcap (0 + n1) w1 C1) as C2.
  destruct (write_dict_items ser (items d) (0 + n1) w1) as [bw w2].
  cbn [snd] in A2, C2 |- *.
  exact (patch_uint32_capacity _ _ _ _ bw
           (appended_trans A0 (appended_trans A1 A2)) C2).
Qed.
End ContainerWritersCapacity.

Arguments write_array_with_capacity : clear implicits.
Arguments write_dict_with_capacity : clear implicits.

(** If the cursor of the writer is not behind the end of its buffer
    before [spc_serialize_value], it is not behind it afterwards. *)
Lemma spc_serialize_value_capacity `{spc_types} (v : spc_value_t)
  (w : writer_t) :
  in_capacity w -> in_capacity (snd (spc_serialize_value w v)).
Proof.
  revert w.
  induction v as [ | u | u | i | d | s | a IH | d IH | p | p | p | u | d | t ]
    using spc_value_induction; intros w Hw;
    cbn [spc_serialize_value];
    match goal with
    | |- context [spc_write_uint32 w ?t] =>
        pose proof (spc_write_uint32_capacity w t Hw) as C0;
        destruct (spc_write_uint32 w t) as [n0 w0]; cbn [snd] in C0
    end;
    try exact C0.
  - exact (spc_write_uint32_capacity w0 u C0).
  - apply put_in_capacity; [exact C0|rewrite le_bytes_length; lia].
  - apply put_in_capacity; [exact C0|rewrite le_bytes_length; lia].
  - apply put_in_capacity; [exact C0|rewrite le_bytes_length; lia].
  - pose proof (spc_write_uint32_capacity w0 (strlen s + 1) C0) as C1.
    destruct (spc_write_uint32 w0 (strlen s + 1)) as [n1 w1]. cbn [snd] in C1.
    pose proof (spc_write_padded_capacity w1 (cstr s ++ [x00]) C1) as C2.
    fold (spc_write_str w1 s) in C2.
    destruct (spc_write_str w1 s) as [n2 w2]. exact C2.
  - assert (Hok : Forall (ser_ok spc_serialize_value wire_value value_ports) a)
      by (apply Forall_forall; intros; apply spc_serialize_value_spec).
    pose proof (write_array_with_capacity _ _ _ a Hok IH w0 C0) as C1.
    destruct (write_array_with spc_serialize_value w0 a) as [n1 w1].
    exact C1.
  - assert (Hok : Forall (fun it => ser_ok spc_serialize_value wire_value
                                      value_ports (value it)) (items d))
      by (apply Forall_forall; intros; apply spc_serialize_value_spec).
    pose proof (write_dict_with_capacity _ _ _ d Hok IH w0 C0) as C1.
    destruct (write_dict_with spc_serialize_value w0 d) as [n1 w1].
    exact C1.
  - apply put_in_capacity; [exact C0|rewrite le_bytes_length; lia].
  - pose proof (spc_write_uint32_capacity w0 (Z.of_nat (length d)) C0) as C1.
    destruct (spc_write_uint32 w0 (Z.of_nat (length d))) as [n1 w1].
    cbn [snd] in C1.
    pose proof (spc_write_padded_capacity w1 d C1) as C2.
    destruct (spc_write_padded w1 d) as [n2 w2]. exact C2.
Qed.

(* ================================================================== *)
(** * The size fields are read and dropped *)

Ltac same_reader :=
  rewrite ?moved_moved;
  do 2 f_equal;
  try reflexivity;
  try (apply reader_eq;
       rewrite ?length_app, ?Nat2Z.inj_add, ?container_body_length,
         ?length_app, ?Nat2Z.inj_add, ?le_bytes_length;
       cbn [length]; lia).

(** The decoder reads the length field of a string and the byte size of
    an array or a dictionary, and drops them: whatever 32-bit pattern
    stands in the field, the record decodes to the same value and the
    reader advances by the same number of bytes.  (The size of a data
    blob is used: it is not among these fields.) *)
Theorem size_fields_are_not_checked `{spc_types} (size : Z)
  (v : spc_value_t) (fuel : nat) (r : reader_t) (b2 : list byte)
  (p2 : list spc_port_t) :
  spc_types_ok ->
  well_formed v = true -> fd_free v = true -> (cost v <= fuel)%nat ->
  holds r (wire_value_sized size v ++ b2) (value_ports v ++ p2) ->
  spc_deserialize_value fuel r
  = Returned (reverse_dicts v,
              moved r (Z.of_nat (length (wire_value v)))
                (Z.of_nat (length (value_ports v)))).
Proof.
  intros types_ok Hwf Hfd Hf Hr.
  assert (Hall : forall v', decodes v')
    by (intros v'; exact (spc_deserialize_value_wire types_ok v')).
  pose proof (value_type_range types_ok _ Hwf) as Htag.
  pose_distinct types_ok.
  destruct v as [ | u | u | i | d | s | a | d | p | p | p | u | d | t ];
    try exact (spc_deserialize_value_wire types_ok _ Hwf Hfd Hf b2 p2 Hr);
    (destruct fuel as [|fuel]; [cbn in Hf; lia|]);
    cbn [spc_deserialize_value];
    cbn [wire_value_sized wire_value value_ports value_type] in Hr, Htag |- *;
    unfold wire_array_payload, wire_dict_payload, wire_item in Hr;
    rewrite <- ?app_assoc in Hr;
    rewrite (spc_read_uint32_at Hr), Z.mod_small by exact Htag;
    apply holds_after_uint32 in Hr;
    cbn [bind well_formed] in *; switch_on_tag.
  - (* STRING *)
    rewrite (spc_read_uint32_at Hr). cbn [bind].
    apply holds_after_uint32 in Hr.
    rewrite (spc_read_str_at Hr). cbn [bind].
    rewrite strdup_padded_cstr. cbn [bind].
    rewrite (cstr_nul_free _ Hwf). cbn [reverse_dicts].
    same_reader.
  - (* ARRAY *)
    apply andb_true_iff in Hwf as [Hlen Hwf]. apply Z.ltb_lt in Hlen.
    cbn [cost fd_free] in Hf, Hfd.
    unfold deserialize_array_with.
    rewrite (spc_read_uint32_at Hr). cbn [bind].
    apply holds_after_uint32 in Hr.
    rewrite (spc_read_uint32_at Hr), Z.mod_small by lia. cbn [bind].
    apply holds_after_uint32 in Hr.
    unfold spc_array_create.
    change 0 with (Z.of_nat (length (@nil spc_value_t))) at 1.
    assert (Hc : (list_sum (map cost a) <= fuel)%nat) by lia.
    assert (Hn : (length a < fuel)%nat) by lia.
    assert (Ha : Forall decodes a) by (apply Forall_forall; intros; apply Hall).
    rewrite (read_array_values_at (decodes_all Ha Hwf Hfd Hc)
               (acc := []) (total := Z.of_nat (length a)) Hn eq_refl Hr).
    cbn [bind app reverse_dicts]. same_reader.
  - (* DICT *)
    apply andb_true_iff in Hwf as [Hlen Hwf].
    apply andb_true_iff in Hlen as [Hnum Hlen].
    apply Z.ltb_lt in Hlen. apply Z.eqb_eq in Hnum.
    cbn [cost fd_free] in Hf, Hfd.
    unfold deserialize_dict_with.
    rewrite (spc_read_uint32_at Hr). cbn [bind].
    apply holds_after_uint32 in Hr.
    rewrite (spc_read_uint32_at Hr), Z.mod_small by lia. cbn [bind].
    apply holds_after_uint32 in Hr.
    assert (Hc : (list_sum (map (fun it => cost (value it)) (items d))
                  <= fuel)%nat) by lia.
    assert (Hn : (length (items d) < fuel)%nat) by lia.
    assert (Hd : Forall (fun it => decodes (value it)) (items d))
      by (apply Forall_forall; intros; apply Hall).
    rewrite (read_dict_items_at (decodes_all_items Hd Hwf Hfd Hc)
               (i := 0)
               (d := {| num_items := num_items d;
                        items := items spc_dictionary_create |})
               Hn (eq_sym Hnum) Hr).
    cbn [bind num_items items spc_dictionary_create].
    rewrite app_nil_r, (reverse_items_nul_free _ Hwf).
    cbn [reverse_dicts]. same_reader.
Qed.

Lemma size_fields_witness :
  let v := SPC_ARRAY [SPC_STRING [x76]; SPC_BOOL 1] in
  let r := {| r_mem := wire_value_sized (H := xpc_types) 0xffffffff v;
              r_end := 32; r_ptr := 0; next_port := 0; r_ports := [] |} in
  @spc_types_ok xpc_types
  /\ well_formed v = true /\ fd_free v = true /\ (cost v <= 6)%nat
  /\ holds r (wire_value_sized (H := xpc_types) 0xffffffff v ++ [])
       (value_ports v ++ [])
  /\ spc_deserialize_value (H := xpc_types) 6 r
     = Returned (reverse_dicts v,
                 moved r (Z.of_nat (length (wire_value (H := xpc_types) v)))
                   (Z.of_nat (length (value_ports v)))).
Proof.
  intros v r.
  assert (Hr : holds r (wire_value_sized (H := xpc_types) 0xffffffff v ++ [])
                 (value_ports v ++ [])).
  { split; [split; [vm_compute; discriminate|split]|split].
    - exists []. reflexivity.
    - vm_compute; discriminate.
    - vm_compute; discriminate.
    - exists []. reflexivity. }
  split; [exact xpc_types_ok|].
  split; [reflexivity|]. split; [reflexivity|].
  split; [vm_compute; lia|]. split; [exact Hr|].
  apply (@size_fields_are_not_checked xpc_types 0xffffffff v 6 r [] []).
  - exact xpc_types_ok.
  - reflexivity.
  - reflexivity.
  - vm_compute; lia.
  - exact Hr.
Defined.

(* ================================================================== *)
(** * Messages with more in them than their content *)

(** [spc_deserialize] stops behind the root record.  A message whose
    payload is the descriptors of the ports of a well-formed value [v]
    and of any further ports, the prefix, the record of [v] and any
    bytes behind it, decodes as if the further ports and the bytes
    behind the record were not there: the surplus descriptors are
    collected and never handed out, and nothing checks that the cursor
    has reached the end.  If [v] is a dictionary, the message with its
    content is returned; if it is any other value, NULL is. *)
Theorem surplus_bytes_and_ports_are_ignored `{spc_types}
  (hdr : mach_msg_header_t) (heap : Z -> byte) (v : spc_value_t)
  (extra : list spc_port_t) (junk : list byte) :
  spc_types_ok ->
  well_formed v = true -> fd_free v = true ->
  Forall (fun p => port_ok p = true) extra ->
  Z.of_nat (length (value_ports v ++ extra)) < 2 ^ 32 ->
  msgh_id hdr <> MSGID_CONNECTION_INTERRUPTED ->
  (Z.land (msgh_bits hdr) MACH_MSGH_BITS_COMPLEX =? 0)
  = match value_ports v ++ extra with [] => true | _ :: _ => false end ->
  msgh_size hdr
  = sizeof_mach_msg_header_t
    + Z.of_nat (length (buf (wire_message hdr heap (value_ports v ++ extra)
                               v junk))) ->
  spc_deserialize (wire_message hdr heap (value_ports v ++ extra) v junk)
  = Returned (decoded_root hdr v).
Proof.
  intros types_ok Hwf Hfd Hextra Hcount Hid Hbits Hsize.
  assert (Hports : Forall (fun p => port_ok p = true) (value_ports v ++ extra))
    by (apply Forall_app; split; [now apply well_formed_ports|exact Hextra]).
  pose proof (cost_le_wire v) as Hcost.
  pose proof (spc_deserialize_value_wire types_ok v Hwf Hfd) as Hdec.
  unfold spc_deserialize, wire_message in *. cbn [header buf] in *.
  rewrite (proj2 (Z.eqb_neq _ _) Hid), Hbits.
  assert (Htail :
    forall r,
      holds r (magic ++ wire_value v ++ junk) (value_ports v ++ extra) ->
      r_end r - r_ptr r = Z.of_nat (length (magic ++ wire_value v ++ junk)) ->
      ('(prefix, reader) <- spc_read r 8 ;;
       if negb (if list_eq_dec Byte.byte_eq_dec prefix magic
                then true else false)
       then Returned None
       else
         '(value, reader) <- spc_deserialize_value (fuel_for reader) reader ;;
         match value with
         | SPC_DICT dict =>
             Returned
               (Some
                  {| remote_port :=
                       {| name := msgh_remote_port hdr;
                          type := MACH_MSGH_BITS_REMOTE (msgh_bits hdr) |};
                     local_port :=
                       {| name := msgh_remote_port hdr;
                          type := MACH_MSGH_BITS_LOCAL (msgh_bits hdr) |};
                     id := msgh_id hdr;
                     content := dict |})
         | _ => Returned None
         end)
      = Returned (decoded_root hdr v)).
  { intros r Hr Hlen.
    rewrite (spc_read_at Hr (len := 8)) by reflexivity. cbn [bind].
    destruct (list_eq_dec Byte.byte_eq_dec magic magic) as [_|Hne];
      [|now elim Hne].
    cbn [negb].
    apply holds_after_bytes with (n := 8) in Hr; [|reflexivity].
    rewrite (Hdec (fuel_for (moved r 8 0)) ltac:(
               unfold fuel_for; cbn [moved r_end r_ptr];
               rewrite !length_app in Hlen; cbn [length magic] in Hlen; lia)
               _ _ _ Hr).
    cbn [bind]. unfold decoded_root.
    destruct (reverse_dicts v); reflexivity. }
  unfold wire_descriptors in *.
  destruct (value_ports v ++ extra) as [|p ports] eqn:Eports.
  - cbn [negb bind app] in *.
    apply Htail; [|cbn [r_end r_ptr]; lia].
    split; [split; [cbn; lia|split]|split; [cbn; lia|]].
    + exists []. unfold r_rest. cbn [r_ptr r_mem skipn Z.to_nat].
      now rewrite !app_nil_r.
    + cbn [r_ptr r_end]. unfold sizeof_mach_msg_header_t in *. lia.
    + exists []. reflexivity.
  - cbn [negb].
    unfold sizeof_mach_msg_header_t, sizeof_mach_msg_body_t,
      sizeof_mach_msg_port_descriptor_t in *.
    rewrite !length_app, le_bytes_length, write_descriptors_length in Hsize.
    set (n := Z.of_nat (length (p :: ports))) in *.
    assert (Hn : 0 <= n) by (subst n; lia).
    set (r0 := {| r_mem := _; r_end := _; r_ptr := 0; next_port := 0;
                  r_ports := [] |}).
    assert (Hr0 : holds r0 (le_bytes 4 n ++ []) []).
    { split; [split; [cbn; lia|split]|split; [cbn; lia|]].
      - exists (write_descriptors heap (24 + 4) (p :: ports)
                  ++ magic ++ wire_value v ++ junk).
        unfold r_rest. cbn [r0 r_ptr r_mem skipn Z.to_nat].
        rewrite app_nil_r, <- app_assoc. reflexivity.
      - cbn [r0 r_ptr r_end]. rewrite app_nil_r, le_bytes_length. lia.
      - exists []. reflexivity. }
    rewrite (spc_read_at Hr0 (len := 4)) by now rewrite le_bytes_length.
    cbn [bind]. rewrite le_value_le_bytes_small
      by (change (256 ^ Z.of_nat 4) with (2 ^ 32); lia).
    erewrite (read_descriptors_at (heap := heap) Hports
                (off := 24 + 4) (rest := magic ++ wire_value v ++ junk));
      cbn [moved r0 r_mem r_end r_ptr next_port r_ports];
      [ | unfold fuel_for; cbn [moved r0 r_end r_ptr]; fold n; lia
        | fold n; lia | lia | lia | | fold n; lia ].
    + cbn [bind]. apply Htail;
        [|cbn [r_end r_ptr]; fold n; rewrite !length_app; lia].
      split; [split; [cbn [r_ptr]; fold n; lia|split]|split; [cbn; lia|]].
      * exists []. unfold r_rest. cbn [r_ptr r_mem].
        rewrite !app_nil_r.
        replace (Z.to_nat (0 + 4 + 12 * Z.of_nat (length (p :: ports))))
          with (0 + length (le_bytes 4 n)
                + length (write_descriptors heap (24 + 4) (p :: ports)))%nat
          by (rewrite write_descriptors_length, le_bytes_length; lia).
        apply skipn_app_exact, skipn_app_exact. cbn [skipn].
        now rewrite <- app_assoc.
      * cbn [r_ptr r_end]. fold n. rewrite !length_app in *. lia.
      * exists []. cbn [next_port r_ports].
        change (Z.to_nat (0 + 0)) with 0%nat. cbn [skipn app].
        now rewrite !app_nil_r.
    + unfold r_rest. cbn [moved r0 r_mem r_ptr].
      change (Z.to_nat (0 + 4)) with (0 + length (le_bytes 4 n))%nat.
      apply skipn_app_exact. cbn [skipn]. now rewrite <- app_assoc.
Qed.

Lemma surplus_witness :
  let v := SPC_DICT (content port_message) in
  let extra := [{| name := 9; type := 17 |}] in
  let junk := [x01; x02; x03] in
  let hdr :=
    sample_header (Z.lor MACH_MSGH_BITS_COMPLEX (MACH_MSGH_BITS 19 21)) 83 in
  @spc_types_ok xpc_types
  /\ well_formed v = true /\ fd_free v = true
  /\ Forall (fun p => port_ok p = true) extra
  /\ Z.of_nat (length (value_ports v ++ extra)) < 2 ^ 32
  /\ msgh_id hdr <> MSGID_CONNECTION_INTERRUPTED
  /\ (Z.land (msgh_bits hdr) MACH_MSGH_BITS_COMPLEX =? 0)
     = match value_ports v ++ extra with [] => true | _ :: _ => false end
  /\ msgh_size hdr
     = sizeof_mach_msg_header_t
       + Z.of_nat (length (buf (wire_message (H := xpc_types) hdr zero_heap
                                  (value_ports v ++ extra) v junk)))
  /\ spc_deserialize (H := xpc_types)
       (wire_message (H := xpc_types) hdr zero_heap (value_ports v ++ extra)
          v junk)
     = Returned (decoded_root hdr v).
Proof.
  intros v extra junk hdr.
  assert (H1 : well_formed v = true) by reflexivity.
  assert (H2 : fd_free v = true) by reflexivity.
  assert (H3 : Forall (fun p => port_ok p = true) extra)
    by (repeat constructor).
  assert (H4 : Z.of_nat (length (value_ports v ++ extra)) < 2 ^ 32)
    by (vm_compute; reflexivity).
  assert (H5 : msgh_id hdr <> MSGID_CONNECTION_INTERRUPTED)
    by (vm_compute; discriminate).
  assert (H6 : (Z.land (msgh_bits hdr) MACH_MSGH_BITS_COMPLEX =? 0)
               = match value_ports v ++ extra with
                 | [] => true
                 | _ :: _ => false
                 end)
    by (vm_compute; reflexivity).
  assert (H7 : msgh_size hdr
               = sizeof_mach_msg_header_t
                 + Z.of_nat
                     (length (buf (wire_message (H := xpc_types) hdr zero_heap
                                     (value_ports v ++ extra) v junk))))
    by (vm_compute; reflexivity).
  split; [exact xpc_types_ok|].
  repeat (split; [assumption|]).
  exact (@surplus_bytes_and_ports_are_ignored xpc_types hdr zero_heap v extra
           junk xpc_types_ok H1 H2 H3 H4 H5 H6 H7).
Defined.

(* ================================================================== *)
(** * What the decoder returns *)

Unset Implicit Arguments.

Lemma same_message_refl (r : reader_t) : same_message r r.
Proof. repeat split. Qed.

Lemma same_message_trans (r1 r2 r3 : reader_t) :
  same_message r1 r2 -> same_message r2 r3 -> same_message r1 r3.
Proof.
  unfold same_message. intros (A1 & A2 & A3) (B1 & B2 & B3).
  repeat split; congruence.
Qed.

Lemma ports_ok_same (r r' : reader_t) :
  same_message r r' -> ports_ok r -> ports_ok r'.
Proof. unfold ports_ok. intros (_ & _ & E). now rewrite E. Qed.

Lemma le_value_bound (l : list byte) (n : nat) :
  (length l <= n)%nat -> 0 <= le_value l < 256 ^ Z.of_nat n.
Proof.
  intros Hl. pose proof (le_value_range l) as [H0 H1]. split; [exact H0|].
  eapply Z.lt_le_trans; [exact H1|]. apply Z.pow_le_mono_r; lia.
Qed.

Lemma to_int64_range (z : Z) :
  0 <= z < 2 ^ 64 -> - 2 ^ 63 <= to_int64 z < 2 ^ 63.
Proof.
  intros Hz. unfold to_int64. destruct (z <? 2 ^ 63) eqn:E.
  - apply Z.ltb_lt in E. lia.
  - apply Z.ltb_ge in E. lia.
Qed.

Lemma spc_read_same (r : reader_t) (len : Z) (x : list byte) (r' : reader_t) :
  spc_read r len = Returned (x, r') ->
  same_message r r' /\ (length x <= Z.to_nat len)%nat.
Proof.
  unfold spc_read. destruct (_ >? _); [discriminate|].
  intros E. injection E as <- <-. split; [repeat split|].
  unfold slice. rewrite length_firstn. lia.
Qed.

Lemma spc_read_uint32_same (r : reader_t) (x : Z) (r' : reader_t) :
  spc_read_uint32 r = Returned (x, r') ->
  same_message r r' /\ 0 <= x < 2 ^ 32.
Proof.
  unfold spc_read_uint32. intros E.
  apply bind_returned in E as ([bytes r1] & E1 & E2).
  injection E2 as <- <-. apply spc_read_same in E1 as [Hs Hl].
  split; [exact Hs|]. exact (le_value_bound bytes 4 Hl).
Qed.

Lemma spc_read_8_same (r : reader_t) (x : list byte) (r' : reader_t) :
  spc_read r 8 = Returned (x, r') ->
  same_message r r' /\ 0 <= le_value x < 2 ^ 64.
Proof.
  intros E. apply spc_read_same in E as [Hs Hl].
  split; [exact Hs|]. exact (le_value_bound x 8 Hl).
Qed.

Lemma spc_read_str_same (r : reader_t) (s : option (list byte))
  (r' : reader_t) :
  spc_read_str r = Returned (s, r') -> same_message r r'.
Proof.
  unfold spc_read_str. destruct (memchr0 _) as [k|].
  - intros E. apply bind_returned in E as ([bytes r1] & E1 & E2).
    injection E2 as _ <-. unfold spc_read_padded in E1.
    now apply spc_read_same in E1.
  - intros E. injection E as _ <-. apply same_message_refl.
Qed.

Lemma strdup_nul_free (s : option (list byte)) (k : list byte) :
  strdup s = Returned k -> nul_free k = true.
Proof.
  destruct s as [bytes|]; [|discriminate].
  intros E. injection E as <-. apply nul_free_cstr.
Qed.

Lemma spc_reader_next_port_good (r : reader_t) :
  same_message r (snd (spc_reader_next_port r))
  /\ (ports_ok r -> port_ok (fst (spc_reader_next_port r)) = true).
Proof.
  unfold spc_reader_next_port.
  destruct (_ >=? _); cbn [fst snd]; (split; [repeat split|]);
    intros Hp; [reflexivity|].
  match goal with
  | |- port_ok (nth ?n ?l ?d) = true =>
      destruct (nth_in_or_default n l d) as [Hin | ->]; [|reflexivity]
  end.
  unfold ports_ok in Hp. rewrite Forall_forall in Hp. now apply Hp.
Qed.

Section ContainerReadersGood.
Variable dv : reader_t -> outcome (spc_value_t * reader_t).
Hypothesis dv_good :
  forall r v r',
    dv r = Returned (v, r') ->
    same_message r r'
    /\ (ports_ok r -> well_formed v = true /\ fd_free v = true).

Lemma read_array_values_good (fuel : nat) :
  forall i len acc r a r',
    i = Z.of_nat (length acc) -> i <= len ->
    read_array_values dv fuel i len acc r = Returned (a, r') ->
    same_message r r'
    /\ Z.of_nat (length a) = len
    /\ (ports_ok r ->
        forallb well_formed acc = true -> forallb fd_free acc = true ->
        forallb well_formed a = true /\ forallb fd_free a = true).
Proof.
  induction fuel as [|fuel IH]; intros i len acc r a r' Hi Hle E;
    [discriminate|].
  cbn [read_array_values] in E. destruct (i <? len) eqn:El.
  - apply Z.ltb_lt in El.
    apply bind_returned in E as ([v r1] & E1 & E2).
    destruct (dv_good _ _ _ E1) as (S1 & G1).
    subst i. rewrite spc_array_set_value_end in E2.
    assert (Hi' : Z.of_nat (length acc) + 1 = Z.of_nat (length (acc ++ [v])))
      by (rewrite length_app; cbn [length]; lia).
    assert (Hle' : Z.of_nat (length acc) + 1 <= len) by lia.
    destruct (IH _ _ _ _ _ _ Hi' Hle' E2) as (S2 & L & G2).
    split; [eapply same_message_trans; eassumption|]. split; [exact L|].
    intros Hp Hw Hf. destruct (G1 Hp) as [Wv Fv].
    apply G2; [eapply ports_ok_same; eassumption| |];
      rewrite forallb_app; cbn [forallb];
      rewrite ?Hw, ?Hf, ?Wv, ?Fv; reflexivity.
  - apply Z.ltb_ge in El. injection E as <- <-.
    split; [apply same_message_refl|]. split; [lia|auto].
Qed.

Lemma read_dict_items_good (fuel : nat) :
  forall i d r d' r',
    i = Z.of_nat (length (items d)) -> i <= num_items d ->
    read_dict_items dv fuel i d r = Returned (d', r') ->
    same_message r r'
    /\ num_items d' = num_items d
    /\ Z.of_nat (length (items d')) = num_items d
    /\ (ports_ok r ->
        forallb (fun it => nul_free (key it) && well_formed (value it))
          (items d) = true ->
        forallb (fun it => fd_free (value it)) (items d) = true ->
        forallb (fun it => nul_free (key it) && well_formed (value it))
          (items d') = true
        /\ forallb (fun it => fd_free (value it)) (items d') = true).
Proof.
  induction fuel as [|fuel IH]; intros i d r d' r' Hi Hle E;
    [discriminate|].
  cbn [read_dict_items] in E. destruct (i <? num_items d) eqn:El.
  - apply Z.ltb_lt in El.
    apply bind_returned in E as ([str r1] & E1 & E).
    apply bind_returned in E as (k & Ek & E).
    apply bind_returned in E as ([v r2] & E2 & E).
    apply spc_read_str_same in E1 as S1.
    apply strdup_nul_free in Ek.
    destruct (dv_good _ _ _ E2) as (S2 & G2).
    set (d1 := {| num_items := num_items d;
                  items := {| key := k; value := v |} :: items d |}) in *.
    assert (Hi' : i + 1 = Z.of_nat (length (items d1)))
      by (subst d1; cbn [items length]; lia).
    assert (Hle' : i + 1 <= num_items d1) by (subst d1; cbn [num_items]; lia).
    destruct (IH _ _ _ _ _ Hi' Hle' E) as (S3 & N & L & G3).
    subst d1.
    cbn [num_items items] in *.
    split; [eapply same_message_trans;
            [eapply same_message_trans; eassumption|eassumption]|].
    split; [exact N|]. split; [exact L|].
    intros Hp Hw Hf.
    assert (Hp1 : ports_ok r1) by (eapply ports_ok_same; eassumption).
    destruct (G2 Hp1) as [Wv Fv].
    apply G3; [eapply ports_ok_same; eassumption| |];
      cbn [forallb key value]; rewrite ?Ek, ?Wv, ?Fv, ?Hw, ?Hf; reflexivity.
  - apply Z.ltb_ge in El. injection E as <- <-.
    split; [apply same_message_refl|]. split; [reflexivity|].
    split; [lia|auto].
Qed.
End ContainerReadersGood.

Section DecoderGood.
Context `{spc_types}.

Lemma spc_deserialize_value_good (fuel : nat) :
  forall r v r',
    spc_deserialize_value fuel r = Returned (v, r') ->
    same_message r r'
    /\ (ports_ok r -> well_formed v = true /\ fd_free v = true).
Proof.
  induction fuel as [|fuel IH]; intros r v r' E; [discriminate|].
  cbn [spc_deserialize_value] in E.
  apply bind_returned in E as ([t r1] & E1 & E).
  apply spc_read_uint32_same in E1 as [S1 _].
  assert (Hp1 : ports_ok r -> ports_ok r1)
    by (intros Hp; eapply ports_ok_same; eassumption).
  destruct (t =? SPC_TYPE_NULL).
  { injection E as <- <-. split; [exact S1|]. intros _. split; reflexivity. }
  destruct (t =? SPC_TYPE_BOOL).
  { apply bind_returned in E as ([u r2] & E2 & E). injection E as <- <-.
    apply spc_read_uint32_same in E2 as [S2 Hu].
    split; [eapply same_message_trans; eassumption|]. intros _.
    split; [|reflexivity]. cbn [well_formed]. now apply in_range_spec. }
  destruct (t =? SPC_TYPE_UINT64).
  { unfold spc_read_uint64 in E.
    apply bind_returned in E as ([u r2] & E2 & E). injection E as <- <-.
    apply bind_returned in E2 as ([bytes r3] & E3 & E2).
    injection E2 as <- <-. apply spc_read_8_same in E3 as [S2 Hu].
    split; [eapply same_message_trans; eassumption|]. intros _.
    split; [|reflexivity]. cbn [well_formed]. now apply in_range_spec. }
  destruct (t =? SPC_TYPE_INT64).
  { unfold spc_read_int64 in E.
    apply bind_returned in E as ([u r2] & E2 & E). injection E as <- <-.
    apply bind_returned in E2 as ([bytes r3] & E3 & E2).
    injection E2 as <- <-. apply spc_read_8_same in E3 as [S2 Hu].
    split; [eapply same_message_trans; eassumption|]. intros _.
    split; [|reflexivity]. cbn [well_formed]. apply in_range_spec.
    now apply to_int64_range. }
  destruct (t =? SPC_TYPE_DOUBLE).
  { unfold spc_read_double in E.
    apply bind_returned in E as ([u r2] & E2 & E). injection E as <- <-.
    apply bind_returned in E2 as ([bytes r3] & E3 & E2).
    injection E2 as <- <-. apply spc_read_8_same in E3 as [S2 Hu].
    split; [eapply same_message_trans; eassumption|]. intros _.
    split; [|reflexivity]. cbn [well_formed]. now apply in_range_spec. }
  destruct (t =? SPC_TYPE_STRING).
  { apply bind_returned in E as ([n r2] & E2 & E).
    apply bind_returned in E as ([s r3] & E3 & E).
    apply bind_returned in E as (k & Ek & E). injection E as <- <-.
    apply spc_read_uint32_same in E2 as [S2 _].
    apply spc_read_str_same in E3 as S3. apply strdup_nul_free in Ek.
    split; [eapply same_message_trans;
            [eapply same_message_trans; eassumption|eassumption]|].
    intros _. split; [exact Ek|reflexivity]. }
  destruct (t =? SPC_TYPE_ARRAY).
  { apply bind_returned in E as ([a r2] & E2 & E). injection E as <- <-.
    unfold deserialize_array_with in E2.
    apply bind_returned in E2 as ([size r3] & E3 & E2).
    apply bind_returned in E2 as ([len r4] & E4 & E2).
    apply spc_read_uint32_same in E3 as [S3 _].
    apply spc_read_uint32_same in E4 as [S4 Hlen].
    assert (Hle : 0 <= len) by lia.
    destruct (read_array_values_good _ IH fuel 0 len spc_array_create
                r4 a r2 eq_refl Hle E2) as (S5 & L & G).
    assert (S : same_message r r2).
    { eapply same_message_trans; [exact S1|].
      eapply same_message_trans; [exact S3|].
      eapply same_message_trans; [exact S4|exact S5]. }
    split; [exact S|]. intros Hp.
    assert (Hp4 : ports_ok r4).
    { eapply ports_ok_same; [|exact (Hp1 Hp)].
      eapply same_message_trans; eassumption. }
    destruct (G Hp4 eq_refl eq_refl) as [W F].
    cbn [well_formed fd_free]. rewrite W, F, L.
    rewrite (proj2 (Z.ltb_lt _ _)) by lia. split; reflexivity. }
  destruct (t =? SPC_TYPE_DICT).
  { apply bind_returned in E as ([d r2] & E2 & E). injection E as <- <-.
    unfold deserialize_dict_with in E2.
    apply bind_returned in E2 as ([size r3] & E3 & E2).
    apply bind_returned in E2 as ([n r4] & E4 & E2).
    apply spc_read_uint32_same in E3 as [S3 _].
    apply spc_read_uint32_same in E4 as [S4 Hn].
    set (d0 := {| num_items := n; items := items spc_dictionary_create |})
      in *.
    assert (Hle : 0 <= num_items d0) by (subst d0; cbn [num_items]; lia).
    destruct (read_dict_items_good _ IH fuel 0 d0 r4 d r2 eq_refl Hle E2)
      as (S5 & N & L & G).
    subst d0.
    cbn [num_items items spc_dictionary_create] in *.
    assert (S : same_message r r2).
    { eapply same_message_trans; [exact S1|].
      eapply same_message_trans; [exact S3|].
      eapply same_message_trans; [exact S4|exact S5]. }
    split; [exact S|]. intros Hp.
    assert (Hp4 : ports_ok r4).
    { eapply ports_ok_same; [|exact (Hp1 Hp)].
      eapply same_message_trans; eassumption. }
    destruct (G Hp4 eq_refl eq_refl) as [W F].
    cbn [well_formed fd_free]. rewrite W, F, N, L, Z.eqb_refl.
    rewrite (proj2 (Z.ltb_lt _ _)) by lia. split; reflexivity. }
  destruct (t =? SPC_TYPE_SEND_PORT).
  { destruct (spc_reader_next_port_good r1) as [S2 G].
    destruct (spc_reader_next_port r1) as [p r2]. cbn [fst snd] in *.
    injection E as <- <-.
    split; [eapply same_message_trans; eassumption|]. intros Hp.
    split; [exact (G (Hp1 Hp))|reflexivity]. }
  destruct (t =? SPC_TYPE_RECV_PORT).
  { destruct (spc_reader_next_port_good r1) as [S2 G].
    destruct (spc_reader_next_port r1) as [p r2]. cbn [fst snd] in *.
    injection E as <- <-.
    split; [eapply same_message_trans; eassumption|]. intros Hp.
    split; [exact (G (Hp1 Hp))|reflexivity]. }
  destruct (t =? SPC_TYPE_UUID).
  { apply bind_returned in E as ([bytes r2] & E2 & E). injection E as <- <-.
    apply spc_read_same in E2 as [S2 Hl].
    split; [eapply same_message_trans; eassumption|]. intros _.
    split; [|reflexivity]. cbn [well_formed]. apply in_range_spec.
    exact (le_value_bound bytes 16 Hl). }
  destruct (t =? SPC_TYPE_DATA).
  { apply bind_returned in E as ([size r2] & E2 & E).
    apply bind_returned in E as ([bytes r3] & E3 & E). injection E as <- <-.
    apply spc_read_uint32_same in E2 as [S2 Hsize].
    unfold spc_read_padded in E3. apply spc_read_same in E3 as [S3 _].
    split; [eapply same_message_trans;
            [eapply same_message_trans; eassumption|eassumption]|].
    intros _. split; [|reflexivity]. cbn [well_formed].
    apply Z.ltb_lt. rewrite length_firstn. lia. }
  discriminate.
Qed.

Lemma read_descriptors_good (fuel : nat) :
  forall i count r r',
    ports_ok r -> read_descriptors fuel i count r = Returned r' ->
    ports_ok r'.
Proof.
  induction fuel as [|fuel IH]; intros i count r r' Hp E; [discriminate|].
  cbn [read_descriptors] in E. destruct (i <? count).
  - cbv zeta in E.
    destruct (_ =? MACH_MSG_PORT_DESCRIPTOR).
    { apply bind_returned in E as ([d r1] & E1 & E).
      apply spc_read_same in E1 as [S1 _].
      apply IH in E; [exact E|].
      unfold ports_ok in *. destruct S1 as (_ & _ & Eports).
      cbn [r_ports]. rewrite Eports. apply Forall_app. split; [exact Hp|].
      constructor; [|constructor].
      unfold port_ok. cbn [name type].
      apply andb_true_iff. split; apply in_range_spec.
      - apply (le_value_bound (firstn 4 d) 4). rewrite length_firstn. lia.
      - apply Z_of_byte_range. }
    destruct (_ =? MACH_MSG_OOL_DESCRIPTOR).
    { apply bind_returned in E as ([d r1] & E1 & E).
      apply spc_read_same in E1 as [S1 _].
      apply IH in E; [exact E|]. eapply ports_ok_same; eassumption. }
    destruct (_ =? MACH_MSG_OOL_PORTS_DESCRIPTOR); [|discriminate].
    apply bind_returned in E as ([d r1] & E1 & E).
    apply spc_read_same in E1 as [S1 _].
    apply IH in E; [exact E|]. eapply ports_ok_same; eassumption.
  - injection E as <-. exact Hp.
Qed.
End DecoderGood.

(** Whatever the bytes of the message, the content of a message that
    [spc_deserialize] returns is well-formed: every scalar is within its
    C type, strings and keys hold no NUL, every array has the number of
    elements that its count field gave (with [spc_array_set_value] as
    the specification describes it) and every dictionary the number of
    entries of its [num_items], every port has a 32-bit name and an
    8-bit disposition, and no value is an FD or of an unsupported
    type. *)
Theorem decoded_content_is_well_formed `{spc_types}
  (mach_msg : spc_mach_message_t) (msg : spc_message_t) :
  spc_deserialize mach_msg = Returned (Some msg) ->
  well_formed (SPC_DICT (content msg)) = true
  /\ fd_free (SPC_DICT (content msg)) = true.
Proof.
  unfold spc_deserialize. intros E.
  destruct (msgh_id (header mach_msg) =? MSGID_CONNECTION_INTERRUPTED);
    [discriminate|].
  apply bind_returned in E as (r1 & E1 & E).
  assert (Hp1 : ports_ok r1).
  { match type of E1 with (if ?c then _ else _) = _ => destruct c end.
    - apply bind_returned in E1 as ([body r0] & E0 & E1).
      apply spc_read_same in E0 as [S0 _].
      apply read_descriptors_good in E1; [exact E1|].
      eapply ports_ok_same; [exact S0|]. constructor.
    - injection E1 as <-. constructor. }
  apply bind_returned in E as ([prefix r2] & E2 & E).
  apply spc_read_same in E2 as [S2 _].
  match type of E with (if ?c then _ else _) = _ => destruct c end;
    [discriminate|].
  apply bind_returned in E as ([v r3] & E3 & E).
  destruct v; try discriminate. injection E as <-. cbn [content].
  apply spc_deserialize_value_good in E3 as [_ G].
  apply G. eapply ports_ok_same; eassumption.
Qed.

Lemma decoded_content_witness :
  spc_deserialize (H := xpc_types)
    (spc_serialize (H := xpc_types) zero_heap sample_message)
  = Returned (Some (decoded_message sample_message))
  /\ well_formed (SPC_DICT (content (decoded_message sample_message)))
     = true
  /\ fd_free (SPC_DICT (content (decoded_message sample_message))) = true.
Proof.
  split; [vm_compute; reflexivity|].
  apply (@decoded_content_is_well_formed xpc_types
           (spc_serialize (H := xpc_types) zero_heap sample_message)).
  vm_compute; reflexivity.
Defined.

(** A decoder call stays within the message.  The reader that
    [spc_deserialize_value] returns reads the same bytes and holds the
    same ports, its end is where it was, and its cursor has advanced by
    at least the four bytes of the tag and is not behind the end. *)
Theorem deserialize_value_stays_within_message `{spc_types} (fuel : nat)
  (r : reader_t) (v : spc_value_t) (r' : reader_t) :
  spc_deserialize_value fuel r = Returned (v, r') ->
  r_mem r' = r_mem r /\ r_ports r' = r_ports r /\ r_end r' = r_end r
  /\ r_ptr r + 4 <= r_ptr r' <= r_end r.
Proof.
  intros E.
  destruct (spc_deserialize_value_good fuel r v r' E) as ((M & N & P) & _).
  destruct (spc_deserialize_value_after fuel r E) as (_ & A & B).
  repeat split; try assumption; lia.
Qed.

Lemma stays_within_message_witness :
  let r := {| r_mem := wire_value (H := xpc_types)
                         (SPC_ARRAY [SPC_STRING [x76]; SPC_BOOL 1]);
              r_end := 32; r_ptr := 0; next_port := 0; r_ports := [] |} in
  let r' := moved r 32 0 in
  spc_deserialize_value (H := xpc_types) 6 r
  = Returned (SPC_ARRAY [SPC_STRING [x76]; SPC_BOOL 1], r')
  /\ r_mem r' = r_mem r /\ r_ports r' = r_ports r /\ r_end r' = r_end r
  /\ r_ptr r + 4 <= r_ptr r' <= r_end r.
Proof.
  intros r r'. split; [vm_compute; reflexivity|].
  apply (@deserialize_value_stays_within_message xpc_types 6 r
           (SPC_ARRAY [SPC_STRING [x76]; SPC_BOOL 1]) r').
  vm_compute; reflexivity.
Defined.

(* ================================================================== *)
(** * The descriptor loop *)

Lemma spc_read_rest (r : reader_t) (block post : list byte) :
  0 <= r_ptr r -> r_rest r = block ++ post ->
  r_ptr r + Z.of_nat (length block) <= r_end r ->
  spc_read r (Z.of_nat (length block))
  = Returned (block, advance r (Z.of_nat (length block)))
  /\ r_rest (advance r (Z.of_nat (length block))) = post.
Proof.
  intros Hp Hr He. unfold spc_read.
  destruct (_ >? _) eqn:E; [apply Z.gtb_lt in E; lia|]. split.
  - do 2 f_equal. unfold slice. fold (r_rest r). rewrite Hr, Nat2Z.id.
    now rewrite firstn_app, Nat.sub_diag, firstn_all, firstn_O, app_nil_r.
  - unfold r_rest in *. cbn [advance r_mem r_ptr].
    rewrite Z2Nat.inj_add, Nat2Z.id by lia. now apply skipn_app_exact.
Qed.

Lemma descriptor_type_at (r : reader_t) (block post : list byte) :
  0 <= r_ptr r -> r_rest r = block ++ post -> (12 <= length block)%nat ->
  Z_of_byte (nth (Z.to_nat (r_ptr r + 11)) (r_mem r) x00)
  = descriptor_type block.
Proof.
  intros Hp Hr Hl. unfold descriptor_type.
  rewrite Z2Nat.inj_add, nth_skipn_add by lia. fold (r_rest r).
  rewrite Hr. change (Z.to_nat 11) with 11%nat.
  now rewrite app_nth1 by lia.
Qed.

(** Out-of-line descriptors are skipped.  Over a sequence of
    descriptors of the three kinds, the loop of [spc_deserialize] reads
    them all, collects the name and the disposition of every port
    descriptor, in their order, and takes nothing from the out-of-line
    descriptors and the out-of-line ports descriptors: the memory and
    the ports that these carry are dropped. *)
Theorem ool_descriptors_are_skipped (ds : list (list byte)) :
  forall (fuel : nat) (i count : Z) (r : reader_t) (rest : list byte),
    forallb descriptor_shaped ds = true ->
    (length ds < fuel)%nat ->
    count = i + Z.of_nat (length ds) ->
    0 <= r_ptr r ->
    r_rest r = concat ds ++ rest ->
    r_ptr r + Z.of_nat (length (concat ds)) <= r_end r ->
    read_descriptors fuel i count r
    = Returned {| r_mem := r_mem r;
                  r_end := r_end r;
                  r_ptr := r_ptr r + Z.of_nat (length (concat ds));
                  next_port := next_port r;
                  r_ports := r_ports r ++ flat_map descriptor_port ds |}.
Proof.
  induction ds as [|block ds IH];
    intros fuel i count r rest Hs Hf Hc Hp Hr He;
    (destruct fuel as [|fuel]; [cbn in Hf; lia|]); cbn [read_descriptors].
  - cbn [length] in Hc. rewrite (proj2 (Z.ltb_ge _ _)) by lia.
    destruct r. cbn. rewrite app_nil_r. do 2 f_equal. lia.
  - cbn [length] in Hc, Hf. rewrite (proj2 (Z.ltb_lt _ _)) by lia.
    cbn [forallb] in Hs. apply andb_true_iff in Hs as [Hb Hs].
    cbn [concat] in Hr, He |- *. rewrite <- app_assoc in Hr.
    rewrite length_app in He |- *.
    assert (Hl : (12 <= length block)%nat).
    { unfold descriptor_shaped in Hb.
      destruct (_ =? MACH_MSG_PORT_DESCRIPTOR);
        [apply Nat.eqb_eq in Hb; lia|].
      destruct (_ =? MACH_MSG_OOL_DESCRIPTOR);
        [apply Nat.eqb_eq in Hb; lia|].
      destruct (_ =? MACH_MSG_OOL_PORTS_DESCRIPTOR);
        [apply Nat.eqb_eq in Hb; lia|discriminate]. }
    cbv zeta. rewrite (descriptor_type_at r block _ Hp Hr Hl).
    destruct (spc_read_rest r block _ Hp Hr ltac:(lia)) as [Hread Hrest].
    unfold descriptor_shaped in Hb. cbn [flat_map].
    unfold descriptor_port at 1.
    destruct (descriptor_type block =? MACH_MSG_PORT_DESCRIPTOR).
    { apply Nat.eqb_eq in Hb.
      change sizeof_mach_msg_port_descriptor_t with (Z.of_nat 12).
      rewrite <- Hb, Hread. cbn [bind].
      erewrite (IH fuel (i + 1) count _ rest Hs);
        cbn [advance r_mem r_end r_ptr next_port r_ports];
        [ | lia | lia | lia | exact Hrest | lia ].
      rewrite <- app_assoc. cbn [app]. do 2 f_equal. lia. }
    destruct (descriptor_type block =? MACH_MSG_OOL_DESCRIPTOR).
    { apply Nat.eqb_eq in Hb.
      change sizeof_mach_msg_ool_descriptor_t with (Z.of_nat 16).
      rewrite <- Hb, Hread. cbn [bind].
      erewrite (IH fuel (i + 1) count _ rest Hs);
        cbn [advance r_mem r_end r_ptr next_port r_ports];
        [ | lia | lia | lia | exact Hrest | lia ].
      cbn [app]. do 2 f_equal. lia. }
    destruct (descriptor_type block =? MACH_MSG_OOL_PORTS_DESCRIPTOR);
      [|discriminate].
    apply Nat.eqb_eq in Hb.
    change sizeof_mach_msg_ool_ports_descriptor_t with (Z.of_nat 16).
    rewrite <- Hb, Hread. cbn [bind].
    erewrite (IH fuel (i + 1) count _ rest Hs);
      cbn [advance r_mem r_end r_ptr next_port r_ports];
      [ | lia | lia | lia | exact Hrest | lia ].
    cbn [app]. do 2 f_equal. lia.
Qed.

Lemma ool_descriptors_witness :
  let r := {| r_mem := concat sample_descriptors; r_end := 40; r_ptr := 0;
              next_port := 0; r_ports := [] |} in
  forallb descriptor_shaped sample_descriptors = true
  /\ (length sample_descriptors < 4)%nat
  /\ 3 = 0 + Z.of_nat (length sample_descriptors)
  /\ 0 <= r_ptr r
  /\ r_rest r = concat sample_descriptors ++ []
  /\ r_ptr r + Z.of_nat (length (concat sample_descriptors)) <= r_end r
  /\ read_descriptors 4 0 3 r
     = Returned {| r_mem := r_mem r;
                   r_end := r_end r;
                   r_ptr := r_ptr r
                            + Z.of_nat (length (concat sample_descriptors));
                   next_port := next_port r;
                   r_ports := r_ports r
                              ++ [{| name := 0x1403; type := 17 |};
                                  {| name := 0x1507; type := 16 |}] |}.
Proof.
  intros r.
  assert (H1 : forallb descriptor_shaped sample_descriptors = true)
    by (vm_compute; reflexivity).
  assert (H2 : (length sample_descriptors < 4)%nat) by (vm_compute; lia).
  assert (H3 : 3 = 0 + Z.of_nat (length sample_descriptors))
    by (vm_compute; reflexivity).
  assert (H4 : 0 <= r_ptr r) by (vm_compute; discriminate).
  assert (H5 : r_rest r = concat sample_descriptors ++ [])
    by (vm_compute; reflexivity).
  assert (H6 : r_ptr r + Z.of_nat (length (concat sample_descriptors))
               <= r_end r) by (vm_compute; discriminate).
  repeat (split; [assumption|]).
  exact (ool_descriptors_are_skipped sample_descriptors 4 0 3 r []
           H1 H2 H3 H4 H5 H6).
Defined.

(** The type of a descriptor is read before any bounds check.  With
    fewer than twelve bytes left before the end of the message, none
    included, and a descriptor still to come by the count, the loop of
    [spc_deserialize] reads the byte eleven behind the cursor, which
    lies at or behind the end, and that byte decides how the call ends:
    in the [abort()] of [spc_read] if it is one of the three descriptor
    types, in [exit(-1)] if it is not. *)
Theorem descriptor_type_is_read_unchecked (fuel : nat) (i count : Z)
  (r : reader_t) :
  i < count ->
  r_end r < r_ptr r + 12 ->
  r_end r <= r_ptr r + 11
  /\ read_descriptors (S fuel) i count r
     = (let type :=
          Z_of_byte (nth (Z.to_nat (r_ptr r + 11)) (r_mem r) x00) in
        if (type =? MACH_MSG_PORT_DESCRIPTOR)
           || (type =? MACH_MSG_OOL_DESCRIPTOR)
           || (type =? MACH_MSG_OOL_PORTS_DESCRIPTOR)
        then Aborted else Exited (-1)).
Proof.
  intros Hi He. split; [lia|].
  cbn [read_descriptors]. rewrite (proj2 (Z.ltb_lt _ _)) by lia. cbv zeta.
  destruct (_ =? MACH_MSG_PORT_DESCRIPTOR).
  { rewrite spc_read_beyond; [reflexivity|].
    unfold avail, sizeof_mach_msg_port_descriptor_t. lia. }
  destruct (_ =? MACH_MSG_OOL_DESCRIPTOR).
  { rewrite spc_read_beyond; [reflexivity|].
    unfold avail, sizeof_mach_msg_ool_descriptor_t. lia. }
  destruct (_ =? MACH_MSG_OOL_PORTS_DESCRIPTOR); [|reflexivity].
  rewrite spc_read_beyond; [reflexivity|].
  unfold avail, sizeof_mach_msg_ool_ports_descriptor_t. lia.
Qed.

Lemma descriptor_type_witness :
  let r := {| r_mem := [x00; x00; x00; x00; x00; x00; x00; x00;
                        x00; x00; x00; x07];
              r_end := 4; r_ptr := 0; next_port := 0; r_ports := [] |} in
  0 < 1
  /\ r_end r < r_ptr r + 12
  /\ r_end r <= r_ptr r + 11
  /\ read_descriptors 1 0 1 r = Exited (-1)
  /\ read_descriptors 1 0 1
       {| r_mem := firstn 4 (r_mem r); r_end := 4; r_ptr := 0;
          next_port := 0; r_ports := [] |}
     = Aborted.
Proof.
  intros r.
  assert (H1 : 0 < 1) by lia.
  assert (H2 : r_end r < r_ptr r + 12) by (vm_compute; reflexivity).
  split; [exact H1|]. split; [exact H2|].
  destruct (descriptor_type_is_read_unchecked 0 0 1 r H1 H2) as [H3 H4].
  split; [exact H3|]. split; [rewrite H4; vm_compute; reflexivity|].
  vm_compute; reflexivity.
Defined.

(* ================================================================== *)
(** * Values in any state of the writer, and values that do not decode *)

(** A value reads back wherever it was written.  Whatever the writer
    holds already, bytes and ports, a reader that stands where the
    writer stood before [spc_serialize_value] decodes the value that
    was written, its dictionaries reversed, advances by exactly the
    count that [spc_serialize_value] returned and takes exactly the
    ports that it collected. *)
Theorem value_reads_back `{spc_types} (w : writer_t) (v : spc_value_t) :
  spc_types_ok ->
  well_formed v = true -> fd_free v = true ->
  let out := spc_serialize_value w v in
  let r := read_back w (snd out) in
  spc_deserialize_value (cost v) r
  = Returned (reverse_dicts v,
              moved r (fst out) (Z.of_nat (length (value_ports v))))
  /\ moved r (fst out) (Z.of_nat (length (value_ports v)))
     = read_back (snd out) (snd out).
Proof.
  intros types_ok Hwf Hfd out r. subst out r.
  destruct (spc_serialize_value_spec v w) as [N A]. rewrite N.
  pose proof (holds_read_back A) as Hr. split.
  - exact (spc_deserialize_value_wire types_ok v Hwf Hfd (le_n (cost v))
             [] [] Hr).
  - destruct A as [B P]. unfold moved, read_back, w_ptr.
    cbn [r_mem r_end r_ptr next_port r_ports].
    rewrite B, P, !length_app. f_equal; lia.
Qed.

Lemma value_reads_back_witness :
  let v := SPC_DICT (content sample_message) in
  let w := snd (spc_write_uint32 fresh_writer 7) in
  let out := spc_serialize_value (H := xpc_types) w v in
  let r := read_back w (snd out) in
  @spc_types_ok xpc_types
  /\ well_formed v = true /\ fd_free v = true
  /\ spc_deserialize_value (H := xpc_types) (cost v) r
     = Returned (reverse_dicts v,
                 moved r (fst out) (Z.of_nat (length (value_ports v))))
  /\ moved r (fst out) (Z.of_nat (length (value_ports v)))
     = read_back (snd out) (snd out).
Proof.
  intros v w out r.
  split; [exact xpc_types_ok|].
  split; [reflexivity|]. split; [reflexivity|].
  exact (@value_reads_back xpc_types w v xpc_types_ok eq_refl eq_refl).
Defined.

(** A BOOL is carried in 32 bits.  [spc_serialize_value] writes the
    [u64] of a BOOL through [spc_write_uint32], and
    [spc_deserialize_value] reads it back with [spc_read_uint32]: the
    record has eight bytes, and what comes back is the [u64] modulo
    2^32. *)
Theorem bool_is_carried_in_32_bits `{spc_types} (w : writer_t) (u : Z) :
  spc_types_ok ->
  let out := spc_serialize_value w (SPC_BOOL u) in
  fst out = 8
  /\ spc_deserialize_value 1 (read_back w (snd out))
     = Returned (SPC_BOOL (u mod 2 ^ 32),
                 moved (read_back w (snd out)) 8 0).
Proof.
  intros types_ok out. subst out.
  destruct (spc_serialize_value_spec (SPC_BOOL u) w) as [N A].
  cbn [wire_value value_ports value_type] in N, A.
  rewrite N. split.
  { rewrite length_app, !le_bytes_length. reflexivity. }
  pose proof (holds_read_back A) as Hr. rewrite <- !app_assoc in Hr.
  pose_distinct types_ok.
  assert (Htag : 0 <= SPC_TYPE_BOOL < 2 ^ 32)
    by exact (types_range types_ok (i := 1) ltac:(lia)).
  cbn [spc_deserialize_value].
  rewrite (spc_read_uint32_at Hr), Z.mod_small by exact Htag.
  apply holds_after_uint32 in Hr. cbn [bind]. switch_on_tag.
  rewrite (spc_read_uint32_at Hr). cbn [bind].
  now rewrite moved_moved.
Qed.

Lemma bool_witness :
  @spc_types_ok xpc_types
  /\ fst (spc_serialize_value (H := xpc_types) fresh_writer
            (SPC_BOOL (2 ^ 32 + 1))) = 8
  /\ spc_deserialize_value (H := xpc_types) 1
       (read_back fresh_writer
          (snd (spc_serialize_value (H := xpc_types) fresh_writer
                  (SPC_BOOL (2 ^ 32 + 1)))))
     = Returned (SPC_BOOL ((2 ^ 32 + 1) mod 2 ^ 32),
                 moved (read_back fresh_writer
                          (snd (spc_serialize_value (H := xpc_types)
                                  fresh_writer (SPC_BOOL (2 ^ 32 + 1)))))
                   8 0).
Proof.
  split; [exact xpc_types_ok|].
  exact (@bool_is_carried_in_32_bits xpc_types fresh_writer (2 ^ 32 + 1)
           xpc_types_ok).
Defined.

(** A string without a terminator is handed to [strdup] as NULL.  If
    no NUL byte stands between the length field of a STRING record and
    the end of the message, [spc_read_str] returns NULL, and
    [spc_deserialize_value] passes it to [strdup] unchecked. *)
Theorem unterminated_string_is_a_null_dereference `{spc_types} (fuel : nat)
  (r : reader_t) (n : Z) (s : list byte) (ports : list spc_port_t) :
  spc_types_ok ->
  holds r (le_bytes 4 SPC_TYPE_STRING ++ le_bytes 4 n ++ s) ports ->
  r_end r = r_ptr r + 8 + Z.of_nat (length s) ->
  nul_free s = true ->
  spc_deserialize_value (S fuel) r = NullDeref.
Proof.
  intros types_ok Hr He Hs. pose_distinct types_ok.
  assert (Htag : 0 <= SPC_TYPE_STRING < 2 ^ 32)
    by exact (types_range types_ok (i := 5) ltac:(lia)).
  cbn [spc_deserialize_value].
  rewrite (spc_read_uint32_at Hr), Z.mod_small by exact Htag.
  apply holds_after_uint32 in Hr. cbn [bind]. switch_on_tag.
  rewrite (spc_read_uint32_at Hr). cbn [bind].
  apply holds_after_uint32 in Hr.
  destruct Hr as [(Hp & [post Hrest] & _) _].
  unfold spc_read_str, slice. fold (r_rest (moved (moved r 4 0) 4 0)).
  rewrite Hrest. cbn [moved r_end r_ptr].
  replace (Z.to_nat (r_end r - (r_ptr r + 4 + 4))) with (length s) by lia.
  rewrite firstn_app, Nat.sub_diag, firstn_all, firstn_O, app_nil_r.
  rewrite (memchr0_nul_free s Hs). reflexivity.
Qed.

Lemma unterminated_string_witness :
  let s := [x76; x76; x76; x76] in
  let r := {| r_mem := le_bytes 4 0x9000 ++ le_bytes 4 5 ++ s;
              r_end := 12; r_ptr := 0; next_port := 0; r_ports := [] |} in
  @spc_types_ok xpc_types
  /\ holds r (le_bytes 4 (@SPC_TYPE_STRING xpc_types) ++ le_bytes 4 5 ++ s) []
  /\ r_end r = r_ptr r + 8 + Z.of_nat (length s)
  /\ nul_free s = true
  /\ spc_deserialize_value (H := xpc_types) 1 r = NullDeref.
Proof.
  intros s r.
  assert (Hr : holds r (le_bytes 4 (@SPC_TYPE_STRING xpc_types)
                          ++ le_bytes 4 5 ++ s) []).
  { split; [split; [vm_compute; discriminate|split]|split].
    - exists []. reflexivity.
    - vm_compute; discriminate.
    - vm_compute; discriminate.
    - exists []. reflexivity. }
  split; [exact xpc_types_ok|]. split; [exact Hr|].
  split; [reflexivity|]. split; [reflexivity|].
  exact (@unterminated_string_is_a_null_dereference xpc_types 0 r 5 s []
           xpc_types_ok Hr eq_refl eq_refl).
Defined.

(** A port record without a descriptor decodes to the null port.  For
    every table of distinct tags, once the collected ports are all
    handed out, a SEND_PORT or RECV_PORT record decodes to a value of
    its type that holds [SPC_NULL_PORT], and the reader has read the
    four bytes of the tag only. *)
Theorem port_record_without_descriptor `{spc_types} (send : bool)
  (fuel : nat) (r : reader_t) (b : list byte) :
  spc_types_ok ->
  Z.of_nat (length (r_ports r)) <= next_port r ->
  holds r
    (le_bytes 4 (if send then SPC_TYPE_SEND_PORT else SPC_TYPE_RECV_PORT)
       ++ b) [] ->
  spc_deserialize_value (S fuel) r
  = Returned ((if send then SPC_SEND_PORT SPC_NULL_PORT
               else SPC_RECV_PORT SPC_NULL_PORT),
              moved r 4 0).
Proof.
  intros types_ok Hn Hr. pose_distinct types_ok.
  assert (Hs : 0 <= SPC_TYPE_SEND_PORT < 2 ^ 32)
    by exact (types_range types_ok (i := 9) ltac:(lia)).
  assert (Hv : 0 <= SPC_TYPE_RECV_PORT < 2 ^ 32)
    by exact (types_range types_ok (i := 10) ltac:(lia)).
  assert (Hnull : spc_reader_next_port (moved r 4 0)
                  = (SPC_NULL_PORT, moved r 4 0)).
  { unfold spc_reader_next_port. cbn [moved next_port r_ports].
    destruct (_ >=? _) eqn:E; [reflexivity|].
    rewrite Z.geb_leb in E. apply Z.leb_gt in E. lia. }
  cbn [spc_deserialize_value].
  destruct send;
    rewrite (spc_read_uint32_at Hr), Z.mod_small by assumption;
    cbn [bind]; switch_on_tag; rewrite Hnull; reflexivity.
Qed.

Lemma port_record_witness :
  @spc_types_ok xpc_types
  /\ Z.of_nat (length (r_ports (tag_reader 0x15000 []))) <= next_port
                                                        (tag_reader 0x15000 [])
  /\ holds (tag_reader 0x15000 [])
       (le_bytes 4 (@SPC_TYPE_RECV_PORT xpc_types) ++ []) []
  /\ spc_deserialize_value (H := xpc_types) 1 (tag_reader 0x15000 [])
     = Returned (SPC_RECV_PORT SPC_NULL_PORT,
                 moved (tag_reader 0x15000 []) 4 0).
Proof.
  assert (Hr : holds (tag_reader 0x15000 [])
                 (le_bytes 4 (@SPC_TYPE_RECV_PORT xpc_types) ++ []) []).
  { split; [split; [vm_compute; discriminate|split]|split].
    - exists []. reflexivity.
    - vm_compute; discriminate.
    - vm_compute; discriminate.
    - exists []. reflexivity. }
  assert (Hn : Z.of_nat (length (r_ports (tag_reader 0x15000 [])))
               <= next_port (tag_reader 0x15000 []))
    by (vm_compute; discriminate).
  split; [exact xpc_types_ok|]. split; [exact Hn|]. split; [exact Hr|].
  exact (@port_record_without_descriptor xpc_types false 0
           (tag_reader 0x15000 []) [] xpc_types_ok Hn Hr).
Defined.

(** A message too short for its first field aborts.  If the message
    has fewer payload bytes than the eight of the prefix, or than the
    four of the descriptor count if it is a complex one, no payload at
    all or a size below that of the header included, [spc_deserialize]
    ends in the [abort()] of [spc_read]. *)
Theorem short_message_aborts `{spc_types} (mach_msg : spc_mach_message_t) :
  msgh_id (header mach_msg) <> MSGID_CONNECTION_INTERRUPTED ->
  msgh_size (header mach_msg)
  < sizeof_mach_msg_header_t
    + (if Z.land (msgh_bits (header mach_msg)) MACH_MSGH_BITS_COMPLEX =? 0
       then 8 else sizeof_mach_msg_body_t) ->
  spc_deserialize mach_msg = Aborted.
Proof.
  intros Hid Hsize. unfold spc_deserialize.
  rewrite (proj2 (Z.eqb_neq _ _) Hid).
  destruct (Z.land _ _ =? 0); cbn [negb bind];
    rewrite spc_read_beyond; try reflexivity;
    unfold avail; cbn [r_end r_ptr]; lia.
Qed.

Lemma short_message_witness :
  let m := {| header := sample_header 0 24; buf := [] |} in
  msgh_id (header m) <> MSGID_CONNECTION_INTERRUPTED
  /\ msgh_size (header m)
     < sizeof_mach_msg_header_t
       + (if Z.land (msgh_bits (header m)) MACH_MSGH_BITS_COMPLEX =? 0
          then 8 else sizeof_mach_msg_body_t)
  /\ spc_deserialize (H := xpc_types) m = Aborted.
Proof.
  intros m.
  assert (H1 : msgh_id (header m) <> MSGID_CONNECTION_INTERRUPTED)
    by (vm_compute; discriminate).
  assert (H2 : msgh_size (header m)
               < sizeof_mach_msg_header_t
                 + (if Z.land (msgh_bits (header m)) MACH_MSGH_BITS_COMPLEX
                       =? 0
                    then 8 else sizeof_mach_msg_body_t))
    by (vm_compute; reflexivity).
  split; [exact H1|]. split; [exact H2|].
  exact (@short_message_aborts xpc_types m H1 H2).
Defined.

(* ================================================================== *)
(** * Different messages have different encodings *)

(** [spc_serialize] is injective on the messages that decode.  If two
    well-formed messages without FD values are serialized to the same
    wire message, whatever stood in the two allocations before, they
    are the same message: ports, id and content. *)
Theorem serialize_is_injective `{spc_types} (heap1 heap2 : Z -> byte)
  (msg1 msg2 : spc_message_t) :
  spc_types_ok ->
  well_formed_message msg1 = true ->
  fd_free (SPC_DICT (content msg1)) = true ->
  well_formed_message msg2 = true ->
  fd_free (SPC_DICT (content msg2)) = true ->
  spc_serialize heap1 msg1 = spc_serialize heap2 msg2 ->
  msg1 = msg2.
Proof.
  intros types_ok W1 F1 W2 F2 E.
  pose proof (spc_deserialize_serialize types_ok heap1 msg1 W1 F1) as D1.
  pose proof (spc_deserialize_serialize types_ok heap2 msg2 W2 F2) as D2.
  rewrite E, D2 in D1.
  assert (D : decoded_message msg2 = decoded_message msg1) by congruence.
  clear D1 D2.
  destruct (spc_serialize_spec heap1 msg1) as (_ & _ & _ & _ & L1 & _).
  destruct (spc_serialize_spec heap2 msg2) as (_ & _ & _ & _ & L2 & _).
  rewrite E, L2 in L1.
  unfold well_formed_message in W1, W2.
  apply andb_true_iff in W1 as [W1 _]. apply andb_true_iff in W1 as [W1 _].
  apply andb_true_iff in W1 as [W1 _]. apply andb_true_iff in W1 as [_ W1].
  apply andb_true_iff in W1 as [W1 _]. apply in_range_spec in W1.
  apply andb_true_iff in W2 as [W2 _]. apply andb_true_iff in W2 as [W2 _].
  apply andb_true_iff in W2 as [W2 _]. apply andb_true_iff in W2 as [_ W2].
  apply andb_true_iff in W2 as [W2 _]. apply in_range_spec in W2.
  rewrite !u32_small in L1 by assumption.
  pose proof (f_equal remote_port D) as Dr.
  pose proof (f_equal (fun m => type (local_port m)) D) as Dt.
  pose proof (f_equal id D) as Di.
  pose proof (f_equal (fun m => reverse_dict (content m)) D) as Dc.
  cbn [decoded_message remote_port local_port id content type] in Dr, Dt,
    Di, Dc.
  rewrite !reverse_dict_involutive in Dc. clear D.
  destruct msg1 as [r1 [n1 t1] i1 c1], msg2 as [r2 [n2 t2] i2 c2].
  cbn [remote_port local_port id content name type] in *.
  subst. reflexivity.
Qed.

Lemma serialize_is_injective_witness :
  @spc_types_ok xpc_types
  /\ well_formed_message (H := xpc_types) sample_message = true
  /\ fd_free (SPC_DICT (content sample_message)) = true
  /\ spc_serialize (H := xpc_types) zero_heap sample_message
     = spc_serialize (H := xpc_types) (fun _ => x00) sample_message
  /\ sample_message = sample_message.
Proof.
  assert (W : well_formed_message (H := xpc_types) sample_message = true)
    by (vm_compute; reflexivity).
  assert (F : fd_free (SPC_DICT (content sample_message)) = true)
    by reflexivity.
  split; [exact xpc_types_ok|]. split; [exact W|]. split; [exact F|].
  split; [reflexivity|].
  exact (@serialize_is_injective xpc_types zero_heap (fun _ => x00)
           sample_message sample_message xpc_types_ok W F W F eq_refl).
Defined.

(* ================================================================== *)
(** * The decoder advances by whole words *)

Lemma spc_read_step (r : reader_t) (len : Z) (x : list byte) (r' : reader_t) :
  spc_read r len = Returned (x, r') -> r_ptr r' = r_ptr r + len.
Proof.
  unfold spc_read. destruct (_ >? _); [discriminate|].
  intros E. injection E as _ <-. reflexivity.
Qed.

Lemma spc_read_uint32_step (r : reader_t) (x : Z) (r' : reader_t) :
  spc_read_uint32 r = Returned (x, r') -> (4 | r_ptr r' - r_ptr r).
Proof.
  unfold spc_read_uint32. intros E.
  apply bind_returned in E as ([bytes r1] & E1 & E2).
  injection E2 as _ <-. apply spc_read_step in E1. exists 1. lia.
Qed.

Lemma spc_read_padded_step (r : reader_t) (size : Z) (x : list byte)
  (r' : reader_t) :
  spc_read_padded r size = Returned (x, r') -> (4 | r_ptr r' - r_ptr r).
Proof.
  unfold spc_read_padded. fold (remainder_of size). intros E.
  apply spc_read_step in E.
  replace (r_ptr r' - r_ptr r) with (size + remainder_of size) by lia.
  apply Z.mod_divide; [lia|]. apply remainder_of_aligned.
Qed.

Lemma spc_read_str_step (r : reader_t) (s : option (list byte))
  (r' : reader_t) :
  spc_read_str r = Returned (s, r') -> (4 | r_ptr r' - r_ptr r).
Proof.
  unfold spc_read_str. destruct (memchr0 _) as [k|].
  - intros E. apply bind_returned in E as ([bytes r1] & E1 & E2).
    injection E2 as _ <-. now apply spc_read_padded_step in E1.
  - intros E. injection E as _ <-. exists 0. lia.
Qed.

Lemma words_trans (a b c : Z) : (4 | b - a) -> (4 | c - b) -> (4 | c - a).
Proof.
  intros H1 H2. replace (c - a) with ((b - a) + (c - b)) by lia.
  now apply Z.divide_add_r.
Qed.

Section ContainerReadersWords.
Variable dv : reader_t -> outcome (spc_value_t * reader_t).
Hypothesis dv_words :
  forall r v r', dv r = Returned (v, r') -> (4 | r_ptr r' - r_ptr r).

Lemma read_array_values_words (fuel : nat) :
  forall i len acc r a r',
    read_array_values dv fuel i len acc r = Returned (a, r') ->
    (4 | r_ptr r' - r_ptr r).
Proof.
  induction fuel as [|fuel IH]; intros i len acc r a r' E; [discriminate|].
  cbn [read_array_values] in E. destruct (i <? len).
  - apply bind_returned in E as ([v r1] & E1 & E2).
    apply dv_words in E1. apply IH in E2.
    exact (words_trans _ _ _ E1 E2).
  - injection E as _ <-. exists 0. lia.
Qed.

Lemma read_dict_items_words (fuel : nat) :
  forall i d r d' r',
    read_dict_items dv fuel i d r = Returned (d', r') ->
    (4 | r_ptr r' - r_ptr r).
Proof.
  induction fuel as [|fuel IH]; intros i d r d' r' E; [discriminate|].
  cbn [read_dict_items] in E. destruct (i <? num_items d).
  - apply bind_returned in E as ([str r1] & E1 & E).
    apply bind_returned in E as (k & _ & E).
    apply bind_returned in E as ([v r2] & E2 & E).
    apply spc_read_str_step in E1. apply dv_words in E2. apply IH in E.
    exact (words_trans _ _ _ E1 (words_trans _ _ _ E2 E)).
  - injection E as _ <-. exists 0. lia.
Qed.
End ContainerReadersWords.

(** The decoder advances by whole words.  Whatever the bytes of the
    message, the cursor of the reader that [spc_deserialize_value]
    returns is a multiple of four bytes further than it was: strings,
    keys and data blobs are read with their padding, everything else is
    four, eight or sixteen bytes long. *)
Theorem decoder_advances_by_words `{spc_types} (fuel : nat) :
  forall (r : reader_t) (v : spc_value_t) (r' : reader_t),
    spc_deserialize_value fuel r = Returned (v, r') ->
    (r_ptr r' - r_ptr r) mod 4 = 0.
Proof.
  intros r v r' E. apply Z.mod_divide; [lia|]. revert r v r' E.
  induction fuel as [|fuel IH]; intros r v r' E; [discriminate|].
  cbn [spc_deserialize_value] in E.
  apply bind_returned in E as ([t r1] & E1 & E).
  apply spc_read_uint32_step in E1.
  apply (words_trans _ (r_ptr r1) _ E1). clear E1.
  destruct (t =? SPC_TYPE_NULL).
  { injection E as _ <-. exists 0. lia. }
  destruct (t =? SPC_TYPE_BOOL).
  { apply bind_returned in E as ([u r2] & E2 & E). injection E as _ <-.
    now apply spc_read_uint32_step in E2. }
  destruct (t =? SPC_TYPE_UINT64).
  { unfold spc_read_uint64 in E.
    apply bind_returned in E as ([u r2] & E2 & E). injection E as _ <-.
    apply bind_returned in E2 as ([bytes r3] & E3 & E2).
    injection E2 as _ <-. apply spc_read_step in E3. exists 2. lia. }
  destruct (t =? SPC_TYPE_INT64).
  { unfold spc_read_int64 in E.
    apply bind_returned in E as ([u r2] & E2 & E). injection E as _ <-.
    apply bind_returned in E2 as ([bytes r3] & E3 & E2).
    injection E2 as _ <-. apply spc_read_step in E3. exists 2. lia. }
  destruct (t =? SPC_TYPE_DOUBLE).
  { unfold spc_read_double in E.
    apply bind_returned in E as ([u r2] & E2 & E). injection E as _ <-.
    apply bind_returned in E2 as ([bytes r3] & E3 & E2).
    injection E2 as _ <-. apply spc_read_step in E3. exists 2. lia. }
  destruct (t =? SPC_TYPE_STRING).
  { apply bind_returned in E as ([n r2] & E2 & E).
    apply bind_returned in E as ([s r3] & E3 & E).
    apply bind_returned in E as (k & _ & E). injection E as _ <-.
    apply spc_read_uint32_step in E2. apply spc_read_str_step in E3.
    exact (words_trans _ _ _ E2 E3). }
  destruct (t =? SPC_TYPE_ARRAY).
  { apply bind_returned in E as ([a r2] & E2 & E). injection E as _ <-.
    unfold deserialize_array_with in E2.
    apply bind_returned in E2 as ([size r3] & E3 & E2).
    apply bind_returned in E2 as ([len r4] & E4 & E2).
    apply spc_read_uint32_step in E3. apply spc_read_uint32_step in E4.
    apply (read_array_values_words _ IH) in E2.
    exact (words_trans _ _ _ E3 (words_trans _ _ _ E4 E2)). }
  destruct (t =? SPC_TYPE_DICT).
  { apply bind_returned in E as ([d r2] & E2 & E). injection E as _ <-.
    unfold deserialize_dict_with in E2.
    apply bind_returned in E2 as ([size r3] & E3 & E2).
    apply bind_returned in E2 as ([n r4] & E4 & E2).
    apply spc_read_uint32_step in E3. apply spc_read_uint32_step in E4.
    apply (read_dict_items_words _ IH) in E2.
    exact (words_trans _ _ _ E3 (words_trans _ _ _ E4 E2)). }
  destruct (t =? SPC_TYPE_SEND_PORT).
  { pose proof (spc_reader_next_port_fields r1) as [_ P].
    destruct (spc_reader_next_port r1) as [p r2]. cbn [snd] in P.
    injection E as _ <-. exists 0. lia. }
  destruct (t =? SPC_TYPE_RECV_PORT).
  { pose proof (spc_reader_next_port_fields r1) as [_ P].
    destruct (spc_reader_next_port r1) as [p r2]. cbn [snd] in P.
    injection E as _ <-. exists 0. lia. }
  destruct (t =? SPC_TYPE_UUID).
  { apply bind_returned in E as ([bytes r2] & E2 & E). injection E as _ <-.
    apply spc_read_step in E2. exists 4. lia. }
  destruct (t =? SPC_TYPE_DATA).
  { apply bind_returned in E as ([size r2] & E2 & E).
    apply bind_returned in E as ([bytes r3] & E3 & E). injection E as _ <-.
    apply spc_read_uint32_step in E2. apply spc_read_padded_step in E3.
    exact (words_trans _ _ _ E2 E3). }
  discriminate.
Qed.

Lemma decoder_words_witness :
  let r := {| r_mem := wire_value (H := xpc_types)
                         (SPC_ARRAY [SPC_STRING [x76]; SPC_DATA [x01]]);
              r_end := 36; r_ptr := 0; next_port := 0; r_ports := [] |} in
  spc_deserialize_value (H := xpc_types) 6 r
  = Returned (SPC_ARRAY [SPC_STRING [x76]; SPC_DATA [x01]], moved r 36 0)
  /\ (r_ptr (moved r 36 0) - r_ptr r) mod 4 = 0.
Proof.
  intros r. split; [vm_compute; reflexivity|].
  apply (@decoder_advances_by_words xpc_types 6 r
           (SPC_ARRAY [SPC_STRING [x76]; SPC_DATA [x01]]) (moved r 36 0)).
  vm_compute; reflexivity.
Defined.

(* ================================================================== *)
(** * Unknown tags, and the size in the header *)

(** A record with a tag that has no [case] in [spc_deserialize_value]
    makes the process exit: whatever follows the tag, the call ends in
    [exit(-1)], and no error is returned. *)
Theorem unknown_tag_exits `{spc_types} (fuel : nat) (r : reader_t) (t : Z)
  (b : list byte) (ports : list spc_port_t) :
  0 <= t < 2 ^ 32 ->
  ~ In t decoded_types ->
  holds r (le_bytes 4 t ++ b) ports ->
  spc_deserialize_value (S fuel) r = Exited (-1).
Proof.
  intros Ht Hn Hr. cbn [spc_deserialize_value].
  rewrite (spc_read_uint32_at Hr), Z.mod_small by exact Ht. cbn [bind].
  unfold decoded_types in Hn. cbn [In] in Hn.
  repeat match goal with
         | |- context [t =? ?x] =>
             destruct (Z.eqb_spec t x) as [E|_];
               [exfalso; symmetry in E; tauto|]
         end.
  reflexivity.
Qed.

Lemma unknown_tag_witness :
  0 <= 0x7000 < 2 ^ 32
  /\ ~ In 0x7000 (@decoded_types xpc_types)
  /\ holds (tag_reader 0x7000 []) (le_bytes 4 0x7000 ++ []) []
  /\ spc_deserialize_value (H := xpc_types) 1 (tag_reader 0x7000 [])
     = Exited (-1).
Proof.
  assert (H1 : 0 <= 0x7000 < 2 ^ 32) by lia.
  assert (H2 : ~ In 0x7000 (@decoded_types xpc_types))
    by (cbn; intuition discriminate).
  assert (Hr : holds (tag_reader 0x7000 []) (le_bytes 4 0x7000 ++ []) []).
  { split; [split; [vm_compute; discriminate|split]|split].
    - exists []. reflexivity.
    - vm_compute; discriminate.
    - vm_compute; discriminate.
    - exists []. reflexivity. }
  split; [exact H1|]. split; [exact H2|]. split; [exact Hr|].
  exact (@unknown_tag_exits xpc_types 0 (tag_reader 0x7000 []) 0x7000 [] []
           H1 H2 Hr).
Defined.

(** The size in the header is the size of the message.  For every
    message, the [msgh_size] that [spc_serialize] stores is the size of
    the header plus the number of the bytes behind it, descriptors
    included, cut to 32 bits. *)
Theorem serialized_size_is_consistent `{spc_types} (heap : Z -> byte)
  (msg : spc_message_t) :
  msgh_size (header (spc_serialize heap msg))
  = u32 (sizeof_mach_msg_header_t
         + Z.of_nat (length (buf (spc_serialize heap msg)))).
Proof.
  destruct (spc_serialize_spec heap msg) as (Hb & Hs & _).
  rewrite Hs, Hb. f_equal. unfold wire_size, wire_descriptors.
  rewrite length_app.
  destruct (dict_ports (content msg)) as [|p ps]; [cbn [length]; lia|].
  rewrite length_app, le_bytes_length, write_descriptors_length.
  unfold sizeof_mach_msg_body_t, sizeof_mach_msg_port_descriptor_t. lia.
Qed.

(* ================================================================== *)
(** * A decoded value is no larger than its record *)

Lemma spc_read_uint32_four (r : reader_t) (x : Z) (r' : reader_t) :
  spc_read_uint32 r = Returned (x, r') -> r_ptr r' = r_ptr r + 4.
Proof.
  unfold spc_read_uint32. intros E.
  apply bind_returned in E as ([bytes r1] & E1 & E2).
  injection E2 as _ <-. now apply spc_read_step in E1.
Qed.

Lemma list_sum_snoc (l : list nat) (n : nat) :
  list_sum (l ++ [n]) = (list_sum l + n)%nat.
Proof. rewrite list_sum_app. cbn. lia. Qed.

Section ContainerReadersSize.
Variable dv : reader_t -> outcome (spc_value_t * reader_t).
Hypothesis dv_size :
  forall r v r',
    dv r = Returned (v, r') ->
    4 * Z.of_nat (values_in v) <= r_ptr r' - r_ptr r.

Lemma read_array_values_size (fuel : nat) :
  forall i len acc r a r',
    i = Z.of_nat (length acc) ->
    read_array_values dv fuel i len acc r = Returned (a, r') ->
    4 * Z.of_nat (list_sum (map values_in a))
    <= 4 * Z.of_nat (list_sum (map values_in acc)) + (r_ptr r' - r_ptr r).
Proof.
  induction fuel as [|fuel IH]; intros i len acc r a r' Hi E; [discriminate|].
  cbn [read_array_values] in E. destruct (i <? len).
  - apply bind_returned in E as ([v r1] & E1 & E2).
    apply dv_size in E1. subst i. rewrite spc_array_set_value_end in E2.
    apply IH in E2; [|rewrite length_app; cbn [length]; lia].
    rewrite map_app in E2. cbn [map] in E2. rewrite list_sum_snoc in E2. lia.
  - injection E as <- <-. lia.
Qed.

Lemma read_dict_items_size (fuel : nat) :
  forall i d r d' r',
    read_dict_items dv fuel i d r = Returned (d', r') ->
    4 * Z.of_nat (list_sum (map (fun it => values_in (value it)) (items d')))
    <= 4 * Z.of_nat (list_sum (map (fun it => values_in (value it))
                                 (items d)))
       + (r_ptr r' - r_ptr r).
Proof.
  induction fuel as [|fuel IH]; intros i d r d' r' E; [discriminate|].
  cbn [read_dict_items] in E. destruct (i <? num_items d).
  - apply bind_returned in E as ([str r1] & E1 & E).
    apply bind_returned in E as (k & _ & E).
    apply bind_returned in E as ([v r2] & E2 & E).
    apply spc_read_str_same in E1 as S1.
    assert (H1 : r_ptr r <= r_ptr r1).
    { unfold spc_read_str in E1. destruct (memchr0 _) as [n|] eqn:En.
      - apply bind_returned in E1 as ([bytes r3] & E3 & E1).
        injection E1 as _ <-. unfold spc_read_padded in E3.
        apply spc_read_step in E3. apply memchr0_nonneg in En.
        pose proof (remainder_of_range (n + 1)) as Hr.
        unfold remainder_of in Hr. lia.
      - injection E1 as _ <-. lia. }
    apply dv_size in E2. apply IH in E.
    cbn [items map list_sum fold_right value] in E.
    unfold list_sum in *. lia.
  - injection E as <- <-. lia.
Qed.
End ContainerReadersSize.

(** A decoded value is no larger than its record.  Whatever the bytes
    of the message and whatever counts it claims, a value that
    [spc_deserialize_value] returns holds at most one value, itself and
    all nested ones counted, for every four bytes that the reader has
    advanced. *)
Theorem decoded_value_is_no_larger_than_its_record `{spc_types}
  (fuel : nat) :
  forall (r : reader_t) (v : spc_value_t) (r' : reader_t),
    spc_deserialize_value fuel r = Returned (v, r') ->
    4 * Z.of_nat (values_in v) <= r_ptr r' - r_ptr r.
Proof.
  induction fuel as [|fuel IH]; intros r v r' E; [discriminate|].
  pose proof (spc_deserialize_value_after (S fuel) r E) as (_ & A & _).
  cbn [spc_deserialize_value] in E.
  apply bind_returned in E as ([t r1] & E1 & E).
  apply spc_read_uint32_four in E1.
  destruct (t =? SPC_TYPE_NULL).
  { injection E as <- _. cbn [values_in]. lia. }
  destruct (t =? SPC_TYPE_BOOL).
  { apply bind_returned in E as ([u r2] & _ & E). injection E as <- _.
    cbn [values_in]. lia. }
  destruct (t =? SPC_TYPE_UINT64).
  { apply bind_returned in E as ([u r2] & _ & E). injection E as <- _.
    cbn [values_in]. lia. }
  destruct (t =? SPC_TYPE_INT64).
  { apply bind_returned in E as ([u r2] & _ & E). injection E as <- _.
    cbn [values_in]. lia. }
  destruct (t =? SPC_TYPE_DOUBLE).
  { apply bind_returned in E as ([u r2] & _ & E). injection E as <- _.
    cbn [values_in]. lia. }
  destruct (t =? SPC_TYPE_STRING).
  { apply bind_returned in E as ([n r2] & _ & E).
    apply bind_returned in E as ([s r3] & _ & E).
    apply bind_returned in E as (k & _ & E). injection E as <- _.
    cbn [values_in]. lia. }
  destruct (t =? SPC_TYPE_ARRAY).
  { apply bind_returned in E as ([a r2] & E2 & E). injection E as <- <-.
    unfold deserialize_array_with in E2.
    apply bind_returned in E2 as ([size r3] & E3 & E2).
    apply bind_returned in E2 as ([len r4] & E4 & E2).
    apply spc_read_uint32_four in E3. apply spc_read_uint32_four in E4.
    apply (read_array_values_size _ IH) in E2; [|reflexivity].
    cbn [values_in]. cbn [spc_array_create map list_sum fold_right] in E2.
    unfold list_sum in *. cbn [fold_right] in E2. lia. }
  destruct (t =? SPC_TYPE_DICT).
  { apply bind_returned in E as ([d r2] & E2 & E). injection E as <- <-.
    unfold deserialize_dict_with in E2.
    apply bind_returned in E2 as ([size r3] & E3 & E2).
    apply bind_returned in E2 as ([n r4] & E4 & E2).
    apply spc_read_uint32_four in E3. apply spc_read_uint32_four in E4.
    apply (read_dict_items_size _ IH) in E2.
    cbn [values_in]. cbn [items spc_dictionary_create map] in E2.
    unfold list_sum in *. cbn [fold_right] in E2. lia. }
  destruct (t =? SPC_TYPE_SEND_PORT).
  { destruct (spc_reader_next_port r1) as [p r2]. injection E as <- _.
    cbn [values_in]. lia. }
  destruct (t =? SPC_TYPE_RECV_PORT).
  { destruct (spc_reader_next_port r1) as [p r2]. injection E as <- _.
    cbn [values_in]. lia. }
  destruct (t =? SPC_TYPE_UUID).
  { apply bind_returned in E as ([bytes r2] & _ & E). injection E as <- _.
    cbn [values_in]. lia. }
  destruct (t =? SPC_TYPE_DATA).
  { apply bind_returned in E as ([size r2] & _ & E).
    apply bind_returned in E as ([bytes r3] & _ & E). injection E as <- _.
    cbn [values_in]. lia. }
  discriminate.
Qed.

Lemma decoded_value_size_witness :
  let r := {| r_mem := wire_value (H := xpc_types)
                         (SPC_ARRAY [SPC_STRING [x76]; SPC_DATA [x01]]);
              r_end := 36; r_ptr := 0; next_port := 0; r_ports := [] |} in
  spc_deserialize_value (H := xpc_types) 6 r
  = Returned (SPC_ARRAY [SPC_STRING [x76]; SPC_DATA [x01]], moved r 36 0)
  /\ 4 * Z.of_nat (values_in (SPC_ARRAY [SPC_STRING [x76]; SPC_DATA [x01]]))
     <= r_ptr (moved r 36 0) - r_ptr r.
Proof.
  intros r. split; [vm_compute; reflexivity|].
  apply (@decoded_value_is_no_larger_than_its_record xpc_types 6 r
           (SPC_ARRAY [SPC_STRING [x76]; SPC_DATA [x01]]) (moved r 36 0)).
  vm_compute; reflexivity.
Defined.

(* ================================================================== *)
(** * No write of the serializer leaves the buffer *)

Lemma spc_ensure_space_room (w : writer_t) (n : Z) :
  in_capacity w ->
  w_ptr (spc_ensure_space w n) = w_ptr w
  /\ w_ptr w + n <= w_end (spc_ensure_space w n).
Proof.
  unfold in_capacity, spc_ensure_space. intros Hw.
  destruct (w_ptr w + n >? w_end w) eqn:E; unfold w_ptr in *;
    cbn [w_buf w_end]; (split; [reflexivity|]).
  - lia.
  - rewrite Z.gtb_ltb in E. apply Z.ltb_ge in E. exact E.
Qed.

Lemma checked_put (w : writer_t) (bytes : list byte) :
  w_ptr w + Z.of_nat (length bytes) <= w_end w ->
  Checked.put w bytes = Some (put w bytes).
Proof.
  intros Hfit. unfold Checked.put.
  now rewrite (proj2 (Z.leb_le _ _) Hfit).
Qed.

Lemma checked_put_ensure (w : writer_t) (n : Z) (bytes : list byte) :
  in_capacity w -> Z.of_nat (length bytes) <= n ->
  Checked.put (spc_ensure_space w n) bytes
  = Some (put (spc_ensure_space w n) bytes).
Proof.
  intros Hw Hn. apply checked_put.
  destruct (spc_ensure_space_room w n Hw) as [P R]. rewrite P. lia.
Qed.

Lemma checked_spc_write (w : writer_t) (bytes : list byte) :
  in_capacity w -> Checked.spc_write w bytes = Some (spc_write w bytes).
Proof.
  intros Hw. unfold Checked.spc_write, spc_write. cbv zeta.
  rewrite checked_put_ensure; [reflexivity|exact Hw|lia].
Qed.

Lemma checked_spc_write_uint32 (w : writer_t) (val : Z) :
  in_capacity w ->
  Checked.spc_write_uint32 w val = Some (spc_write_uint32 w val).
Proof.
  intros Hw. unfold Checked.spc_write_uint32, spc_write_uint32. cbv zeta.
  rewrite checked_put_ensure;
    [reflexivity|exact Hw|rewrite le_bytes_length; lia].
Qed.

Lemma checked_spc_write_8 (w : writer_t) (val : Z) :
  in_capacity w ->
  Checked.spc_write_uint64 w val = Some (spc_write_uint64 w val)
  /\ Checked.spc_write_int64 w val = Some (spc_write_int64 w val)
  /\ Checked.spc_write_double w val = Some (spc_write_double w val).
Proof.
  intros Hw.
  unfold Checked.spc_write_uint64, spc_write_uint64, Checked.spc_write_int64,
    spc_write_int64, Checked.spc_write_double, spc_write_double.
  cbv zeta.
  rewrite checked_put_ensure; [|exact Hw|rewrite le_bytes_length; lia].
  repeat split.
Qed.

Lemma checked_spc_write_padded (w : writer_t) (bytes : list byte) :
  in_capacity w ->
  Checked.spc_write_padded w bytes = Some (spc_write_padded w bytes).
Proof.
  intros Hw. unfold Checked.spc_write_padded, spc_write_padded. cbv zeta.
  fold (remainder_of (Z.of_nat (length bytes))).
  pose proof (remainder_of_range (Z.of_nat (length bytes))) as Hr.
  set (n := Z.of_nat (length bytes)
            + remainder_of (Z.of_nat (length bytes))).
  destruct (spc_ensure_space_room w n Hw) as [P R].
  rewrite checked_put_ensure; [|exact Hw|subst n; lia].
  rewrite checked_put; [reflexivity|].
  unfold w_ptr in *. cbn [put w_buf w_end].
  rewrite length_app, repeat_length. subst n. lia.
Qed.

Lemma checked_patch_uint32 (w0 w : writer_t) (post : list byte)
  (ports : list spc_port_t) (val : Z) :
  appended w0 (le_bytes 4 0 ++ post) ports w ->
  Checked.patch_uint32 w (w_ptr w0) val
  = Some (patch_uint32 w (w_ptr w0) val).
Proof.
  intros [B _]. unfold Checked.patch_uint32.
  assert (H0 : 0 <= w_ptr w0) by (unfold w_ptr; lia).
  assert (H4 : w_ptr w0 + 4 <= w_ptr w).
  { unfold w_ptr. rewrite B, !length_app, le_bytes_length. lia. }
  now rewrite (proj2 (Z.leb_le _ _) H0), (proj2 (Z.leb_le _ _) H4).
Qed.

Section ContainerWritersChecked.
Variable ser : writer_t -> spc_value_t -> Z * writer_t.
Variable checked_ser : writer_t -> spc_value_t -> option (Z * writer_t).
Variable wire : spc_value_t -> list byte.
Variable vports : spc_value_t -> list spc_port_t.

Lemma checked_write_array_values (values : list spc_value_t) :
  Forall (fun v => forall w, in_capacity w ->
                             checked_ser w v = Some (ser w v)
                             /\ in_capacity (snd (ser w v))) values ->
  forall bw w,
    in_capacity w ->
    Checked.write_array_values checked_ser values bw w
    = Some (write_array_values ser values bw w)
    /\ in_capacity (snd (write_array_values ser values bw w)).
Proof.
  induction 1 as [|v values Hv _ IH]; intros bw w Hw; [now split|].
  cbn [Checked.write_array_values write_array_values].
  destruct (Hv w Hw) as [E C]. rewrite E.
  destruct (ser w v) as [n w1]. cbn [snd] in C. now apply IH.
Qed.

Lemma checked_write_dict_items (l : list spc_dictionary_item_t) :
  Forall (fun it => forall w, in_capacity w ->
                              checked_ser w (value it)
                              = Some (ser w (value it))
                              /\ in_capacity (snd (ser w (value it)))) l ->
  forall bw w,
    in_capacity w ->
    Checked.write_dict_items checked_ser l bw w
    = Some (write_dict_items ser l bw w)
    /\ in_capacity (snd (write_dict_items ser l bw w)).
Proof.
  induction 1 as [|it l Hv _ IH]; intros bw w Hw; [now split|].
  cbn [Checked.write_dict_items write_dict_items].
  unfold Checked.spc_write_str, spc_write_str.
  rewrite (checked_spc_write_padded w (cstr (key it) ++ [x00]) Hw).
  pose proof (spc_write_padded_capacity w (cstr (key it) ++ [x00]) Hw) as C1.
  destruct (spc_write_padded w (cstr (key it) ++ [x00])) as [n1 w1].
  cbn [snd] in C1.
  destruct (Hv w1 C1) as [E C]. rewrite E.
  destruct (ser w1 (value it)) as [n2 w2]. cbn [snd] in C. now apply IH.
Qed.

Lemma checked_write_array_with (a : spc_array_t) :
  Forall (ser_ok ser wire vports) a ->
  Forall (fun v => forall w, in_capacity w ->
                             checked_ser w v = Some (ser w v)
                             /\ in_capacity (snd (ser w v))) a ->
  forall w,
    in_capacity w ->
    Checked.write_array_with checked_ser w a = Some (write_array_with ser w a).
Proof.
  intros Hok Ha w Hw. unfold Checked.write_array_with, write_array_with.
  cbv zeta. rewrite (checked_spc_write_uint32 w 0 Hw).
  destruct (spc_write_uint32_spec w 0) as [_ A0].
  pose proof (spc_write_uint32_capacity w 0 Hw) as C0.
  destruct (spc_write_uint32 w 0) as [n0 w0]. cbn [snd] in A0, C0.
  rewrite (checked_spc_write_uint32 w0 (Z.of_nat (length a)) C0).
  destruct (spc_write_uint32_spec w0 (Z.of_nat (length a))) as [_ A1].
  pose proof (spc_write_uint32_capacity w0 (Z.of_nat (length a)) C0) as C1.
  destruct (spc_write_uint32 w0 (Z.of_nat (length a))) as [n1 w1].
  cbn [snd] in A1, C1.
  destruct (checked_write_array_values a Ha (0 + n1) w1 C1) as [E _].
  rewrite E.
  destruct (write_array_values_spec Hok (0 + n1) w1) as [_ A2].
  destruct (write_array_values ser a (0 + n1) w1) as [bw w2].
  cbn [snd] in A2.
  now rewrite (checked_patch_uint32 w w2 _ _ bw
                 (appended_trans A0 (appended_trans A1 A2))).
Qed.

Lemma checked_write_dict_with (d : spc_dictionary_t) :
  Forall (fun it => ser_ok ser wire vports (value it)) (items d) ->
  Forall (fun it => forall w, in_capacity w ->
                              checked_ser w (value it)
                              = Some (ser w (value it))
                              /\ in_capacity (snd (ser w (value it))))
    (items d) ->
  forall w,
    in_capacity w ->
    Checked.write_dict_with checked_ser w d = Some (write_dict_with ser w d).
Proof.
  intros Hok Hd w Hw. unfold Checked.write_dict_with, write_dict_with.
  cbv zeta. rewrite (checked_spc_write_uint32 w 0 Hw).
  destruct (spc_write_uint32_spec w 0) as [_ A0].
  pose proof (spc_write_uint32_capacity w 0 Hw) as C0.
  destruct (spc_write_uint32 w 0) as [n0 w0]. cbn [snd] in A0, C0.
  rewrite (checked_spc_write_uint32 w0 (num_items d) C0).
  destruct (spc_write_uint32_spec w0 (num_items d)) as [_ A1].
  pose proof (spc_write_uint32_capacity w0 (num_items d) C0) as C1.
  destruct (spc_write_uint32 w0 (num_items d)) as [n1 w1].
  cbn [snd] in A1, C1.
  destruct (checked_write_dict_items (items d) Hd (0 + n1) w1 C1) as [E _].
  rewrite E.
  destruct (write_dict_items_spec Hok (0 + n1) w1) as [_ A2].
  destruct (write_dict_items ser (items d) (0 + n1) w1) as [bw w2].
  cbn [snd] in A2.
  now rewrite (checked_patch_uint32 w w2 _ _ bw
                 (appended_trans A0 (appended_trans A1 A2))).
Qed.
End ContainerWritersChecked.

Lemma checked_spc_serialize_value `{spc_types} (v : spc_value_t) :
  forall w,
    in_capacity w ->
    Checked.spc_serialize_value w v = Some (spc_serialize_value w v).
Proof.
  induction v as [ | u | u | i | d | s | a IH | d IH | p | p | p | u | d | t ]
    using spc_value_induction; intros w Hw;
    cbn [Checked.spc_serialize_value spc_serialize_value];
    match goal with
    | |- context [spc_write_uint32 w ?t] =>
        rewrite (checked_spc_write_uint32 w t Hw);
        pose proof (spc_write_uint32_capacity w t Hw) as C0;
        destruct (spc_write_uint32 w t) as [n0 w0]; cbn [snd] in C0
    end;
    try reflexivity.
  - rewrite (checked_spc_write_uint32 w0 u C0).
    now destruct (spc_write_uint32 w0 u).
  - destruct (checked_spc_write_8 w0 u C0) as (E & _ & _). rewrite E.
    now destruct (spc_write_uint64 w0 u).
  - destruct (checked_spc_write_8 w0 i C0) as (_ & E & _). rewrite E.
    now destruct (spc_write_int64 w0 i).
  - destruct (checked_spc_write_8 w0 d C0) as (_ & _ & E). rewrite E.
    now destruct (spc_write_double w0 d).
  - rewrite (checked_spc_write_uint32 w0 (strlen s + 1) C0).
    pose proof (spc_write_uint32_capacity w0 (strlen s + 1) C0) as C1.
    destruct (spc_write_uint32 w0 (strlen s + 1)) as [n1 w1].
    cbn [snd] in C1.
    unfold Checked.spc_write_str, spc_write_str.
    rewrite (checked_spc_write_padded w1 (cstr s ++ [x00]) C1).
    now destruct (spc_write_padded w1 (cstr s ++ [x00])).
  - assert (Hok : Forall (ser_ok spc_serialize_value wire_value value_ports) a)
      by (apply Forall_forall; intros; apply spc_serialize_value_spec).
    assert (Ha : Forall
                   (fun v => forall w, in_capacity w ->
                      Checked.spc_serialize_value w v
                      = Some (spc_serialize_value w v)
                      /\ in_capacity (snd (spc_serialize_value w v))) a).
    { eapply Forall_impl; [|exact IH]. intros v Hv w' Hw'.
      split; [now apply Hv|now apply spc_serialize_value_capacity]. }
    rewrite (checked_write_array_with _ _ _ _ a Hok Ha w0 C0).
    now destruct (write_array_with spc_serialize_value w0 a).
  - assert (Hok : Forall (fun it => ser_ok spc_serialize_value wire_value
                                      value_ports (value it)) (items d))
      by (apply Forall_forall; intros; apply spc_serialize_value_spec).
    assert (Hd : Forall
                   (fun it => forall w, in_capacity w ->
                      Checked.spc_serialize_value w (value it)
                      = Some (spc_serialize_value w (value it))
                      /\ in_capacity
                           (snd (spc_serialize_value w (value it))))
                   (items d)).
    { eapply Forall_impl; [|exact IH]. intros it Hv w' Hw'.
      split; [now apply Hv|now apply spc_serialize_value_capacity]. }
    rewrite (checked_write_dict_with _ _ _ _ d Hok Hd w0 C0).
    now destruct (write_dict_with spc_serialize_value w0 d).
  - rewrite (checked_spc_write w0 (le_bytes 16 u) C0).
    now destruct (spc_write w0 (le_bytes 16 u)).
  - rewrite (checked_spc_write_uint32 w0 (Z.of_nat (length d)) C0).
    pose proof (spc_write_uint32_capacity w0 (Z.of_nat (length d)) C0) as C1.
    destruct (spc_write_uint32 w0 (Z.of_nat (length d))) as [n1 w1].
    cbn [snd] in C1.
    rewrite (checked_spc_write_padded w1 d C1).
    now destruct (spc_write_padded w1 d).
Qed.

(** No write of the serializer leaves the buffer.  Over a buffer that
    refuses every [memcpy] and [memset] that would pass its end, and
    every store of a byte size that is not into bytes written before,
    [spc_serialize_value] on a writer whose cursor is not behind the end
    is never refused, whatever the value and however small the buffer:
    it returns the count and the writer that it returns over the list,
    and the cursor of that writer is not behind the end either. *)
Theorem serializer_stays_within_capacity `{spc_types} (v : spc_value_t)
  (w : writer_t) :
  in_capacity w ->
  Checked.spc_serialize_value w v = Some (spc_serialize_value w v)
  /\ in_capacity (snd (spc_serialize_value w v)).
Proof.
  intros Hw. split.
  - now apply checked_spc_serialize_value.
  - now apply spc_serialize_value_capacity.
Qed.

Lemma serializer_capacity_witness :
  let w := {| w_buf := []; w_end := 0; w_ports := [] |} in
  in_capacity w
  /\ Checked.spc_serialize_value (H := xpc_types) w
       (SPC_DICT (content sample_message))
     = Some (spc_serialize_value (H := xpc_types) w
               (SPC_DICT (content sample_message)))
  /\ in_capacity
       (snd (spc_serialize_value (H := xpc_types) w
               (SPC_DICT (content sample_message)))).
Proof.
  intros w.
  assert (H0 : in_capacity w) by (vm_compute; discriminate).
  split; [exact H0|].
  exact (@serializer_stays_within_capacity xpc_types
           (SPC_DICT (content sample_message)) w H0).
Defined.
